(** * ParamsSanitizer: a shallow embedding of [src/params-sanitizer.ts]

    The development has three layers.

    - [Host]: the part of the ECMAScript runtime the sanitizer calls
      (value conversions, property access, [String.prototype.split],
      [JSON.parse], [Date]).  Everything the standard leaves to the
      implementation ([Date.parse] on text, the text of a [Date]) is a
      field of the record [Host], so that the general theorems hold for
      every host.
    - the sanitizer itself: [ParamsSanitizer], [check], [parseValue],
      [values], written after the source, statement by statement.
    - the properties.

    Limits of the runtime model, none of which a property below relies on:
    numbers are exact decimals (no rounding to binary64, one zero); strings
    are sequences of 8-bit characters, exact for ASCII text; objects are
    trees (no sharing between two properties, no cycles) that carry their
    own properties only, so a property name that would reach an inherited
    member ([toString], [constructor], [__proto__], ...) reads as absent. *)

From Stdlib Require Import List String Ascii ZArith NArith Bool Lia.
From Stdlib Require Import DecimalString Sorted.
Import ListNotations.

Set Warnings "-register-all".
Local Open Scope string_scope.
Local Open Scope list_scope.

(** ** Exceptions *)

(** The exceptions the sanitizer can let escape, by the operation that
    raises them. *)
Inductive error : Type :=
| SyntaxError_JSON (text : string)          (* JSON.parse: text is not JSON *)
| TypeError_nullish (prop : string)         (* x[prop], x.prop with x null or undefined *)
| TypeError_not_a_function (prop : string)  (* x.prop(...) where x.prop is undefined *)
| TypeError_assign_primitive (prop : string) (* x[prop] = v, x a primitive, strict mode *)
| RangeError_array_length.                  (* a.length = v, v not a valid length *)

Inductive result (A : Type) : Type :=
| Ok (a : A)
| Throw (e : error).

Arguments Ok {A} a.
Arguments Throw {A} e.

Definition bind {A B : Type} (r : result A) (k : A -> result B) : result B :=
  match r with
  | Ok a => k a
  | Throw e => Throw e
  end.

Declare Scope result_scope.
Delimit Scope result_scope with result.
Notation "'do' x <- r ; k" := (bind r (fun x => k))
  (at level 10, x name, r at level 100, k at level 200) : result_scope.
Local Open Scope result_scope.

Definition is_ok {A : Type} (r : result A) : bool :=
  match r with Ok _ => true | Throw _ => false end.

(** A loop whose body may throw: [xs.forEach(x => ...)] over a state. *)
Fixpoint foldM {S X : Type} (f : S -> X -> result S) (xs : list X) (s : S)
  : result S :=
  match xs with
  | [] => Ok s
  | x :: xs' => do s' <- f s x; foldM f xs' s'
  end.

(** ** Characters and text *)

Definition chars (s : string) : list ascii := list_ascii_of_string s.
Definition text (cs : list ascii) : string := string_of_list_ascii cs.

Definition code (c : ascii) : N := N_of_ascii c.

Definition is_digit (c : ascii) : bool :=
  ((48 <=? code c) && (code c <=? 57))%N.

Definition digit_val (c : ascii) : Z := Z.of_N (code c - 48).

(** Value of a hexadecimal digit, which also serves bases 2 and 8. *)
Definition hex_val (c : ascii) : option Z :=
  let n := code c in
  if ((48 <=? n) && (n <=? 57))%N then Some (Z.of_N (n - 48))
  else if ((65 <=? n) && (n <=? 70))%N then Some (Z.of_N (n - 55))
  else if ((97 <=? n) && (n <=? 102))%N then Some (Z.of_N (n - 87))
  else None.

Fixpoint span_digits (cs : list ascii) : list ascii * list ascii :=
  match cs with
  | c :: cs' =>
      if is_digit c
      then let (ds, rest) := span_digits cs' in (c :: ds, rest)
      else ([], cs)
  | [] => ([], [])
  end.

Definition decimal_val (ds : list ascii) : Z :=
  fold_left (fun acc c => 10 * acc + digit_val c)%Z ds 0%Z.

(** [radix_val b ds]: the number [ds] writes in base [b], when [ds] is a
    non-empty run of digits of that base. *)
Definition radix_val (b : Z) (ds : list ascii) : option Z :=
  match ds with
  | [] => None
  | _ =>
      fold_left
        (fun acc c =>
           match acc, hex_val c with
           | Some a, Some d => if (d <? b)%Z then Some (b * a + d)%Z else None
           | _, _ => None
           end)
        ds (Some 0%Z)
  end.

Definition string_of_N (n : N) : string :=
  NilZero.string_of_uint (N.to_uint n).

Definition string_of_nat (n : nat) : string := string_of_N (N.of_nat n).

Fixpoint repeat_char (c : ascii) (n : nat) : list ascii :=
  match n with
  | O => []
  | S n' => c :: repeat_char c n'
  end.

(** White space and line terminators of the ASCII range. *)
Definition is_ws (c : ascii) : bool :=
  let n := code c in
  ((n =? 9) || (n =? 10) || (n =? 11) || (n =? 12) || (n =? 13) || (n =? 32))%N.

Fixpoint drop_ws (cs : list ascii) : list ascii :=
  match cs with
  | c :: cs' => if is_ws c then drop_ws cs' else cs
  | [] => []
  end.

Definition trim (cs : list ascii) : list ascii :=
  rev (drop_ws (rev (drop_ws cs))).

Fixpoint starts_with (p cs : list ascii) : bool :=
  match p, cs with
  | [], _ => true
  | a :: p', c :: cs' => Ascii.eqb a c && starts_with p' cs'
  | _ :: _, [] => false
  end.

(** [s.split(sep)] for a non-empty separator: [skip] counts the characters
    of a separator still to be passed over, [cur] is the piece being read,
    last character first. *)
Fixpoint split_on (sep : list ascii) (cs : list ascii) (skip : nat)
    (cur : list ascii) : list string :=
  match cs with
  | [] => [text (rev cur)]
  | c :: cs' =>
      match skip with
      | S k => split_on sep cs' k cur
      | O =>
          if starts_with sep cs
          then text (rev cur) :: split_on sep cs' (List.length sep - 1) []
          else split_on sep cs' 0 (c :: cur)
      end
  end.

(** [String.prototype.split(separator)] with one argument: [None] is an
    undefined separator (the receiver comes back whole), the empty
    separator cuts between every two characters. *)
Definition split (s : string) (separator : option string) : list string :=
  match separator with
  | None => [s]
  | Some sep =>
      match chars sep with
      | [] => map (fun c => String c EmptyString) (chars s)
      | sepc => split_on sepc (chars s) 0 []
      end
  end.

(** ** Numbers *)

(** A Number: not-a-number, an infinity, or the decimal [m * 10^e]. *)
Inductive number : Type :=
| NaN
| Infinity (negative : bool)
| Finite (m : Z) (e : Z).

Fixpoint strip_zeros (fuel : nat) (m e : Z) : number :=
  match fuel with
  | O => Finite m e
  | S fuel' =>
      if (e <? 0)%Z && (m mod 10 =? 0)%Z
      then strip_zeros fuel' (m / 10)%Z (e + 1)%Z
      else Finite m e
  end.

(** One representative per value: integers as [Finite n 0], other decimals
    with the shortest mantissa. *)
Definition decimal (m e : Z) : number :=
  if (m =? 0)%Z then Finite 0 0
  else if (0 <=? e)%Z then Finite (m * 10 ^ e) 0
  else strip_zeros (Z.to_nat (- e)) m e.

Definition number_of_Z (z : Z) : number := Finite z 0.
Definition number_of_nat (n : nat) : number := Finite (Z.of_nat n) 0.

Definition isNaN (n : number) : bool :=
  match n with NaN => true | _ => false end.

(** Equality of two Numbers as [Array.prototype.includes] tests it
    (SameValueZero): NaN equals itself. *)
Definition number_eqb (x y : number) : bool :=
  match x, y with
  | NaN, NaN => true
  | Infinity a, Infinity b => Bool.eqb a b
  | Finite m1 e1, Finite m2 e2 =>
      let e := Z.min e1 e2 in
      (m1 * 10 ^ (e1 - e) =? m2 * 10 ^ (e2 - e))%Z
  | _, _ => false
  end.

(** The integer a finite Number denotes, when it denotes one. *)
Definition integer_of (n : number) : option Z :=
  match n with
  | Finite m e =>
      if (0 <=? e)%Z then Some (m * 10 ^ e)%Z
      else if (m mod 10 ^ (- e) =? 0)%Z then Some (m / 10 ^ (- e))%Z
      else None
  | _ => None
  end.

(** Truncation toward zero of a finite Number. *)
Definition truncate (m e : Z) : Z :=
  if (0 <=? e)%Z then (m * 10 ^ e)%Z else Z.quot m (10 ^ (- e)).

(** The decimal part of a numeric literal, after the sign:
    digits, [.digits], digits[.], with an optional exponent.  [None] when
    [cs] is not such a literal. *)
Definition unsigned_decimal (cs : list ascii) : option (Z * Z) :=
  let (ip, r1) := span_digits cs in
  let '(fp, r2) :=
    match r1 with
    | "."%char :: r => span_digits r
    | _ => ([], r1)
    end in
  match ip ++ fp with
  | [] => None
  | ds =>
      let m := decimal_val ds in
      let shift := Z.of_nat (List.length fp) in
      match r2 with
      | [] => Some (m, - shift)%Z
      | c :: r3 =>
          if Ascii.eqb c "e" || Ascii.eqb c "E" then
            let '(neg, r4) :=
              match r3 with
              | "-"%char :: r => (true, r)
              | "+"%char :: r => (false, r)
              | _ => (false, r3)
              end in
            match span_digits r4 with
            | ((_ :: _) as es, []) =>
                let x := decimal_val es in
                Some (m, (if neg then - x else x) - shift)%Z
            | _ => None
            end
          else None
      end
  end.

Definition signed_decimal (cs : list ascii) : number :=
  let '(neg, body) :=
    match cs with
    | "-"%char :: r => (true, r)
    | "+"%char :: r => (false, r)
    | _ => (false, cs)
    end in
  if String.eqb (text body) "Infinity" then Infinity neg
  else
    match unsigned_decimal body with
    | Some (m, e) => decimal (if neg then - m else m) e
    | None => NaN
    end.

(** StringToNumber: the conversion [+s] applies to text. *)
Definition StringToNumber (s : string) : number :=
  match trim (chars s) with
  | [] => Finite 0 0
  | "0"%char :: p :: ds =>
      let radix (b : Z) :=
        match radix_val b ds with
        | Some z => Finite z 0
        | None => NaN
        end in
      if Ascii.eqb p "x" || Ascii.eqb p "X" then radix 16%Z
      else if Ascii.eqb p "o" || Ascii.eqb p "O" then radix 8%Z
      else if Ascii.eqb p "b" || Ascii.eqb p "B" then radix 2%Z
      else signed_decimal ("0"%char :: p :: ds)
  | cs => signed_decimal cs
  end.

Fixpoint strip_all_zeros (fuel : nat) (m e : Z) : Z * Z :=
  match fuel with
  | O => (m, e)
  | S fuel' =>
      if (m mod 10 =? 0)%Z then strip_all_zeros fuel' (m / 10)%Z (e + 1)%Z
      else (m, e)
  end.

(** Number::toString in radix 10. *)
Definition number_to_string (x : number) : string :=
  match x with
  | NaN => "NaN"
  | Infinity false => "Infinity"
  | Infinity true => "-Infinity"
  | Finite m e =>
      if (m =? 0)%Z then "0"
      else
        let sign := if (m <? 0)%Z then "-" else "" in
        let a := Z.abs m in
        let '(s, e') :=
          strip_all_zeros (List.length (chars (string_of_N (Z.to_N a)))) a e in
        let ds := chars (string_of_N (Z.to_N s)) in
        let k := Z.of_nat (List.length ds) in
        let n := (k + e')%Z in
        let body :=
          if (k <=? n)%Z && (n <=? 21)%Z then
            ds ++ repeat_char "0" (Z.to_nat (n - k))
          else if (0 <? n)%Z && (n <=? 21)%Z then
            firstn (Z.to_nat n) ds ++ "."%char :: skipn (Z.to_nat n) ds
          else if (-6 <? n)%Z && (n <=? 0)%Z then
            "0"%char :: "."%char :: repeat_char "0" (Z.to_nat (- n)) ++ ds
          else
            let x := (n - 1)%Z in
            let exponent :=
              "e"%char :: (if (x <? 0)%Z then "-"%char else "+"%char)
                       :: chars (string_of_N (Z.to_N (Z.abs x))) in
            match ds with
            | [d] => d :: exponent
            | d :: more => d :: "."%char :: more ++ exponent
            | [] => exponent
            end in
        sign ++ text body
  end.

(** ** Values *)

(** The class of an object: ordinary, an Array with its [length], or a Date
    with its time value (milliseconds since the epoch, or NaN). *)
Inductive oclass : Type :=
| CObject
| CArray (len : N)
| CDate (time : number).

(** A language value.  An object carries its own properties in creation
    order; the elements of an Array are the properties named by indices. *)
Inductive value : Type :=
| VUndefined
| VNull
| VBool (b : bool)
| VNum (n : number)
| VStr (s : string)
| VObj (c : oclass) (props : list (string * value)).

Definition props := list (string * value).

Fixpoint lookup (k : string) (kvs : props) : option value :=
  match kvs with
  | [] => None
  | (k', v) :: kvs' => if String.eqb k k' then Some v else lookup k kvs'
  end.

Definition has_key (k : string) (kvs : props) : bool :=
  match lookup k kvs with Some _ => true | None => false end.

(** Defining property [k]: an existing property keeps its place, a new one
    comes last. *)
Fixpoint assoc_set (k : string) (v : value) (kvs : props) : props :=
  match kvs with
  | [] => [(k, v)]
  | (k', v') :: kvs' =>
      if String.eqb k k' then (k, v) :: kvs'
      else (k', v') :: assoc_set k v kvs'
  end.

(** The new state of property [k] when the object it holds was updated in
    place; nothing happens when there is no such property. *)
Fixpoint assoc_replace (k : string) (v : value) (kvs : props) : props :=
  match kvs with
  | [] => []
  | (k', v') :: kvs' =>
      if String.eqb k k' then (k, v) :: kvs'
      else (k', v') :: assoc_replace k v kvs'
  end.

(** An array index: the canonical decimal text of an integer below
    [2^32 - 1]. *)
Definition array_index (s : string) : option N :=
  let cs := chars s in
  match cs with
  | [] => None
  | _ =>
      if forallb is_digit cs then
        let n := Z.to_N (decimal_val cs) in
        if String.eqb (string_of_N n) s && (n <? 4294967295)%N
        then Some n else None
      else None
  end.

Fixpoint insert_index (i : N) (js : list N) : list N :=
  match js with
  | [] => [i]
  | j :: js' => if (i <=? j)%N then i :: js else j :: insert_index i js'
  end.

Fixpoint indices_of (ks : list string) : list N :=
  match ks with
  | [] => []
  | k :: ks' =>
      match array_index k with
      | Some i => insert_index i (indices_of ks')
      | None => indices_of ks'
      end
  end.

(** The order of [Object.keys]: array indices ascending, then the other
    names in creation order. *)
Definition ordered_keys (ks : list string) : list string :=
  map string_of_N (indices_of ks)
  ++ filter (fun k => match array_index k with Some _ => false | None => true end) ks.

Definition mk_array (vs : list value) : value :=
  VObj (CArray (N.of_nat (List.length vs)))
       (combine (map string_of_nat (seq 0 (List.length vs))) vs).

Definition empty_object : value := VObj CObject [].

(** [Object.keys(v)] for a [v] that is neither null nor undefined (the
    sanitizer applies it to [x || {}] only). *)
Definition Object_keys (v : value) : list string :=
  match v with
  | VObj _ kvs => ordered_keys (map fst kvs)
  | VStr s => map string_of_nat (seq 0 (String.length s))
  | _ => []
  end.

(** ToBoolean. *)
Definition truthy (v : value) : bool :=
  match v with
  | VUndefined | VNull => false
  | VBool b => b
  | VNum NaN => false
  | VNum n => negb (number_eqb n (Finite 0 0))
  | VStr s => negb (String.eqb s "")
  | VObj _ _ => true
  end.

(** [a || b]. *)
Definition or_else (a b : value) : value := if truthy a then a else b.

(** [v == null], equally [v == undefined]. *)
Definition nullish (v : value) : bool :=
  match v with
  | VUndefined | VNull => true
  | _ => false
  end.

Definition is_object (v : value) : bool :=
  match v with VObj _ _ => true | _ => false end.

(** [v[k]], reading: the value's own properties, the length and the
    characters of a string, the length of an array.  A name that would reach
    an inherited member reads as [undefined]. *)
Definition get_prop (v : value) (k : string) : result value :=
  match v with
  | VUndefined | VNull => Throw (TypeError_nullish k)
  | VBool _ | VNum _ => Ok VUndefined
  | VStr s =>
      if String.eqb k "length" then Ok (VNum (number_of_nat (String.length s)))
      else
        match array_index k with
        | Some i =>
            match String.get (N.to_nat i) s with
            | Some c => Ok (VStr (String c EmptyString))
            | None => Ok VUndefined
            end
        | None => Ok VUndefined
        end
  | VObj c kvs =>
      match c, String.eqb k "length" with
      | CArray len, true => Ok (VNum (Finite (Z.of_N len) 0))
      | _, _ =>
          match lookup k kvs with
          | Some x => Ok x
          | None => Ok VUndefined
          end
      end
  end.

(** ** The host *)

(** What ECMAScript leaves to the implementation: the time value
    [Date.parse] reads in a text, and the text [Date.prototype.toString]
    writes for a time value. *)
Record Host : Type := {
  Date_parse : string -> number;
  Date_toString : number -> string
}.

Fixpoint join (sep : string) (ss : list string) : string :=
  match ss with
  | [] => ""
  | [s] => s
  | s :: ss' => s ++ sep ++ join sep ss'
  end.

Definition lookup_text (k : string) (kss : list (string * string)) : string :=
  match find (fun ks => String.eqb k (fst ks)) kss with
  | Some (_, s) => s
  | None => ""
  end.

(** TimeClip. *)
Definition TimeClip (n : number) : number :=
  match n with
  | Finite m e =>
      let t := truncate m e in
      if (Z.abs t <=? 8640000000000000)%Z then Finite t 0 else NaN
  | _ => NaN
  end.

Section Runtime.

Variable host : Host.

(** ToString.  An Array joins the texts of its elements with commas, a hole,
    [null] or [undefined] counting as the empty text. *)
Fixpoint ToString (v : value) : string :=
  match v with
  | VUndefined => "undefined"
  | VNull => "null"
  | VBool true => "true"
  | VBool false => "false"
  | VNum n => number_to_string n
  | VStr s => s
  | VObj CObject _ => "[object Object]"
  | VObj (CDate t) _ => Date_toString host t
  | VObj (CArray len) kvs =>
      let texts :=
        (fix each (l : props) : list (string * string) :=
           match l with
           | [] => []
           | (k, x) :: l' =>
               (k, match x with
                   | VUndefined | VNull => ""
                   | _ => ToString x
                   end) :: each l'
           end) kvs in
      join "," (map (fun i => lookup_text (string_of_nat i) texts)
                    (seq 0 (N.to_nat len)))
  end.

(** ToNumber, the conversion behind unary [+]. *)
Definition ToNumber (v : value) : number :=
  match v with
  | VUndefined => NaN
  | VNull => Finite 0 0
  | VBool true => Finite 1 0
  | VBool false => Finite 0 0
  | VNum n => n
  | VStr s => StringToNumber s
  | VObj (CDate t) _ => t
  | VObj _ _ => StringToNumber (ToString v)
  end.

(** [v[k] = x] in strict mode code: the new state of [v]. *)
Definition set_prop (v : value) (k : string) (x : value) : result value :=
  match v with
  | VUndefined | VNull => Throw (TypeError_nullish k)
  | VBool _ | VNum _ | VStr _ => Throw (TypeError_assign_primitive k)
  | VObj (CArray len) kvs =>
      if String.eqb k "length" then
        match integer_of (ToNumber x) with
        | Some z =>
            if (0 <=? z)%Z && (z <? 4294967296)%Z then
              Ok (VObj (CArray (Z.to_N z))
                    (filter (fun kv =>
                               match array_index (fst kv) with
                               | Some i => (i <? Z.to_N z)%N
                               | None => true
                               end) kvs))
            else Throw RangeError_array_length
        | None => Throw RangeError_array_length
        end
      else
        match array_index k with
        | Some i =>
            Ok (VObj (CArray (if (len <=? i)%N then i + 1 else len)%N)
                  (assoc_set k x kvs))
        | None => Ok (VObj (CArray len) (assoc_set k x kvs))
        end
  | VObj c kvs => Ok (VObj c (assoc_set k x kvs))
  end.

(** The time value of [new Date(v)]. *)
Definition Date_value (v : value) : number :=
  match v with
  | VObj (CDate t) _ => t
  | VStr s => Date_parse host s
  | VObj _ _ => Date_parse host (ToString v)
  | _ => TimeClip (ToNumber v)
  end.

Definition new_Date (v : value) : value := VObj (CDate (Date_value v)) [].

End Runtime.

(** ** JSON.parse *)

Definition is_json_ws (c : ascii) : bool :=
  let n := code c in
  ((n =? 9) || (n =? 10) || (n =? 13) || (n =? 32))%N.

Fixpoint json_ws (cs : list ascii) : list ascii :=
  match cs with
  | c :: cs' => if is_json_ws c then json_ws cs' else cs
  | [] => []
  end.

(** The characters of a code point below [2^16] in UTF-8. *)
Definition utf8 (n : N) : list ascii :=
  if (n <? 128)%N then [ascii_of_N n]
  else if (n <? 2048)%N then
    [ascii_of_N (192 + n / 64); ascii_of_N (128 + n mod 64)]
  else
    [ascii_of_N (224 + n / 4096); ascii_of_N (128 + (n / 64) mod 64);
     ascii_of_N (128 + n mod 64)].

(** The double quote. *)
Definition dquote : ascii := ascii_of_N 34.

(** The character an escape letter of a JSON string stands for. *)
Definition json_escape (e : ascii) : option ascii :=
  if Ascii.eqb e dquote then Some dquote
  else if Ascii.eqb e "\" then Some "\"%char
  else if Ascii.eqb e "/" then Some "/"%char
  else if Ascii.eqb e "b" then Some (ascii_of_N 8)
  else if Ascii.eqb e "f" then Some (ascii_of_N 12)
  else if Ascii.eqb e "n" then Some (ascii_of_N 10)
  else if Ascii.eqb e "r" then Some (ascii_of_N 13)
  else if Ascii.eqb e "t" then Some (ascii_of_N 9)
  else None.

(** The rest of a JSON string after its opening quote: the text and what
    follows the closing quote. *)
Fixpoint json_string (cs : list ascii) (acc : list ascii)
  : option (string * list ascii) :=
  match cs with
  | [] => None
  | c :: r =>
      if Ascii.eqb c dquote then Some (text (rev acc), r)
      else if Ascii.eqb c "\" then
        match r with
        | "u"%char :: a :: b :: c' :: d :: r' =>
            match radix_val 16 [a; b; c'; d] with
            | Some z => json_string r' (rev (utf8 (Z.to_N z)) ++ acc)
            | None => None
            end
        | e :: r' =>
            match json_escape e with
            | Some x => json_string r' (x :: acc)
            | None => None
            end
        | [] => None
        end
      else if (code c <? 32)%N then None
      else json_string r (c :: acc)
  end.

(** A JSON number at the head of [cs]. *)
Definition json_number (cs : list ascii) : option (number * list ascii) :=
  let '(neg, r0) :=
    match cs with
    | "-"%char :: r => (true, r)
    | _ => (false, cs)
    end in
  let (ip, r1) := span_digits r0 in
  let int_ok :=
    match ip with
    | [] => false
    | ["0"%char] => true
    | d :: _ => negb (Ascii.eqb d "0")
    end in
  if int_ok then
    let frac :=
      match r1 with
      | "."%char :: r =>
          match span_digits r with
          | ((_ :: _) as fp, r2) => Some (fp, r2)
          | _ => None
          end
      | _ => Some ([], r1)
      end in
    match frac with
    | None => None
    | Some (fp, r2) =>
        let m := decimal_val (ip ++ fp) in
        let m := if neg then (- m)%Z else m in
        let shift := Z.of_nat (List.length fp) in
        match r2 with
        | c :: r3 =>
            if Ascii.eqb c "e" || Ascii.eqb c "E" then
              let '(eneg, r4) :=
                match r3 with
                | "-"%char :: r => (true, r)
                | "+"%char :: r => (false, r)
                | _ => (false, r3)
                end in
              match span_digits r4 with
              | ((_ :: _) as es, r5) =>
                  let x := decimal_val es in
                  Some (decimal m ((if eneg then - x else x) - shift)%Z, r5)
              | _ => None
              end
            else Some (decimal m (- shift)%Z, r2)
        | [] => Some (decimal m (- shift)%Z, r2)
        end
    end
  else None.

Definition json_literal (word : string) (v : value) (cs : list ascii)
  : option (value * list ascii) :=
  if starts_with (chars word) cs
  then Some (v, skipn (String.length word) cs)
  else None.

(** A JSON value at the head of [cs], after white space; [fuel] bounds the
    number of nested calls, which the length of the text bounds. *)
Fixpoint json_value (fuel : nat) (cs : list ascii)
  : option (value * list ascii) :=
  match fuel with
  | O => None
  | S fuel' =>
      match json_ws cs with
      | "{"%char :: r =>
          match json_ws r with
          | "}"%char :: r' => Some (VObj CObject [], r')
          | r' => json_members fuel' r' []
          end
      | "["%char :: r =>
          match json_ws r with
          | "]"%char :: r' => Some (mk_array [], r')
          | r' => json_elements fuel' r' []
          end
      | ("t"%char :: _) as r => json_literal "true" (VBool true) r
      | ("f"%char :: _) as r => json_literal "false" (VBool false) r
      | ("n"%char :: _) as r => json_literal "null" VNull r
      | c :: r =>
          if Ascii.eqb c dquote then
            match json_string r [] with
            | Some (s, r') => Some (VStr s, r')
            | None => None
            end
          else
            match json_number (c :: r) with
            | Some (n, r') => Some (VNum n, r')
            | None => None
            end
      | [] => None
      end
  end

with json_elements (fuel : nat) (cs : list ascii) (acc : list value)
  : option (value * list ascii) :=
  match fuel with
  | O => None
  | S fuel' =>
      match json_value fuel' cs with
      | Some (v, r) =>
          match json_ws r with
          | ","%char :: r' => json_elements fuel' r' (v :: acc)
          | "]"%char :: r' => Some (mk_array (rev (v :: acc)), r')
          | _ => None
          end
      | None => None
      end
  end

with json_members (fuel : nat) (cs : list ascii) (acc : props)
  : option (value * list ascii) :=
  match fuel with
  | O => None
  | S fuel' =>
      match json_ws cs with
      | c :: r =>
          match (if Ascii.eqb c dquote then json_string r [] else None) with
          | Some (k, r1) =>
              match json_ws r1 with
              | ":"%char :: r2 =>
                  match json_value fuel' r2 with
                  | Some (v, r3) =>
                      match json_ws r3 with
                      | ","%char :: r4 => json_members fuel' r4 (assoc_set k v acc)
                      | "}"%char :: r4 => Some (VObj CObject (assoc_set k v acc), r4)
                      | _ => None
                      end
                  | None => None
                  end
              | _ => None
              end
          | None => None
          end
      | [] => None
      end
  end.

(** The value a JSON text denotes, [None] when it is not a JSON text. *)
Definition json_text (s : string) : option value :=
  match json_value (2 * String.length s + 2) (chars s) with
  | Some (v, r) =>
      match json_ws r with
      | [] => Some v
      | _ => None
      end
  | None => None
  end.

(** ** A reference host

    A host whose local time is UTC and whose [Date.parse] reads the
    ECMAScript date-time interchange format ([YYYY-MM-DDTHH:mm:ss.sssZ]
    and its shorter forms) and nothing else, as the standard allows.  The
    closed examples below run on it. *)

Local Open Scope Z_scope.

Definition days_from_civil (y m d : Z) : Z :=
  let y' := if m <=? 2 then y - 1 else y in
  let era := y' / 400 in
  let yoe := y' - era * 400 in
  let doy := (153 * (if 2 <? m then m - 3 else m + 9) + 2) / 5 + d - 1 in
  let doe := yoe * 365 + yoe / 4 - yoe / 100 + doy in
  era * 146097 + doe - 719468.

(** Year, month and day of a day number (days since 1970-01-01). *)
Definition civil_from_days (z : Z) : Z * Z * Z :=
  let z := z + 719468 in
  let era := z / 146097 in
  let doe := z - era * 146097 in
  let yoe := (doe - doe / 1460 + doe / 36524 - doe / 146096) / 365 in
  let doy := doe - (365 * yoe + yoe / 4 - yoe / 100) in
  let mp := (5 * doy + 2) / 153 in
  let d := doy - (153 * mp + 2) / 5 + 1 in
  let m := if mp <? 10 then mp + 3 else mp - 9 in
  let y := yoe + era * 400 in
  ((if m <=? 2 then y + 1 else y), m, d).

Definition days_in_month (y m : Z) : Z :=
  if m =? 2 then
    if ((y mod 4 =? 0) && negb (y mod 100 =? 0)) || (y mod 400 =? 0)
    then 29 else 28
  else if (m =? 4) || (m =? 6) || (m =? 9) || (m =? 11) then 30
  else 31.

(** Exactly [n] digits at the head of [cs]. *)
Definition take_digits (n : nat) (cs : list ascii) : option (Z * list ascii) :=
  let ds := firstn n cs in
  if (List.length ds =? n)%nat && forallb is_digit ds
  then Some (decimal_val ds, skipn n cs)
  else None.

(** [c] followed by [n] digits, or [default] when [cs] does not start
    with [c]. *)
Definition field (c : ascii) (n : nat) (default : Z) (cs : list ascii)
  : option (Z * list ascii * bool) :=
  match cs with
  | c' :: r =>
      if Ascii.eqb c c' then
        match take_digits n r with
        | Some (z, r') => Some (z, r', true)
        | None => None
        end
      else Some (default, cs, false)
  | [] => Some (default, cs, false)
  end.

Definition iso_year (cs : list ascii) : option (Z * list ascii) :=
  match cs with
  | "+"%char :: r => take_digits 6 r
  | "-"%char :: r =>
      match take_digits 6 r with
      | Some (0, _) => None
      | Some (y, r') => Some (- y, r')
      | None => None
      end
  | _ => take_digits 4 cs
  end.

(** The offset from UTC, in minutes, that ends a date-time. *)
Definition iso_offset (cs : list ascii) : option Z :=
  match cs with
  | [] => Some 0
  | ["Z"%char] => Some 0
  | s :: r =>
      if Ascii.eqb s "+" || Ascii.eqb s "-" then
        match take_digits 2 r with
        | Some (h, ":"%char :: r') =>
            match take_digits 2 r' with
            | Some (m, []) =>
                if (h <=? 23) && (m <=? 59)
                then Some ((if Ascii.eqb s "-" then -1 else 1) * (60 * h + m))
                else None
            | _ => None
            end
        | _ => None
        end
      else None
  end.

(** Milliseconds since midnight and offset of the part after [T]. *)
Definition iso_time (cs : list ascii) : option (Z * Z) :=
  match take_digits 2 cs with
  | Some (h, ":"%char :: r) =>
      match take_digits 2 r with
      | Some (mi, r1) =>
          match field ":" 2 0 r1 with
          | Some (s, r2, has_s) =>
              match (if has_s then field "." 3 0 r2 else Some (0, r2, false)) with
              | Some (ms, r3, _) =>
                  match iso_offset r3 with
                  | Some off =>
                      let t := ((h * 60 + mi) * 60 + s) * 1000 + ms in
                      if (mi <=? 59) && (s <=? 59)
                         && ((h <=? 23) || (t =? 86400000))
                      then Some (t, off) else None
                  | None => None
                  end
              | None => None
              end
          | None => None
          end
      | None => None
      end
  | _ => None
  end.

Definition iso_date_parse (s : string) : number :=
  match iso_year (chars s) with
  | Some (y, r) =>
      match field "-" 2 1 r with
      | Some (m, r1, has_m) =>
          match (if has_m then field "-" 2 1 r1 else Some (1, r1, false)) with
          | Some (d, r2, _) =>
              if (1 <=? m) && (m <=? 12) && (1 <=? d) && (d <=? days_in_month y m)
              then
                let day := days_from_civil y m d * 86400000 in
                match r2 with
                | [] => TimeClip (Finite day 0)
                | "T"%char :: r3 =>
                    match iso_time r3 with
                    | Some (t, off) => TimeClip (Finite (day + t - off * 60000) 0)
                    | None => NaN
                    end
                | _ => NaN
                end
              else NaN
          | None => NaN
          end
      | None => NaN
      end
  | None => NaN
  end.

Definition pad (width : nat) (z : Z) : string :=
  let ds := chars (string_of_N (Z.to_N z)) in
  text (repeat_char "0" (width - List.length ds) ++ ds).

Definition day_name (d : Z) : string :=
  nth (Z.to_nat d) ["Sun"; "Mon"; "Tue"; "Wed"; "Thu"; "Fri"; "Sat"]%string ""%string.

Definition month_name (m : Z) : string :=
  nth (Z.to_nat (m - 1))
    ["Jan"; "Feb"; "Mar"; "Apr"; "May"; "Jun";
     "Jul"; "Aug"; "Sep"; "Oct"; "Nov"; "Dec"]%string ""%string.

(** [Date.prototype.toString] where local time is UTC. *)
Definition utc_date_text (t : number) : string :=
  match t with
  | Finite ms 0 =>
      let day := ms / 86400000 in
      let r := ms mod 86400000 in
      let '(y, m, d) := civil_from_days day in
      let date :=
        [day_name ((day + 4) mod 7); month_name m; pad 2 d;
         String.append (if y <? 0 then "-" else "") (pad 4 (Z.abs y))] in
      let time :=
        [pad 2 (r / 3600000); pad 2 (r / 60000 mod 60); pad 2 (r / 1000 mod 60)] in
      join " " (date ++ [join ":" time; "GMT+0000 (Coordinated Universal Time)"])%list
  | _ => "Invalid Date"
  end.

Definition utc_host : Host :=
  {| Date_parse := iso_date_parse; Date_toString := utc_date_text |}.

Local Close Scope Z_scope.

(** * The sanitizer *)

(** ** Data model *)

(** ['query' | 'path' | 'body']. *)
Inductive location : Type := Query | Path | Body.

Definition location_eqb (a b : location) : bool :=
  match a, b with
  | Query, Query | Path, Path | Body, Body => true
  | _, _ => false
  end.

(** ['string' | 'number' | 'object' | 'date' | 'boolean']. *)
Inductive ptype : Type := TString | TNumber | TObject | TDate | TBoolean.

(** [interface ParamsDefinition].  An optional member that is absent is
    [None]; [in_] is the member [in]. *)
Inductive ParamsDefinition : Type := {
  name : string;
  type : ptype;
  isArray : option bool;
  elementsDivider : option string;
  default : option value;
  required : option bool;
  in_ : location;
  properties : option (list ParamsDefinition)
}.

(** An entry [{ where, params }] of a classification list. *)
Record entry : Type := {
  where_ : location;
  params_ : list string
}.

(** [interface CheckResult]. *)
Record CheckResult : Type := {
  status : bool;
  unknown : list entry;
  missing : list entry;
  malformed : list entry
}.

(** [interface ValueResult], each mapping with its properties in order. *)
Record ValueResult : Type := {
  query_values : props;
  path_values : props;
  body_values : props
}.

(** [interface ParamsSanitizerOptions]. *)
Record ParamsSanitizerOptions : Type := {
  strict : option bool
}.

(** The members of an Express [Request] the sanitizer touches; an absent
    member is [VUndefined].  [path] is never read: it is there because the
    synthetic request of a nested validation is written at the member
    named by [def.in], which for ['path'] is not [params]. *)
Record Request : Type := {
  query : value;
  params : value;
  body : value;
  path : value
}.

(** [{} as Request]. *)
Definition empty_request : Request :=
  {| query := VUndefined; params := VUndefined; body := VUndefined;
     path := VUndefined |}.

(** The optional argument [parent] of [check]: [{ name, def }]. *)
Record Parent : Type := {
  parent_name : string;
  parent_def : list ParamsDefinition
}.

(** [class ParamsSanitizer]: its two private members. *)
Record ParamsSanitizer : Type := {
  definitions : list ParamsDefinition;
  options : ParamsSanitizerOptions
}.

(** Truth of an optional boolean member. *)
Definition is_true (o : option bool) : bool :=
  match o with
  | Some true => true
  | _ => false
  end.

Definition or_default {A : Type} (o : option A) (d : A) : option A :=
  match o with
  | Some a => Some a
  | None => Some d
  end.

(** [Object.assign({}, defaultParamsValues, d)]: [name], [type] and [in]
    are always members of [d]. *)
Definition with_defaults (d : ParamsDefinition) : ParamsDefinition :=
  {| name := name d;
     type := type d;
     isArray := or_default (isArray d) false;
     elementsDivider := or_default (elementsDivider d) ",";
     default := or_default (default d) VNull;
     required := or_default (required d) false;
     in_ := in_ d;
     properties := properties d |}.

(** [new ParamsSanitizer(data, options)]. *)
Definition new_ParamsSanitizer (data : list ParamsDefinition)
    (opts : ParamsSanitizerOptions) : ParamsSanitizer :=
  {| definitions := map with_defaults data;
     options := {| strict := or_default (strict opts) false |} |}.

(** ** Helpers of [check] *)

(** [l.find(p)] together with [f] of the element found. *)
Fixpoint find_with {A B : Type} (p : A -> bool) (f : A -> B) (l : list A)
  : option (A * B) :=
  match l with
  | [] => None
  | a :: l' => if p a then Some (a, f a) else find_with p f l'
  end.

(** [l.includes(x)] on text. *)
Definition includes_text (l : list string) (x : string) : bool :=
  existsb (String.eqb x) l.

(** SameValueZero.  Two objects are the same when they are one object; the
    model compares an object with the members of array literals only,
    which hold none. *)
Definition same_value_zero (a b : value) : bool :=
  match a, b with
  | VUndefined, VUndefined => true
  | VNull, VNull => true
  | VBool x, VBool y => Bool.eqb x y
  | VNum x, VNum y => number_eqb x y
  | VStr x, VStr y => String.eqb x y
  | _, _ => false
  end.

(** [l.includes(x)]. *)
Definition includes (l : list value) (x : value) : bool :=
  existsb (same_value_zero x) l.

(** [(v as string).split(separator)]: only text has a [split] method. *)
Definition call_split (v : value) (separator : option string)
  : result (list string) :=
  match v with
  | VStr s => Ok (split s separator)
  | VUndefined | VNull => Throw (TypeError_nullish "split")
  | _ => Throw (TypeError_not_a_function "split")
  end.

(** [u.find(e => e.where === where)?.params.push(x)]. *)
Fixpoint push_at (where' : location) (x : string) (l : list entry)
  : list entry :=
  match l with
  | [] => []
  | u :: l' =>
      if location_eqb (where_ u) where'
      then {| where_ := where_ u; params_ := params_ u ++ [x] |} :: l'
      else u :: push_at where' x l'
  end.

(** [l.map(m => m.params.length).filter(m => m > 0)]. *)
Definition any_params (l : list entry) : list nat :=
  filter (fun m => 0 <? m)%nat (map (fun m => List.length (params_ m)) l).

(** The mapping [check] and [values] read for a location: [req.query],
    [req.params], [req.body]. *)
Definition mapping (req : Request) (where' : location) : value :=
  match where' with
  | Query => query req
  | Path => params req
  | Body => body req
  end.

(** [fakeReq[where] = payload] on a fresh [{} as Request]. *)
Definition fake_request (where' : location) (payload : value) : Request :=
  match where' with
  | Query => {| query := payload; params := VUndefined; body := VUndefined;
                path := VUndefined |}
  | Path => {| query := VUndefined; params := VUndefined; body := VUndefined;
               path := payload |}
  | Body => {| query := VUndefined; params := VUndefined; body := payload;
               path := VUndefined |}
  end.

Definition lists : Type := (list entry * list entry * list entry)%type.

(** Lines 73 to 78: the names of the required definitions of [where] that
    are no key of its mapping, each after [path]. *)
Definition missing_params (defs : list ParamsDefinition) (path : string)
    (where' : location) (keys : list string) : list string :=
  let required :=
    map name
      (filter (fun d => is_true (required d))
         (filter (fun d => location_eqb (in_ d) where') defs)) in
  map (fun p => (path ++ p)%string) (filter (fun r => negb (includes_text keys r)) required).

(** ** [check] *)

Section Sanitizer.

Variable host : Host.

(** [JSON.parse(v)]: the argument is converted to text first. *)
Definition JSON_parse (v : value) : result value :=
  let s := ToString host v in
  match json_text s with
  | Some x => Ok x
  | None => Throw (SyntaxError_JSON s)
  end.

(** Lines 133 to 135: the lists of a nested result are pushed after the
    entries of the current call. *)
Definition merge (st : lists) (nested : CheckResult) : lists :=
  let '(mi, un, ma) := st in
  (mi ++ missing nested, un ++ unknown nested, ma ++ malformed nested).

(** Line 95: [missing.find(m => m.where === where &&
    m.params.includes(path + name))]. *)
Definition flagged_missing (l : list entry) (where' : location)
    (qualified : string) : bool :=
  existsb
    (fun m => location_eqb (where_ m) where' && includes_text (params_ m) qualified)
    l.

(** The recursive call of line 131, [this.check(fakeReq, { name: name, def:
    def.properties })], waiting for [name] and [fakeReq]. *)
Definition checker : Type := string -> Request -> result CheckResult.

(** Lines 85 to 140, the callback run on every key [name] of the mapping
    [params] of [where]: [find_def name] is the definition found at line 87
    together with, when it declares [properties], the recursive call of
    line 131. *)
Definition check_name (strict' : bool) (path : string) (where' : location)
    (params : value)
    (find_def : string -> option (ParamsDefinition * option checker))
    (st : lists) (name : string) : result lists :=
  let '(missing, unknown, malformed) := st in
  let qualified := (path ++ name)%string in
  match find_def name with
  | None =>
      if strict' then Ok (missing, push_at where' qualified unknown, malformed)
      else Ok st
  | Some (def, check_properties) =>
      if flagged_missing missing where' qualified then Ok st
      else
        do raw <- get_prop params name;
        let flag_malformed :=
          Ok (missing, unknown, push_at where' qualified malformed) in
        match type def with
        | TNumber =>
            if is_true (isArray def) then
              do values <- call_split raw (elementsDivider def);
              if negb (fold_left
                         (fun acc v => acc && negb (isNaN (ToNumber host (VStr v))))
                         values true)
              then flag_malformed else Ok st
            else
              if isNaN (ToNumber host raw) then flag_malformed else Ok st
        | TDate =>
            if isNaN (Date_value host raw) then flag_malformed else Ok st
        | TBoolean =>
            if negb (includes
                       [VStr "true"; VStr "false"; VStr "0"; VStr "1";
                        VNum (Finite 0 0); VNum (Finite 1 0);
                        VBool true; VBool false] raw)
            then flag_malformed else Ok st
        | TObject =>
            match check_properties with
            | Some check_nested =>
                do payload <- JSON_parse raw;
                do nested <- check_nested name (fake_request (in_ def) payload);
                if negb (status nested) then Ok (merge st nested) else Ok st
            | None => Ok st
            end
        | TString => Ok st
        end
  end.

(** The three locations in the order [check] visits them. *)
Definition locations : list location := [Query; Path; Body].

(** Lines 143 to 147: the result built from the three lists. *)
Definition check_result (st : lists) : CheckResult :=
  let '(missing, unknown, malformed) := st in
  let missingAny := any_params missing in
  let unknownAny := any_params unknown in
  let malformedAny := any_params malformed in
  {| status := negb ((0 <? List.length missingAny)%nat
                     || (0 <? List.length unknownAny)%nat
                     || (0 <? List.length malformedAny)%nat);
     unknown := unknown;
     missing := missing;
     malformed := malformed |}.

(** [req.query || {}], [req.params || {}], [req.body || {}]: an absent
    mapping counts as an empty one. *)
Definition input_mapping (req : Request) (where' : location) : value :=
  or_else (mapping req where') empty_object.

(** Lines 69 to 71: [keysQ], [keysP], [keysB]. *)
Definition input_keys (req : Request) (where' : location) : list string :=
  Object_keys (input_mapping req where').

(** Lines 72 to 81: the three lists before the keys are visited. *)
Definition initial_lists (defs : list ParamsDefinition) (path : string)
    (req : Request) : lists :=
  let missing :=
    map (fun where' =>
           {| where_ := where';
              params_ := missing_params defs path where' (input_keys req where') |})
        locations in
  let unknown := map (fun where' => {| where_ := where'; params_ := [] |}) locations in
  let malformed := map (fun where' => {| where_ := where'; params_ := [] |}) locations in
  (missing, unknown, malformed).

(** Lines 82 to 141 for one location: every key of its mapping is visited. *)
Definition check_location (strict' : bool) (path : string) (req : Request)
    (find_def : location -> string -> option (ParamsDefinition * option checker))
    (st : lists) (where' : location) : result lists :=
  let params := input_mapping req where' in
  foldM (check_name strict' path where' params (find_def where'))
        (Object_keys params) st.

(** Lines 69 to 147 for the definitions in scope and the prefix [path]. *)
Definition check_body (strict' : bool) (defs : list ParamsDefinition)
    (path : string) (req : Request)
    (find_def : location -> string -> option (ParamsDefinition * option checker))
  : result CheckResult :=
  do st <-
    foldM (check_location strict' path req find_def) locations
          (initial_lists defs path req);
  Ok (check_result st).

(** Line 87, [definitions.filter(d => d.in === where).find(d => d.name ===
    key)], which [matches] tests in one pass. *)
Definition matches (where' : location) (key : string) (d : ParamsDefinition)
  : bool :=
  location_eqb (in_ d) where' && String.eqb (name d) key.

(** The recursive call of line 131 for the definition [def]: [check] run on
    [def.properties] with the prefix [name + '.'].  The recursion follows
    the tree of definitions. *)
Fixpoint check_properties (strict' : bool) (def : ParamsDefinition)
    {struct def} : option checker :=
  match properties def with
  | Some ps =>
      Some (fun name req =>
              check_body strict' ps (name ++ ".")%string req
                (fun where' key =>
                   find_with (matches where' key) (check_properties strict') ps))
  | None => None
  end.

(** [check] once [definitions] and [path] are known (lines 62 to 66). *)
Definition check_with (strict' : bool) (defs : list ParamsDefinition)
    (path : string) (req : Request) : result CheckResult :=
  check_body strict' defs path req
    (fun where' key =>
       find_with (matches where' key) (check_properties strict') defs).

(** Lines 62 to 65: the definitions a call validates against. *)
Definition scope (this : ParamsSanitizer) (parent : option Parent)
  : list ParamsDefinition :=
  match parent with
  | Some p => parent_def p
  | None => definitions this
  end.

(** Line 66: the prefix of the names a call reports. *)
Definition prefix (parent : option Parent) : string :=
  match parent with
  | Some p => (parent_name p ++ ".")%string
  | None => ""
  end.

(** [check(req, parent?)]. *)
Definition check (this : ParamsSanitizer) (req : Request)
    (parent : option Parent) : result CheckResult :=
  let definitions := scope this parent in
  let path := prefix parent in
  check_with (is_true (strict (options this))) definitions path req.

(** ** [values] and [parseValue]

    [parseValue] overwrites the properties of a structured value in place
    (line 199), and that value may be the caller's.  Objects being trees,
    an update in place of the object a property holds is an update of the
    object that has the property: every function below returns, with its
    outcome, the state in which it leaves the value it was given, also when
    it throws. *)

(** The state of [o] after the object its property [k] held, [old], was
    updated in place to [new]. *)
Definition write_back (o : value) (k : string) (old new : value) : value :=
  match o with
  | VObj c kvs => if is_object old then VObj c (assoc_replace k new kvs) else o
  | _ => o
  end.

(** [for (const x of xs) { body }] over the state of one object, which
    survives an exception. *)
Fixpoint for_each {X : Type} (body : X -> value -> value * result unit)
    (xs : list X) (o : value) : value * result unit :=
  match xs with
  | [] => (o, Ok tt)
  | x :: xs' =>
      match body x o with
      | (o', Ok _) => for_each body xs' o'
      | (o', Throw e) => (o', Throw e)
      end
  end.

(** [typeof v == 'string']. *)
Definition is_string (v : value) : bool :=
  match v with VStr _ => true | _ => false end.

(** Lines 198 and 199, the body of the loop over [def.properties]:
    [objValue[ddef.name] = this.parseValue(objValue[ddef.name], ddef)] on
    the object in state [o]. *)
Definition parse_property
    (parseValue : value -> ParamsDefinition -> value * result value)
    (ddef : ParamsDefinition) (o : value) : value * result unit :=
  match get_prop o (name ddef) with
  | Throw e => (o, Throw e)
  | Ok val =>
      let (val', r) := parseValue val ddef in
      let o1 := write_back o (name ddef) val val' in
      match r with
      | Throw e => (o1, Throw e)
      | Ok x =>
          match set_prop host o1 (name ddef) x with
          | Throw e => (o1, Throw e)
          | Ok o2 => (o2, Ok tt)
          end
      end
  end.

(** [parseValue(value, def)]: the state of [value] afterwards, and the
    value returned or the exception thrown. *)
Fixpoint parseValue (value' : value) (def : ParamsDefinition) {struct def}
  : value * result value :=
  if nullish value' then
    (value', Ok match default def with Some d => d | None => VUndefined end)
  else
    match type def with
    | TNumber =>
        if is_true (isArray def) then
          (value',
           do values <- call_split value' (elementsDivider def);
           Ok (mk_array (map (fun v => VNum (ToNumber host (VStr v))) values)))
        else (value', Ok (VNum (ToNumber host value')))
    | TDate => (value', Ok (new_Date host value'))
    | TBoolean =>
        if is_true (isArray def) then
          (value',
           do values <- call_split value' (elementsDivider def);
           Ok (mk_array
                 (map (fun v => VBool (includes
                                         [VStr "true"; VNum (Finite 1 0); VStr "1"]
                                         (VStr v)))
                      values)))
        else
          (value',
           Ok (VBool (includes
                        [VBool true; VStr "true"; VNum (Finite 1 0); VStr "1"]
                        value')))
    | TObject =>
        match (if is_string value' then JSON_parse value' else Ok value') with
        | Throw e => (value', Throw e)
        | Ok objValue =>
            let (objValue', r) :=
              match properties def with
              | Some ps => for_each (parse_property parseValue) ps objValue
              | None => (objValue, Ok tt)
              end in
            (if is_string value' then value' else objValue',
             do _ <- r; Ok objValue')
        end
    | TString =>
        if is_true (isArray def) then
          (value',
           do values <- call_split value' (elementsDivider def);
           Ok (mk_array (map VStr values)))
        else (value', Ok value')
    end.

(** [req.query = p], [req.params = p] or [req.body = p]: the state of the
    request after the mapping of a location was updated in place. *)
Definition with_mapping (req : Request) (where' : location) (p : value)
  : Request :=
  match where' with
  | Query => {| query := p; params := params req; body := body req; path := path req |}
  | Path => {| query := query req; params := p; body := body req; path := path req |}
  | Body => {| query := query req; params := params req; body := p; path := path req |}
  end.

(** [obj[where]]. *)
Definition values_in (obj : ValueResult) (where' : location) : props :=
  match where' with
  | Query => query_values obj
  | Path => path_values obj
  | Body => body_values obj
  end.

(** [obj[where][k] = v]. *)
Definition set_value (obj : ValueResult) (where' : location) (k : string)
    (v : value) : ValueResult :=
  match where' with
  | Query => {| query_values := assoc_set k v (query_values obj);
                path_values := path_values obj; body_values := body_values obj |}
  | Path => {| query_values := query_values obj;
               path_values := assoc_set k v (path_values obj);
               body_values := body_values obj |}
  | Body => {| query_values := query_values obj; path_values := path_values obj;
               body_values := assoc_set k v (body_values obj) |}
  end.

(** Lines 157 to 167, the callback run on every definition, over the state
    of the request and the result under construction. *)
Definition values_def (def : ParamsDefinition) (st : Request * ValueResult)
  : Request * result ValueResult :=
  let (req, obj) := st in
  let p := mapping req (in_ def) in
  match get_prop p (name def) with
  | Throw e => (req, Throw e)
  | Ok raw =>
      let (raw', r) := parseValue raw def in
      let req' := with_mapping req (in_ def) (write_back p (name def) raw raw') in
      match r with
      | Throw e => (req', Throw e)
      | Ok value' =>
          (req',
           Ok (if negb (nullish value')
               then set_value obj (in_ def) (name def) value'
               else obj))
      end
  end.

Fixpoint values_loop (defs : list ParamsDefinition) (st : Request * ValueResult)
  : Request * result ValueResult :=
  match defs with
  | [] => (fst st, Ok (snd st))
  | def :: defs' =>
      match values_def def st with
      | (req', Ok obj') => values_loop defs' (req', obj')
      | (req', Throw e) => (req', Throw e)
      end
  end.

(** [values(req)]: the state of the caller's request afterwards, and the
    result or the exception. *)
Definition values (this : ParamsSanitizer) (req : Request)
  : Request * result ValueResult :=
  let obj := {| query_values := []; path_values := []; body_values := [] |} in
  values_loop (definitions this) (req, obj).

End Sanitizer.

(** ** Example schemas and requests *)

(** An object literal [{ name, type, in }] of a schema. *)
Definition param (n : string) (t : ptype) (w : location) : ParamsDefinition :=
  {| name := n; type := t; isArray := None; elementsDivider := None;
     default := None; required := None; in_ := w; properties := None |}.

(** The same literal with [required: true]. *)
Definition required_param (n : string) (t : ptype) (w : location)
  : ParamsDefinition :=
  {| name := n; type := t; isArray := None; elementsDivider := None;
     default := None; required := Some true; in_ := w; properties := None |}.

(** [{ name, type: 'object', in, properties }]. *)
Definition object_param (n : string) (w : location)
    (ps : list ParamsDefinition) : ParamsDefinition :=
  {| name := n; type := TObject; isArray := None; elementsDivider := None;
     default := None; required := None; in_ := w; properties := Some ps |}.

(** A request with the three mappings given by their properties. *)
Definition request (q p b : props) : Request :=
  {| query := VObj CObject q; params := VObj CObject p; body := VObj CObject b;
     path := VUndefined |}.

(** The text [s] between double quotes. *)
Definition quoted (s : string) : string :=
  String dquote (s ++ String dquote "")%string.

(** The JSON text [{"k":"v"}]. *)
Definition json_pair (k v : string) : string :=
  ("{" ++ quoted k ++ ":" ++ quoted v ++ "}")%string.

Definition no_options : ParamsSanitizerOptions := {| strict := None |}.
Definition strict_options : ParamsSanitizerOptions := {| strict := Some true |}.

(** The entries of a classification list that hold a name. *)
Definition named_entries (l : list entry) : list entry :=
  filter (fun e => match params_ e with [] => false | _ => true end) l.

(** The schema of the README: [p1] required, [p2] a number. *)
Definition readme_sanitizer (opts : ParamsSanitizerOptions) : ParamsSanitizer :=
  new_ParamsSanitizer
    [required_param "p1" TString Query; param "p2" TNumber Query] opts.

(** Three levels of nesting: [grandparent.parent.child], [child] required. *)
Definition deep_sanitizer : ParamsSanitizer :=
  new_ParamsSanitizer
    [object_param "grandparent" Query
       [object_param "parent" Query [required_param "child" TString Query]]]
    no_options.

(** [?grandparent={"parent":"{}"}]: the payload of [parent] has no [child]. *)
Definition deep_request : Request :=
  request [("grandparent", VStr (json_pair "parent" "{}"))] [] [].

(** An object [o] with a required number [c] looked up in the query, once
    as a query field and once as a body field. *)
Definition twin_sanitizer : ParamsSanitizer :=
  new_ParamsSanitizer
    [object_param "o" Query [required_param "c" TNumber Query];
     object_param "o" Body [required_param "c" TNumber Query]]
    no_options.

Definition twin_request : Request :=
  request [("o", VStr (json_pair "c" "abc"))] [] [("o", VStr (json_pair "c" "1"))].

(** An object [o] with a required property [c], and a request with a key
    spelled [o.c]. *)
Definition dotted_sanitizer : ParamsSanitizer :=
  new_ParamsSanitizer
    [object_param "o" Query [required_param "c" TString Query]] no_options.

Definition dotted_request : Request :=
  request [("o.c", VStr "zzz"); ("o", VStr "{}")] [] [].

(** The same object [o], and a boolean field spelled [o.c]. *)
Definition dotted_boolean_sanitizer : ParamsSanitizer :=
  new_ParamsSanitizer
    [object_param "o" Query [required_param "c" TString Query];
     param "o.c" TBoolean Query]
    no_options.

Definition dotted_boolean_request : Request :=
  request [("o", VStr "{}"); ("o.c", VStr "maybe")] [] [].

(** A body field [o] with a numeric property [a], sent as parsed JSON. *)
Definition body_sanitizer : ParamsSanitizer :=
  new_ParamsSanitizer [object_param "o" Body [param "a" TNumber Body]] no_options.

Definition body_request : Request :=
  request [] [] [("o", VObj CObject [("a", VStr "1")])].

(** A boolean [flag] with [default: false] and a boolean [x]. *)
Definition flag_param : ParamsDefinition :=
  {| name := "flag"; type := TBoolean; isArray := None;
     elementsDivider := None; default := Some (VBool false);
     required := None; in_ := Query; properties := None |}.

Definition flag_data : list ParamsDefinition :=
  [flag_param; param "x" TBoolean Query].

Definition flag_sanitizer : ParamsSanitizer :=
  new_ParamsSanitizer flag_data no_options.

(** A boolean [flag] looked up in the body. *)
Definition body_flag_sanitizer : ParamsSanitizer :=
  new_ParamsSanitizer [param "flag" TBoolean Body] no_options.



(** An object [o] in the body whose property [ids], a list of numbers, is
    declared twice. *)
Definition repeated_sanitizer : ParamsSanitizer :=
  new_ParamsSanitizer
    [object_param "o" Body
       [{| name := "ids"; type := TNumber; isArray := Some true;
           elementsDivider := Some ","; default := None; required := None;
           in_ := Body; properties := None |};
        {| name := "ids"; type := TNumber; isArray := Some true;
           elementsDivider := Some ","; default := None; required := None;
           in_ := Body; properties := None |}]]
    no_options.

Definition repeated_request : Request :=
  request [] [] [("o", VStr (json_pair "ids" "1,2"))].

(** A request without body, as Express hands it over when no body parser
    ran. *)
Definition bodyless_request : Request :=
  {| query := VObj CObject []; params := VObj CObject [];
     body := VUndefined; path := VUndefined |}.

(** A list [name] of type [t], cut at [divider]. *)
Definition list_param (n : string) (t : ptype) (w : location)
    (divider : option string) : ParamsDefinition :=
  {| name := n; type := t; isArray := Some true; elementsDivider := divider;
     default := None; required := None; in_ := w; properties := None |}.

(** A query with a number [n], a list of numbers [ids] cut at [|], a date
    [when], a boolean [flag] and a list of strings [tags]. *)
Definition typed_data : list ParamsDefinition :=
  [param "n" TNumber Query;
   list_param "ids" TNumber Query (Some "|");
   param "when" TDate Query;
   param "flag" TBoolean Query;
   list_param "tags" TString Query None].

Definition typed_sanitizer : ParamsSanitizer :=
  new_ParamsSanitizer typed_data no_options.

(** [?n=4&ids=1|2|3&when=2020-01-02&flag=1&tags=a,b]. *)
Definition typed_request : Request :=
  request [("n", VStr "4"); ("ids", VStr "1|2|3"); ("when", VStr "2020-01-02");
           ("flag", VStr "1"); ("tags", VStr "a,b")] [] [].

(** [?n=abc&ids=1|2|x&when=never&flag=true,false&tags=]. *)
Definition untyped_request : Request :=
  request [("n", VStr "abc"); ("ids", VStr "1|2|x"); ("when", VStr "never");
           ("flag", VStr "true,false"); ("tags", VStr "")] [] [].

(** An object [o] with a required property [c], and an object field
    spelled [o.c]; a query whose [o] lacks [c] and whose [o.c] arrives
    structured. *)
Definition skipped_sanitizer : ParamsSanitizer :=
  new_ParamsSanitizer
    [object_param "o" Query [required_param "c" TString Query];
     object_param "o.c" Query [param "x" TString Query]]
    no_options.

Definition skipped_request : Request :=
  request [("o", VStr "{}"); ("o.c", VObj CObject [])] [] [].

(** The same query with a list of numbers under [o.c]. *)
Definition skipped_list_sanitizer : ParamsSanitizer :=
  new_ParamsSanitizer
    [object_param "o" Query [required_param "c" TString Query];
     list_param "o.c" TNumber Query None]
    no_options.

Definition skipped_list_request : Request :=
  request [("o", VStr "{}"); ("o.c", mk_array [VNum (Finite 1 0)])] [] [].

(** * Vocabulary of the properties *)

(** The names the list [l] holds for a location in the entry every push of
    [check] goes to, [l.find(e => e.where === where)]: the entry the call
    itself created for that location. *)
Definition params_at (l : list entry) (where' : location) : list string :=
  match find (fun u => location_eqb (where_ u) where') l with
  | Some u => params_ u
  | None => []
  end.

(** [x] stands in some entry of [l] for the location, the call's own or one
    merged from a nested call. *)
Definition recorded (l : list entry) (where' : location) (x : string) : Prop :=
  exists e, In e l /\ where_ e = where' /\ In x (params_ e).

(** [l] has an entry for every location. *)
Definition covers (l : list entry) : Prop :=
  forall where', exists u, find (fun u => location_eqb (where_ u) where') l = Some u.

Definition missing_of (st : lists) : list entry := fst (fst st).
Definition unknown_of (st : lists) : list entry := snd (fst st).
Definition malformed_of (st : lists) : list entry := snd st.

Definition covers3 (st : lists) : Prop :=
  covers (missing_of st) /\ covers (unknown_of st) /\ covers (malformed_of st).

(** How the three lists change while the keys are visited: a name is pushed
    on [unknown], a name that is not flagged missing is pushed on
    [malformed], or the lists of a nested result are appended.  [PU] and
    [PM] say which names are pushed, and for which location. *)
Inductive grow (PU PM : location -> string -> Prop) : lists -> lists -> Prop :=
| grow_refl : forall st, grow PU PM st st
| grow_unknown : forall mi un ma w q,
    PU w q -> grow PU PM (mi, un, ma) (mi, push_at w q un, ma)
| grow_malformed : forall mi un ma w q,
    PM w q -> flagged_missing mi w q = false ->
    grow PU PM (mi, un, ma) (mi, un, push_at w q ma)
| grow_merge : forall st nested, grow PU PM st (merge st nested)
| grow_trans : forall st1 st2 st3,
    grow PU PM st1 st2 -> grow PU PM st2 st3 -> grow PU PM st1 st3.

(** What the call pushes on its own entry of [malformed] is never a name of
    its own entry of [missing] for the same location. *)
Definition own_disjoint (st : lists) : Prop :=
  forall w x,
    In x (params_at (missing_of st) w) -> ~ In x (params_at (malformed_of st) w).

(** The definition line 87 finds for a key, with the recursive call on its
    properties. *)
Definition found (host : Host) (this : ParamsSanitizer) (parent : option Parent)
    (where' : location) (key : string)
  : option (ParamsDefinition * option checker) :=
  find_with (matches where' key)
    (check_properties host (is_true (strict (options this))))
    (scope this parent).

(** The names line 90 pushes on [unknown] for a location: in strict mode,
    the qualified keys of its mapping that have no definition. *)
Definition unknown_push (strict' : bool) (path : string) (req : Request)
    (find_def : location -> string -> option (ParamsDefinition * option checker))
    (w : location) (q : string) : Prop :=
  strict' = true
  /\ exists key,
       In key (input_keys req w) /\ find_def w key = None
       /\ q = (path ++ key)%string.

(** The names lines 103 to 122 push on [malformed] for a location: qualified
    keys of its mapping that have a definition. *)
Definition malformed_push (path : string) (req : Request)
    (find_def : location -> string -> option (ParamsDefinition * option checker))
    (w : location) (q : string) : Prop :=
  exists key def c,
    In key (input_keys req w) /\ find_def w key = Some (def, c)
    /\ q = (path ++ key)%string.

(** The canonical representations of a boolean, line 121. *)
Definition canonical_booleans : list value :=
  [VStr "true"; VStr "false"; VStr "0"; VStr "1";
   VNum (Finite 0 0); VNum (Finite 1 0); VBool true; VBool false].

(** [delete v[k]]. *)
Definition remove_key (k : string) (v : value) : value :=
  match v with
  | VObj c kvs => VObj c (filter (fun kv => negb (String.eqb k (fst kv))) kvs)
  | _ => v
  end.

(** [def.default], [undefined] when the member is absent. *)
Definition default_of (def : ParamsDefinition) : value :=
  match default def with
  | Some d => d
  | None => VUndefined
  end.


(** [req[where]]: the member of a request that a location names, which for
    ['path'] is [req.path] and not the [req.params] that [check] reads. *)
Definition member (req : Request) (where' : location) : value :=
  match where' with
  | Query => query req
  | Path => path req
  | Body => body req
  end.








(** The three entries a classification list starts with, before a name is
    pushed: lines 80 and 81. *)
Definition no_names : list entry :=
  map (fun where' => {| where_ := where'; params_ := [] |}) locations.

(** [n] times the sequence query, path, body. *)
Fixpoint triples (n : nat) : list location :=
  match n with
  | O => []
  | S n' => locations ++ triples n'
  end.

(** Line 102: [values.reduce((acc, v) => acc && !isNaN(+v), true)]. *)
Definition all_numbers (host : Host) (values : list string) : bool :=
  fold_left (fun acc v => acc && negb (isNaN (ToNumber host (VStr v)))) values true.

(** Lines 99 to 125 read as a predicate: the value [raw] fails the rule of
    the type of [def].  Text and objects have no rule. *)
Definition ill_formed (host : Host) (def : ParamsDefinition) (raw : value)
  : Prop :=
  match type def with
  | TNumber =>
      if is_true (isArray def) then
        exists values,
          call_split raw (elementsDivider def) = Ok values
          /\ all_numbers host values = false
      else isNaN (ToNumber host raw) = true
  | TDate => isNaN (Date_value host raw) = true
  | TBoolean => includes canonical_booleans raw = false
  | TObject | TString => False
  end.

(** The names lines 103 to 122 push on [malformed] for a location: the
    qualified keys of its mapping whose value fails the rule of the type
    of their definition. *)
Definition ill_formed_push (host : Host) (path : string) (req : Request)
    (find_def : location -> string -> option (ParamsDefinition * option checker))
    (w : location) (q : string) : Prop :=
  exists key def c raw,
    In key (input_keys req w) /\ find_def w key = Some (def, c)
    /\ q = (path ++ key)%string
    /\ get_prop (input_mapping req w) key = Ok raw
    /\ ill_formed host def raw.

(** Some entry of the list holds a name. *)
Definition some_name (l : list entry) : Prop :=
  exists e, In e l /\ params_ e <> [].

(** Some entry of one of the three lists holds a name. *)
Definition some_name3 (st : lists) : Prop :=
  some_name (missing_of st) \/ some_name (unknown_of st)
  \/ some_name (malformed_of st).

(** The three lists as a call creates them: one entry for query, path and
    body each, and nothing merged. *)
Definition as_created (st : lists) : Prop :=
  map where_ (missing_of st) = locations
  /\ map where_ (unknown_of st) = locations
  /\ map where_ (malformed_of st) = locations.

Ltac step_ok :=
  repeat match goal with
    | H : Ok _ = Ok _ |- _ => inversion H; subst; clear H
    | H : Throw _ = Ok _ |- _ => discriminate H
    | H : bind ?r _ = Ok _ |- _ =>
        let E := fresh "E" in destruct r eqn:E; simpl in H
    | H : (if ?b then _ else _) = Ok _ |- _ =>
        let E := fresh "E" in destruct b eqn:E
    end.



(** * Properties *)

(** ** Classification lists *)

Lemma location_eqb_eq (a b : location) : location_eqb a b = true <-> a = b.
Proof. destruct a, b; simpl; split; congruence. Qed.

Lemma location_eqb_refl (a : location) : location_eqb a a = true.
Proof. now destruct a. Qed.

Lemma find_app {A : Type} (p : A -> bool) (l t : list A) :
  find p (l ++ t) = match find p l with Some x => Some x | None => find p t end.
Proof.
  induction l as [|a l IH]; simpl; [reflexivity|].
  now destruct (p a).
Qed.

Lemma covers_app (l t : list entry) : covers l -> covers (l ++ t).
Proof.
  intros H w. destruct (H w) as [u Hu]. exists u.
  now rewrite find_app, Hu.
Qed.

Lemma params_at_app (l t : list entry) (w : location) :
  covers l -> params_at (l ++ t) w = params_at l w.
Proof.
  intros H. unfold params_at. destruct (H w) as [u Hu].
  now rewrite find_app, Hu.
Qed.

Lemma find_push_at (w : location) (q : string) (l : list entry) (w' : location) :
  find (fun u => location_eqb (where_ u) w') (push_at w q l) =
  match find (fun u => location_eqb (where_ u) w') l with
  | Some u =>
      if location_eqb w' w
      then Some {| where_ := where_ u; params_ := params_ u ++ [q] |}
      else Some u
  | None => None
  end.
Proof.
  induction l as [|u l IH]; simpl; [reflexivity|].
  destruct (location_eqb (where_ u) w) eqn:Euw; simpl.
  - destruct (location_eqb (where_ u) w') eqn:Euw'.
    + apply location_eqb_eq in Euw, Euw'. subst.
      now rewrite location_eqb_refl.
    + destruct (find _ l) as [v|]; [|reflexivity].
      destruct (location_eqb w' w) eqn:E; [|reflexivity].
      apply location_eqb_eq in Euw, E. subst.
      now rewrite location_eqb_refl in Euw'.
  - destruct (location_eqb (where_ u) w') eqn:Euw'; [|exact IH].
    destruct (location_eqb w' w) eqn:E; [|reflexivity].
    apply location_eqb_eq in Euw', E. subst.
    now rewrite location_eqb_refl in Euw.
Qed.

Lemma covers_push_at (w : location) (q : string) (l : list entry) :
  covers l -> covers (push_at w q l).
Proof.
  intros H w'. destruct (H w') as [u Hu].
  rewrite find_push_at, Hu. destruct (location_eqb w' w); eauto.
Qed.

Lemma params_at_push_at (w : location) (q : string) (l : list entry)
    (w' : location) :
  covers l ->
  params_at (push_at w q l) w' =
  if location_eqb w' w then params_at l w' ++ [q] else params_at l w'.
Proof.
  intros H. unfold params_at. destruct (H w') as [u Hu].
  rewrite find_push_at, Hu. now destruct (location_eqb w' w).
Qed.

Lemma includes_text_In (l : list string) (x : string) :
  includes_text l x = true <-> In x l.
Proof.
  unfold includes_text. rewrite existsb_exists. split.
  - intros (y & Hy & E). apply String.eqb_eq in E. now subst.
  - intros H. exists x. split; [assumption|apply String.eqb_refl].
Qed.

Lemma flagged_missing_app (l t : list entry) (w : location) (x : string) :
  flagged_missing (l ++ t) w x = flagged_missing l w x || flagged_missing t w x.
Proof. unfold flagged_missing. apply existsb_app. Qed.

(** Line 95 looks through every entry of [missing], merged ones included. *)
Lemma flagged_missing_recorded (l : list entry) (w : location) (x : string) :
  flagged_missing l w x = true <-> recorded l w x.
Proof.
  unfold flagged_missing, recorded. rewrite existsb_exists. split.
  - intros (e & He & H). apply andb_prop in H as [H1 H2].
    apply location_eqb_eq in H1. apply includes_text_In in H2. eauto.
  - intros (e & He & H1 & H2). exists e. split; [assumption|].
    apply andb_true_intro. split.
    + now apply location_eqb_eq.
    + now apply includes_text_In.
Qed.

(** A name in the call's own entry is a recorded name. *)
Lemma params_at_recorded (l : list entry) (w : location) (x : string) :
  In x (params_at l w) -> recorded l w x.
Proof.
  unfold params_at, recorded.
  destruct (find _ l) as [u|] eqn:E; [|contradiction].
  apply find_some in E as [Hin Hw]. apply location_eqb_eq in Hw. eauto.
Qed.

(** ** Growth of the lists *)

Section Grow.

Variables PU PM : location -> string -> Prop.

Lemma grow_covers3 (st st' : lists) :
  grow PU PM st st' -> covers3 st -> covers3 st'.
Proof.
  induction 1 as [st|mi un ma w q P|mi un ma w q P F|[[mi un] ma] nested|]; auto.
  - intros (Hm & Hu & Ha). repeat split; auto. now apply covers_push_at.
  - intros (Hm & Hu & Ha). repeat split; auto. now apply covers_push_at.
  - intros (Hm & Hu & Ha). repeat split; now apply covers_app.
Qed.

(** The entries [check] creates for [missing] are final: nothing is pushed
    on them, and merged entries come after. *)
Lemma grow_missing (st st' : lists) (w : location) :
  grow PU PM st st' -> covers3 st ->
  params_at (missing_of st') w = params_at (missing_of st) w.
Proof.
  induction 1 as [st|mi un ma w' q P|mi un ma w' q P F|[[mi un] ma] nested
                  |st1 st2 st3 H12 IH12 H23 IH23]; intros Hc; auto.
  - apply params_at_app, Hc.
  - rewrite IH23, IH12; auto. now apply (grow_covers3 st1).
Qed.

Lemma grow_unknown_mono (st st' : lists) (w : location) (x : string) :
  grow PU PM st st' -> covers3 st ->
  In x (params_at (unknown_of st) w) -> In x (params_at (unknown_of st') w).
Proof.
  induction 1 as [st|mi un ma w' q P|mi un ma w' q P F|[[mi un] ma] nested
                  |st1 st2 st3 H12 IH12 H23 IH23]; intros Hc Hx; auto.
  - cbn in *. destruct Hc as (_ & Hu & _).
    rewrite params_at_push_at by assumption.
    destruct (location_eqb w w'); [apply in_or_app|]; auto.
  - cbn in *. destruct Hc as (_ & Hu & _). now rewrite params_at_app.
  - apply IH23; [now apply (grow_covers3 st1)|]. now apply IH12.
Qed.

Lemma grow_malformed_mono (st st' : lists) (w : location) (x : string) :
  grow PU PM st st' -> covers3 st ->
  In x (params_at (malformed_of st) w) -> In x (params_at (malformed_of st') w).
Proof.
  induction 1 as [st|mi un ma w' q P|mi un ma w' q P F|[[mi un] ma] nested
                  |st1 st2 st3 H12 IH12 H23 IH23]; intros Hc Hx; auto.
  - cbn in *. destruct Hc as (_ & _ & Ha).
    rewrite params_at_push_at by assumption.
    destruct (location_eqb w w'); [apply in_or_app|]; auto.
  - cbn in *. destruct Hc as (_ & _ & Ha). now rewrite params_at_app.
  - apply IH23; [now apply (grow_covers3 st1)|]. now apply IH12.
Qed.

(** A name in the call's own entry of [unknown] was there before or was
    pushed. *)
Lemma grow_unknown_names (st st' : lists) (w : location) (x : string) :
  grow PU PM st st' -> covers3 st ->
  In x (params_at (unknown_of st') w) ->
  In x (params_at (unknown_of st) w) \/ PU w x.
Proof.
  induction 1 as [st|mi un ma w' q P|mi un ma w' q P F|[[mi un] ma] nested
                  |st1 st2 st3 H12 IH12 H23 IH23]; intros Hc Hx; auto.
  - cbn [unknown_of fst snd] in *. destruct Hc as (_ & Hu & _).
    rewrite params_at_push_at in Hx by assumption.
    destruct (location_eqb w w') eqn:E; [|now left].
    apply location_eqb_eq in E. subst w'.
    apply in_app_or in Hx as [Hx|[<-|[]]]; auto.
  - cbn [unknown_of merge fst snd] in *. destruct Hc as (_ & Hu & _).
    rewrite params_at_app in Hx by assumption. now left.
  - destruct (IH23 (grow_covers3 _ _ H12 Hc) Hx) as [Hx'|Hx']; auto.
Qed.

Lemma grow_malformed_names (st st' : lists) (w : location) (x : string) :
  grow PU PM st st' -> covers3 st ->
  In x (params_at (malformed_of st') w) ->
  In x (params_at (malformed_of st) w) \/ PM w x.
Proof.
  induction 1 as [st|mi un ma w' q P|mi un ma w' q P F|[[mi un] ma] nested
                  |st1 st2 st3 H12 IH12 H23 IH23]; intros Hc Hx; auto.
  - cbn [malformed_of fst snd] in *. destruct Hc as (_ & _ & Ha).
    rewrite params_at_push_at in Hx by assumption.
    destruct (location_eqb w w') eqn:E; [|now left].
    apply location_eqb_eq in E. subst w'.
    apply in_app_or in Hx as [Hx|[<-|[]]]; auto.
  - cbn [malformed_of merge fst snd] in *. destruct Hc as (_ & _ & Ha).
    rewrite params_at_app in Hx by assumption. now left.
  - destruct (IH23 (grow_covers3 _ _ H12 Hc) Hx) as [Hx'|Hx']; auto.
Qed.

(** Once a name is flagged missing it stays so. *)
Lemma grow_flagged (st st' : lists) (w : location) (x : string) :
  grow PU PM st st' ->
  flagged_missing (missing_of st) w x = true ->
  flagged_missing (missing_of st') w x = true.
Proof.
  induction 1 as [st|mi un ma w' q P|mi un ma w' q P F|[[mi un] ma] nested|]; auto.
  cbn [missing_of merge fst]. intros H. rewrite flagged_missing_app, H. reflexivity.
Qed.

Lemma grow_own_disjoint (st st' : lists) :
  grow PU PM st st' -> covers3 st -> own_disjoint st -> own_disjoint st'.
Proof.
  induction 1 as [st|mi un ma w' q P|mi un ma w' q P F|[[mi un] ma] nested
                  |st1 st2 st3 H12 IH12 H23 IH23]; intros Hc Hd; auto.
  - intros w x Hmi Hma. cbn [missing_of malformed_of fst snd] in *.
    destruct Hc as (_ & _ & Ha). rewrite params_at_push_at in Hma by assumption.
    destruct (location_eqb w w') eqn:E.
    + apply location_eqb_eq in E. subst w'.
      apply in_app_or in Hma as [Hma|[<-|[]]].
      * now apply (Hd w x).
      * apply params_at_recorded, flagged_missing_recorded in Hmi. congruence.
    + now apply (Hd w x).
  - intros w x. cbn [missing_of malformed_of merge fst snd].
    destruct Hc as (Hm & _ & Ha). rewrite !params_at_app by assumption.
    apply Hd.
  - apply IH23; [now apply (grow_covers3 st1)|]. now apply IH12.
Qed.

End Grow.

Lemma grow_weaken (PU PM PU' PM' : location -> string -> Prop) (st st' : lists) :
  (forall w q, PU w q -> PU' w q) ->
  (forall w q, PM w q -> PM' w q) ->
  grow PU PM st st' -> grow PU' PM' st st'.
Proof.
  intros HU HM. induction 1; eauto using grow.
Qed.

(** ** Loops that may throw *)

Section FoldM.

Context {S X : Type}.
Variable f : S -> X -> result S.

(** An invariant of the body is an invariant of the loop. *)
Lemma foldM_inv (P : S -> Prop) (xs : list X) :
  (forall s x s', In x xs -> P s -> f s x = Ok s' -> P s') ->
  forall s s', P s -> foldM f xs s = Ok s' -> P s'.
Proof.
  induction xs as [|x xs IH]; simpl; intros Hstep s s' Hs H.
  - now inversion H; subst.
  - destruct (f s x) as [s1|e] eqn:E; simpl in H; [|discriminate].
    apply (IH (fun s0 y s0' Hy => Hstep s0 y s0' (or_intror Hy)) s1); eauto.
Qed.


(** A loop skips what its body ignores. *)
Lemma foldM_filter (g : S -> X -> result S) (p : X -> bool) (xs : list X) :
  (forall s x, p x = false -> f s x = Ok s) ->
  (forall s x, p x = true -> g s x = f s x) ->
  forall s, foldM g (filter p xs) s = foldM f xs s.
Proof.
  intros Hskip Hsame. induction xs as [|x xs IH]; simpl; intros s; [reflexivity|].
  destruct (p x) eqn:E; simpl.
  - rewrite (Hsame s x E). destruct (f s x); simpl; auto.
  - rewrite (Hskip s x E). simpl. apply IH.
Qed.

Lemma foldM_ext (g : S -> X -> result S) (xs : list X) :
  (forall s x, In x xs -> g s x = f s x) ->
  forall s, foldM g xs s = foldM f xs s.
Proof.
  induction xs as [|x xs IH]; simpl; intros H s; [reflexivity|].
  rewrite (H s x (or_introl eq_refl)). destruct (f s x); simpl; auto.
Qed.

Variable R : S -> S -> Prop.
Hypothesis R_refl : forall s, R s s.
Hypothesis R_trans : forall s1 s2 s3, R s1 s2 -> R s2 s3 -> R s1 s3.

(** A preorder the body respects relates the two ends of the loop. *)
Lemma foldM_rel (xs : list X) :
  (forall s x s', In x xs -> f s x = Ok s' -> R s s') ->
  forall s s', foldM f xs s = Ok s' -> R s s'.
Proof.
  induction xs as [|x xs IH]; simpl; intros Hstep s s' H.
  - inversion H; subst; auto.
  - destruct (f s x) as [s1|e] eqn:E; simpl in H; [|discriminate].
    apply R_trans with s1; [now apply (Hstep s x); auto|].
    apply IH; [|assumption]. intros s0 y s0' Hy. apply Hstep. now right.
Qed.

(** A loop that ends has run its body on every element. *)
Lemma foldM_visit (xs : list X) (x : X) :
  (forall s y s', In y xs -> f s y = Ok s' -> R s s') ->
  In x xs ->
  forall s s', foldM f xs s = Ok s' ->
  exists s1 s2, R s s1 /\ f s1 x = Ok s2 /\ R s2 s'.
Proof.
  induction xs as [|y xs IH]; simpl; intros Hstep Hin s s' H; [contradiction|].
  destruct (f s y) as [s1|e] eqn:E; simpl in H; [|discriminate].
  assert (Hrest : forall s0 z s0', In z xs -> f s0 z = Ok s0' -> R s0 s0').
  { intros s0 z s0' Hz. apply Hstep. now right. }
  destruct Hin as [->|Hin].
  - exists s, s1. repeat split; auto. now apply (foldM_rel xs Hrest).
  - destruct (IH Hrest Hin s1 s' H) as (t1 & t2 & H1 & H2 & H3).
    exists t1, t2. repeat split; auto.
    apply R_trans with s1; [|assumption]. apply (Hstep s y); auto.
Qed.

End FoldM.

(** ** What one call of [check] does to the lists *)

Lemma find_with_none {A B : Type} (p : A -> bool) (f : A -> B) (l : list A) :
  (forall a, In a l -> p a = false) -> find_with p f l = None.
Proof.
  induction l as [|a l IH]; simpl; intros H; [reflexivity|].
  rewrite (H a (or_introl eq_refl)). apply IH. intros b Hb. apply H. now right.
Qed.

Lemma find_with_some {A B : Type} (p : A -> bool) (f : A -> B) (l : list A)
    (a : A) (b : B) :
  find_with p f l = Some (a, b) -> In a l /\ p a = true /\ b = f a.
Proof.
  induction l as [|x l IH]; simpl; [discriminate|].
  destruct (p x) eqn:E.
  - intros H. inversion H; subst. auto.
  - intros H. destruct (IH H) as (? & ? & ?). auto.
Qed.

(** Line 87 as it is written: the definitions of the location are filtered
    first, and the first of them with the name is taken. *)
Lemma find_with_filter_find {B : Type} (f : ParamsDefinition -> B)
    (defs : list ParamsDefinition) (w : location) (key : string) :
  option_map fst (find_with (matches w key) f defs) =
  find (fun d => String.eqb (name d) key)
       (filter (fun d => location_eqb (in_ d) w) defs).
Proof.
  induction defs as [|d defs IH]; simpl; [reflexivity|].
  unfold matches at 1. destruct (location_eqb (in_ d) w); simpl; [|exact IH].
  destruct (String.eqb (name d) key); [reflexivity|exact IH].
Qed.

Lemma matches_spec (w : location) (key : string) (d : ParamsDefinition) :
  matches w key d = true <-> in_ d = w /\ name d = key.
Proof.
  unfold matches. rewrite andb_true_iff, location_eqb_eq, String.eqb_eq.
  reflexivity.
Qed.

Section CheckSteps.

Variable host : Host.
Variable strict' : bool.
Variable path : string.
Variable req : Request.
Variable find_def :
  location -> string -> option (ParamsDefinition * option checker).

Local Abbreviation pushed_unknown := (unknown_push strict' path req find_def).
Local Abbreviation pushed_malformed := (malformed_push path req find_def).

Lemma check_name_grow (w : location) (params : value) (st st' : lists)
    (key : string) :
  In key (input_keys req w) ->
  check_name host strict' path w params (find_def w) st key = Ok st' ->
  grow pushed_unknown pushed_malformed st st'.
Proof.
  intros Hk. unfold check_name. destruct st as [[mi un] ma].
  destruct (find_def w key) as [[def nested]|] eqn:F; intros H.
  - assert (PM : pushed_malformed w (path ++ key)%string).
    { exists key, def, nested. auto. }
    destruct (flagged_missing mi w (path ++ key)) eqn:Fl;
      [step_ok; apply grow_refl|].
    destruct (get_prop params key) as [raw|]; simpl in H; [|discriminate].
    destruct (type def); [| |destruct nested as [check_nested|]| |];
      step_ok;
      first [ apply grow_refl
            | apply grow_malformed; assumption
            | apply (grow_merge _ _ (mi, un, ma)) ].
  - destruct strict' eqn:Es; step_ok; [|apply grow_refl].
    apply grow_unknown. split; [reflexivity|]. exists key. auto.
Qed.

Lemma check_location_grow (st st' : lists) (w : location) :
  check_location host strict' path req find_def st w = Ok st' ->
  grow pushed_unknown pushed_malformed st st'.
Proof.
  unfold check_location. apply foldM_rel.
  - apply grow_refl.
  - apply grow_trans.
  - intros s key s' Hk. now apply check_name_grow.
Qed.

Lemma covers3_initial (defs : list ParamsDefinition) :
  covers3 (initial_lists defs path req).
Proof.
  repeat split; intros w; destruct w; cbn; eauto.
Qed.

Lemma missing_initial (defs : list ParamsDefinition) (w : location) :
  params_at (missing_of (initial_lists defs path req)) w =
  missing_params defs path w (input_keys req w).
Proof. now destruct w. Qed.

Lemma unknown_initial (defs : list ParamsDefinition) (w : location) :
  params_at (unknown_of (initial_lists defs path req)) w = [].
Proof. now destruct w. Qed.

Lemma malformed_initial (defs : list ParamsDefinition) (w : location) :
  params_at (malformed_of (initial_lists defs path req)) w = [].
Proof. now destruct w. Qed.

(** A call that returns has visited the three locations, starting from the
    initial lists, and reports the lists it ends with. *)
Lemma check_body_ok (defs : list ParamsDefinition) (r : CheckResult) :
  check_body host strict' defs path req find_def = Ok r ->
  exists st,
    foldM (check_location host strict' path req find_def) locations
          (initial_lists defs path req) = Ok st
    /\ r = check_result st
    /\ grow pushed_unknown pushed_malformed (initial_lists defs path req) st
    /\ covers3 st.
Proof.
  unfold check_body. intros H.
  destruct (foldM _ locations _) as [st|e] eqn:E; simpl in H; [|discriminate].
  inversion H; subst; clear H. exists st.
  assert (G : grow pushed_unknown pushed_malformed (initial_lists defs path req) st).
  { revert E. apply foldM_rel.
    - apply grow_refl.
    - apply grow_trans.
    - intros s w s' _. apply check_location_grow. }
  repeat split; auto.
  all: now apply (grow_covers3 _ _ _ _ G (covers3_initial defs)).
Qed.

(** Every key of a mapping gets its turn: between the initial lists and the
    lists of the result, the callback of lines 85 to 140 ran on it. *)
Lemma check_body_visits (defs : list ParamsDefinition) (r : CheckResult)
    (w : location) (key : string) :
  check_body host strict' defs path req find_def = Ok r ->
  In key (input_keys req w) ->
  exists st1 st2 st,
    covers3 st1
    /\ check_name host strict' path w (input_mapping req w) (find_def w) st1 key
       = Ok st2
    /\ grow pushed_unknown pushed_malformed st1 st
    /\ grow pushed_unknown pushed_malformed st2 st
    /\ covers3 st2 /\ r = check_result st.
Proof.
  intros H Hk. apply check_body_ok in H as (st & H & -> & G & Hc).
  assert (Hw : In w locations) by (destruct w; simpl; auto).
  destruct (foldM_visit _ _ (grow_refl _ _) (grow_trans _ _) locations w
              (fun s x s' _ => check_location_grow s s' x) Hw _ _ H)
    as (s1 & s2 & G1 & Hloc & G2).
  unfold check_location in Hloc.
  destruct (foldM_visit _ _ (grow_refl _ _) (grow_trans _ _) _ key
              (fun s x s' Hx => check_name_grow w _ s s' x Hx) Hk _ _ Hloc)
    as (t1 & t2 & G3 & Hkey & G4).
  pose proof (check_name_grow _ _ _ _ _ Hk Hkey) as G5.
  assert (C1 : covers3 t1).
  { apply (grow_covers3 pushed_unknown pushed_malformed
             (initial_lists defs path req)).
    - now apply grow_trans with s1.
    - apply covers3_initial. }
  assert (G6 : grow pushed_unknown pushed_malformed t2 st).
  { now apply grow_trans with s2. }
  exists t1, t2, st. split; [exact C1|]. split; [exact Hkey|].
  split; [now apply grow_trans with t2|]. split; [exact G6|].
  split; [now apply (grow_covers3 pushed_unknown pushed_malformed t1)|reflexivity].
Qed.

End CheckSteps.

Lemma check_result_missing (st : lists) : missing (check_result st) = missing_of st.
Proof. now destruct st as [[mi un] ma]. Qed.

Lemma check_result_unknown (st : lists) : unknown (check_result st) = unknown_of st.
Proof. now destruct st as [[mi un] ma]. Qed.

Lemma check_result_malformed (st : lists) :
  malformed (check_result st) = malformed_of st.
Proof. now destruct st as [[mi un] ma]. Qed.

Lemma any_params_nil (l : list entry) :
  any_params l = [] <-> (forall e, In e l -> params_ e = []).
Proof.
  unfold any_params. induction l as [|u l IH]; simpl.
  - split; [intros _ e []|reflexivity].
  - destruct (params_ u) as [|x xs] eqn:E; simpl.
    + rewrite IH. split.
      * intros H e [<-|He]; auto.
      * intros H e He. apply H. now right.
    + split; [discriminate|]. intros H.
      specialize (H u (or_introl eq_refl)). congruence.
Qed.

Lemma nonempty_length {A : Type} (l : list A) :
  (0 <? List.length l)%nat = false <-> l = [].
Proof. destruct l as [|a l]; split; (reflexivity || discriminate). Qed.

(** The verdict of lines 143 to 147. *)
Lemma check_result_status (st : lists) :
  status (check_result st) = true <->
  (forall e,
      In e (missing_of st ++ unknown_of st ++ malformed_of st) -> params_ e = []).
Proof.
  destruct st as [[mi un] ma]. cbn [check_result status missing_of unknown_of
                                     malformed_of fst snd].
  rewrite negb_true_iff, !orb_false_iff, !nonempty_length, !any_params_nil.
  split.
  - intros [[H1 H2] H3] e He.
    apply in_app_or in He as [He|He]; [now apply H1|].
    apply in_app_or in He as [He|He]; [now apply H2|now apply H3].
  - intros H. repeat split; intros e He; apply H; auto using in_or_app.
Qed.

Lemma missing_params_In (defs : list ParamsDefinition) (path : string)
    (w : location) (keys : list string) (x : string) :
  In x (missing_params defs path w keys) <->
  exists def,
    In def defs /\ in_ def = w /\ is_true (required def) = true
    /\ ~ In (name def) keys /\ x = (path ++ name def)%string.
Proof.
  unfold missing_params. rewrite in_map_iff. split.
  - intros (n & <- & Hn). apply filter_In in Hn as [Hn Hk].
    apply in_map_iff in Hn as (def & <- & Hd).
    apply filter_In in Hd as [Hd Hr]. apply filter_In in Hd as [Hd Hw].
    exists def. repeat split; auto.
    + now apply location_eqb_eq.
    + intros Hin. apply includes_text_In in Hin.
      now rewrite Hin in Hk.
  - intros (def & Hd & Hw & Hr & Hk & ->). exists (name def). split; [reflexivity|].
    apply filter_In. split.
    + apply in_map. apply filter_In. split; [|assumption].
      apply filter_In. split; [assumption|]. now apply location_eqb_eq.
    + destruct (includes_text keys (name def)) eqn:E; [|reflexivity].
      apply includes_text_In in E. contradiction.
Qed.

Lemma append_cancel (p a b : string) :
  (p ++ a)%string = (p ++ b)%string -> a = b.
Proof.
  induction p as [|c p IH]; simpl; [auto|].
  intros H. inversion H. auto.
Qed.

(** ** Removing a key from a mapping *)

Lemma array_index_canonical (k : string) (i : N) :
  array_index k = Some i -> k = string_of_N i.
Proof.
  unfold array_index. destruct (chars k); [discriminate|].
  destruct (forallb is_digit _); [|discriminate].
  destruct (String.eqb _ k && _) eqn:E; [|discriminate].
  intros H. inversion H; subst. apply andb_prop in E as [E _].
  apply String.eqb_eq in E. now symmetry.
Qed.

Lemma insert_index_least (i : N) (l : list N) :
  Forall (N.le i) l -> insert_index i l = i :: l.
Proof.
  destruct l as [|j l]; simpl; [reflexivity|].
  intros H. inversion H; subst.
  destruct (N.leb_spec i j); [reflexivity|lia].
Qed.

Lemma insert_index_In (i x : N) (l : list N) :
  In x (insert_index i l) <-> x = i \/ In x l.
Proof.
  induction l as [|j l IH]; simpl.
  - intuition.
  - destruct (i <=? j)%N; simpl; rewrite ?IH; intuition.
Qed.

Lemma insert_index_sorted (i : N) (l : list N) :
  StronglySorted N.le l -> StronglySorted N.le (insert_index i l).
Proof.
  induction 1 as [|j l Hs IH Hj]; simpl.
  - repeat constructor.
  - destruct (N.leb_spec i j).
    + constructor; [now constructor|].
      constructor; [assumption|].
      eapply Forall_impl; [|exact Hj]. intros x Hx. simpl in Hx. lia.
    + constructor; [assumption|].
      apply Forall_forall. intros x Hx. apply insert_index_In in Hx as [->|Hx].
      * lia.
      * rewrite Forall_forall in Hj. now apply Hj.
Qed.

Lemma indices_of_sorted (ks : list string) : StronglySorted N.le (indices_of ks).
Proof.
  induction ks as [|k ks IH]; simpl; [constructor|].
  destruct (array_index k); [now apply insert_index_sorted|assumption].
Qed.

Lemma filter_insert_index (p : N -> bool) (i : N) (l : list N) :
  StronglySorted N.le l ->
  filter p (insert_index i l) =
  if p i then insert_index i (filter p l) else filter p l.
Proof.
  induction 1 as [|j l Hs IH Hj]; simpl.
  - now destruct (p i).
  - destruct (N.leb_spec i j); simpl.
    + destruct (p i) eqn:Ei; [|reflexivity].
      rewrite insert_index_least; [reflexivity|].
      assert (F : Forall (N.le i) (j :: l)).
      { constructor; [assumption|].
        eapply Forall_impl; [|exact Hj]. intros x Hx. simpl in Hx. lia. }
      apply Forall_forall. intros x Hx.
      assert (In x (j :: l)) by (simpl in Hx; destruct (p j);
        [destruct Hx as [<-|Hx]; [now left|right]|right];
        now apply filter_In in Hx).
      rewrite Forall_forall in F. now apply F.
    + rewrite IH. destruct (p j) eqn:Ej, (p i) eqn:Ei; simpl; try reflexivity.
      destruct (N.leb_spec i j); [lia|reflexivity].
Qed.

Lemma indices_of_filter (key : string) (ks : list string) :
  indices_of (filter (fun x => negb (String.eqb key x)) ks) =
  filter (fun i => negb (String.eqb key (string_of_N i))) (indices_of ks).
Proof.
  induction ks as [|k ks IH]; simpl; [reflexivity|].
  destruct (array_index k) as [i|] eqn:E.
  - rewrite filter_insert_index by apply indices_of_sorted.
    rewrite <- (array_index_canonical _ _ E).
    destruct (String.eqb key k); simpl; [assumption|].
    now rewrite E, IH.
  - destruct (String.eqb key k); simpl; [assumption|]. now rewrite E.
Qed.

Lemma filter_map_swap {A B : Type} (p : B -> bool) (g : A -> B) (l : list A) :
  filter p (map g l) = map g (filter (fun a => p (g a)) l).
Proof.
  induction l as [|a l IH]; simpl; [reflexivity|].
  destruct (p (g a)); simpl; now rewrite IH.
Qed.

Lemma filter_filter_swap {A : Type} (p q : A -> bool) (l : list A) :
  filter p (filter q l) = filter q (filter p l).
Proof.
  induction l as [|a l IH]; simpl; [reflexivity|].
  destruct (p a) eqn:Ep, (q a) eqn:Eq; simpl; rewrite ?Ep, ?Eq, IH; reflexivity.
Qed.

(** [Object.keys] of a mapping without [key]: the other keys, in the same
    order. *)
Lemma ordered_keys_filter (key : string) (ks : list string) :
  ordered_keys (filter (fun x => negb (String.eqb key x)) ks) =
  filter (fun x => negb (String.eqb key x)) (ordered_keys ks).
Proof.
  unfold ordered_keys.
  rewrite filter_app, indices_of_filter, filter_map_swap.
  f_equal. apply filter_filter_swap.
Qed.

Lemma Object_keys_remove_key (key : string) (c : oclass) (kvs : props) :
  Object_keys (remove_key key (VObj c kvs)) =
  filter (fun x => negb (String.eqb key x)) (Object_keys (VObj c kvs)).
Proof.
  simpl. rewrite <- ordered_keys_filter. f_equal.
  induction kvs as [|[k v] kvs IH]; simpl; [reflexivity|].
  destruct (String.eqb key k); simpl; now rewrite IH.
Qed.

Lemma lookup_remove_other (key k : string) (kvs : props) :
  k <> key ->
  lookup k (filter (fun kv => negb (String.eqb key (fst kv))) kvs) = lookup k kvs.
Proof.
  intros Hk. induction kvs as [|[k' v] kvs IH]; simpl; [reflexivity|].
  destruct (String.eqb key k') eqn:E; simpl.
  - apply String.eqb_eq in E. subst k'.
    destruct (String.eqb k key) eqn:E'; [|assumption].
    apply String.eqb_eq in E'. contradiction.
  - now rewrite IH.
Qed.

Lemma get_prop_remove_other (key k : string) (v : value) :
  k <> key -> get_prop (remove_key key v) k = get_prop v k.
Proof.
  intros Hk. destruct v as [| | | | |c kvs]; try reflexivity.
  simpl. now rewrite lookup_remove_other.
Qed.

Lemma includes_text_filter_other (key r : string) (ks : list string) :
  r <> key ->
  includes_text (filter (fun x => negb (String.eqb key x)) ks) r =
  includes_text ks r.
Proof.
  intros Hr. unfold includes_text.
  induction ks as [|k ks IH]; simpl; [reflexivity|].
  destruct (String.eqb key k) eqn:E; simpl.
  - apply String.eqb_eq in E. subst k.
    destruct (String.eqb r key) eqn:E'; [|assumption].
    apply String.eqb_eq in E'. contradiction.
  - now rewrite IH.
Qed.

Lemma missing_params_remove (defs : list ParamsDefinition) (path : string)
    (w : location) (key : string) (ks : list string) :
  (forall d, In d defs -> ~ (in_ d = w /\ name d = key)) ->
  missing_params defs path w (filter (fun x => negb (String.eqb key x)) ks) =
  missing_params defs path w ks.
Proof.
  intros Hnone. unfold missing_params. f_equal. apply filter_ext_in.
  intros r Hr. f_equal. apply includes_text_filter_other. intros ->.
  apply in_map_iff in Hr as (d & Hn & Hd).
  apply filter_In in Hd as [Hd _]. apply filter_In in Hd as [Hd Hw].
  apply location_eqb_eq in Hw. now apply (Hnone d Hd).
Qed.

Lemma mapping_with_mapping (req : Request) (w w' : location) (p : value) :
  mapping (with_mapping req w p) w' = if location_eqb w' w then p else mapping req w'.
Proof. now destruct w, w'. Qed.

(** ** Names that stay recorded *)

Lemma recorded_push_at (l : list entry) (w w' : location) (q x : string) :
  recorded l w x -> recorded (push_at w' q l) w x.
Proof.
  intros (e & He & Hw & Hx). induction l as [|u l IH]; [contradiction|].
  simpl. destruct (location_eqb (where_ u) w') eqn:E.
  - destruct He as [<-|He].
    + eexists. split; [now left|]. split; [exact Hw|]. simpl.
      apply in_or_app. now left.
    + exists e. split; [now right|auto].
  - destruct He as [<-|He].
    + exists u. split; [now left|auto].
    + destruct (IH He) as (e' & He' & H'). exists e'. split; [now right|exact H'].
Qed.

Lemma recorded_app (l t : list entry) (w : location) (x : string) :
  recorded l w x \/ recorded t w x -> recorded (l ++ t) w x.
Proof.
  intros [(e & He & H)|(e & He & H)]; exists e; split; auto using in_or_app.
Qed.

(** What is recorded stays recorded while the lists grow. *)
Lemma grow_recorded (PU PM : location -> string -> Prop) (st st' : lists)
    (w : location) (x : string) :
  grow PU PM st st' ->
  (recorded (missing_of st) w x -> recorded (missing_of st') w x)
  /\ (recorded (unknown_of st) w x -> recorded (unknown_of st') w x)
  /\ (recorded (malformed_of st) w x -> recorded (malformed_of st') w x).
Proof.
  induction 1 as [st|mi un ma w' q P|mi un ma w' q P F|[[mi un] ma] nested
                  |st1 st2 st3 H12 IH12 H23 IH23];
    cbn [missing_of unknown_of malformed_of merge fst snd];
    auto using recorded_push_at.
  - repeat split; intros Hr; apply recorded_app; now left.
  - destruct IH12 as (A1 & A2 & A3), IH23 as (B1 & B2 & B3). auto.
Qed.

(** ** Properties of [check] *)

Section CheckProperties.

Variable host : Host.

(** The second component of [found] is the recursive call of line 131:
    [this.check(fakeReq, { name: name, def: def.properties })]. *)
Lemma check_properties_is_check (this : ParamsSanitizer) (def : ParamsDefinition) :
  check_properties host (is_true (strict (options this))) def =
  option_map
    (fun ps name fakeReq =>
       check host this fakeReq (Some {| parent_name := name; parent_def := ps |}))
    (properties def).
Proof. now destruct def as [n t a e d r i [ps|]]. Qed.

Lemma check_ok (this : ParamsSanitizer) (req : Request)
    (parent : option Parent) (r : CheckResult) :
  check host this req parent = Ok r ->
  exists st,
    r = check_result st
    /\ grow (unknown_push (is_true (strict (options this))) (prefix parent) req
               (found host this parent))
            (malformed_push (prefix parent) req (found host this parent))
            (initial_lists (scope this parent) (prefix parent) req) st
    /\ covers3 st.
Proof.
  intros H. apply check_body_ok in H as (st & _ & H). eauto.
Qed.

Lemma check_visits (this : ParamsSanitizer) (req : Request)
    (parent : option Parent) (r : CheckResult) (w : location) (key : string) :
  check host this req parent = Ok r ->
  In key (input_keys req w) ->
  exists st1 st2 st,
    covers3 st1
    /\ check_name host (is_true (strict (options this))) (prefix parent) w
         (input_mapping req w) (found host this parent w) st1 key = Ok st2
    /\ grow (unknown_push (is_true (strict (options this))) (prefix parent) req
               (found host this parent))
            (malformed_push (prefix parent) req (found host this parent))
            st2 st
    /\ (forall x, flagged_missing (missing_of st1) w x = true ->
                  flagged_missing (missing_of st) w x = true)
    /\ covers3 st2 /\ r = check_result st.
Proof.
  intros H Hk.
  destruct (check_body_visits _ _ _ _ _ _ _ _ _ H Hk)
    as (st1 & st2 & st & C1 & Hstep & G1 & G2 & C2 & ->).
  exists st1, st2, st. split; [exact C1|]. split; [exact Hstep|].
  split; [exact G2|]. split; [|split; [exact C2|reflexivity]].
  intros x. now apply (grow_flagged _ _ _ _ _ _ G1).
Qed.

(** The call's own entry of [missing] for a location is what lines 73 to 78
    computed. *)
Lemma check_missing_at (this : ParamsSanitizer) (req : Request)
    (parent : option Parent) (r : CheckResult) (w : location) :
  check host this req parent = Ok r ->
  params_at (missing r) w =
  missing_params (scope this parent) (prefix parent) w (input_keys req w).
Proof.
  intros H. apply check_ok in H as (st & -> & G & _).
  rewrite check_result_missing, (grow_missing _ _ _ _ w G).
  - apply missing_initial.
  - apply covers3_initial.
Qed.

(** The call's own entry of [unknown] holds qualified keys without
    definition, and only in strict mode. *)
Lemma check_unknown_at (this : ParamsSanitizer) (req : Request)
    (parent : option Parent) (r : CheckResult) (w : location) (x : string) :
  check host this req parent = Ok r ->
  In x (params_at (unknown r) w) ->
  unknown_push (is_true (strict (options this))) (prefix parent) req
    (found host this parent) w x.
Proof.
  intros H Hx. apply check_ok in H as (st & -> & G & _).
  rewrite check_result_unknown in Hx.
  destruct (grow_unknown_names _ _ _ _ w x G (covers3_initial _ _ _) Hx)
    as [Hi|Hp]; [|assumption].
  rewrite unknown_initial in Hi. contradiction.
Qed.

(** The call's own entry of [malformed] holds qualified keys that have a
    definition. *)
Lemma check_malformed_at (this : ParamsSanitizer) (req : Request)
    (parent : option Parent) (r : CheckResult) (w : location) (x : string) :
  check host this req parent = Ok r ->
  In x (params_at (malformed r) w) ->
  malformed_push (prefix parent) req (found host this parent) w x.
Proof.
  intros H Hx. apply check_ok in H as (st & -> & G & _).
  rewrite check_result_malformed in Hx.
  destruct (grow_malformed_names _ _ _ _ w x G (covers3_initial _ _ _) Hx)
    as [Hi|Hp]; [|assumption].
  rewrite malformed_initial in Hi. contradiction.
Qed.

Lemma check_status_iff (this : ParamsSanitizer) (req : Request)
    (parent : option Parent) (r : CheckResult) :
  check host this req parent = Ok r ->
  (status r = true <->
   forall e, In e (missing r ++ unknown r ++ malformed r) -> params_ e = []).
Proof.
  intros H. apply check_ok in H as (st & -> & _).
  rewrite check_result_status.
  now rewrite check_result_missing, check_result_unknown, check_result_malformed.
Qed.

Lemma required_missing_at (this : ParamsSanitizer) (req : Request)
    (parent : option Parent) (r : CheckResult) (def : ParamsDefinition) :
  check host this req parent = Ok r ->
  In def (scope this parent) ->
  required def = Some true ->
  ~ In (name def) (input_keys req (in_ def)) ->
  In (prefix parent ++ name def)%string (params_at (missing r) (in_ def)).
Proof.
  intros H Hd Hr Hk. rewrite (check_missing_at _ _ _ _ _ H).
  apply missing_params_In. exists def. repeat split; auto.
  now rewrite Hr.
Qed.

(** A result with a name in some entry does not pass. *)
Lemma recorded_status_false (this : ParamsSanitizer) (req : Request)
    (parent : option Parent) (r : CheckResult) (w : location) (x : string) :
  check host this req parent = Ok r ->
  recorded (missing r) w x \/ recorded (unknown r) w x \/ recorded (malformed r) w x ->
  status r = false.
Proof.
  intros H Hx. destruct (status r) eqn:E; [|reflexivity].
  pose proof (proj1 (check_status_iff _ _ _ _ H) E) as E'. clear E.
  assert (F : forall l, recorded l w x ->
                        (forall e, In e l -> params_ e = []) -> False).
  { intros l (e & He & _ & Hin) Hl. rewrite (Hl e He) in Hin. contradiction. }
  destruct Hx as [Hx|[Hx|Hx]]; exfalso; apply (F _ Hx); intros e He; apply E';
    auto using in_or_app.
Qed.

Lemma found_none (this : ParamsSanitizer) (parent : option Parent)
    (w : location) (key : string) :
  (forall d, In d (scope this parent) -> ~ (in_ d = w /\ name d = key)) ->
  found host this parent w key = None.
Proof.
  intros Hnone. apply find_with_none. intros d Hd.
  destruct (matches w key d) eqn:E; [|reflexivity].
  apply matches_spec in E. now apply Hnone in Hd.
Qed.

(** A key without a definition, in strict mode, is pushed on [unknown]. *)
Lemma unknown_key_strict (this : ParamsSanitizer) (req : Request)
    (parent : option Parent) (r : CheckResult) (w : location) (key : string) :
  strict (options this) = Some true ->
  check host this req parent = Ok r ->
  In key (input_keys req w) ->
  (forall d, In d (scope this parent) -> ~ (in_ d = w /\ name d = key)) ->
  In (prefix parent ++ key)%string (params_at (unknown r) w).
Proof.
  intros Hs H Hk Hnone.
  destruct (check_visits _ _ _ _ _ _ H Hk)
    as (st1 & st2 & st & C1 & Hstep & G2 & _ & C2 & ->).
  rewrite check_result_unknown. apply (grow_unknown_mono _ _ st2 _ _ _ G2 C2).
  unfold check_name in Hstep. destruct st1 as [[mi un] ma].
  rewrite (found_none _ _ _ _ Hnone), Hs in Hstep.
  simpl in Hstep. inversion Hstep; subst.
  cbn [unknown_of fst snd]. destruct C1 as (_ & Hu & _).
  rewrite params_at_push_at, location_eqb_refl by assumption.
  apply in_or_app. right. now left.
Qed.

(** Without strict mode the call records a key without definition in none
    of its own entries for the location of the key. *)
Lemma unknown_key_not_recorded (this : ParamsSanitizer) (req : Request)
    (parent : option Parent) (r : CheckResult) (w : location) (key : string) :
  is_true (strict (options this)) = false ->
  check host this req parent = Ok r ->
  (forall d, In d (scope this parent) -> ~ (in_ d = w /\ name d = key)) ->
  ~ In (prefix parent ++ key)%string (params_at (missing r) w)
  /\ ~ In (prefix parent ++ key)%string (params_at (unknown r) w)
  /\ ~ In (prefix parent ++ key)%string (params_at (malformed r) w).
Proof.
  intros Hs H Hnone. repeat split; intros Hin.
  - rewrite (check_missing_at _ _ _ _ _ H) in Hin.
    apply missing_params_In in Hin as (def & Hd & Hw & _ & _ & E).
    apply append_cancel in E. now apply (Hnone def Hd).
  - apply (check_unknown_at _ _ _ _ _ _ H) in Hin as [Hstrict _]. congruence.
  - apply (check_malformed_at _ _ _ _ _ _ H) in Hin
      as (key' & def & c & _ & Hf & E).
    apply append_cancel in E. subst key'.
    rewrite (found_none _ _ _ _ Hnone) in Hf. discriminate.
Qed.

(** Without strict mode a key that has no definition is ignored: [check]
    behaves as on the request without that key. *)
Lemma unknown_key_ignored (this : ParamsSanitizer) (req : Request)
    (parent : option Parent) (w : location) (key : string) :
  is_true (strict (options this)) = false ->
  is_object (mapping req w) = true ->
  (forall d, In d (scope this parent) -> ~ (in_ d = w /\ name d = key)) ->
  check host this (with_mapping req w (remove_key key (mapping req w))) parent =
  check host this req parent.
Proof.
  intros Hs Hobj Hnone.
  destruct (mapping req w) as [| | | | |c kvs] eqn:Hm; try discriminate. clear Hobj.
  set (req' := with_mapping req w (remove_key key (VObj c kvs))).
  assert (Hmap : forall w', input_mapping req' w' =
                            if location_eqb w' w then remove_key key (VObj c kvs)
                            else input_mapping req w').
  { intros w'. unfold input_mapping, req'. rewrite mapping_with_mapping.
    now destruct (location_eqb w' w). }
  assert (Hmw : input_mapping req w = VObj c kvs).
  { unfold input_mapping. now rewrite Hm. }
  unfold check, check_with, check_body. rewrite Hs.
  assert (Hinit : initial_lists (scope this parent) (prefix parent) req' =
                  initial_lists (scope this parent) (prefix parent) req).
  { unfold initial_lists. f_equal. f_equal. apply map_ext. intros w'. f_equal.
    unfold input_keys. rewrite Hmap.
    destruct (location_eqb w' w) eqn:E; [|reflexivity].
    apply location_eqb_eq in E. subst w'.
    rewrite Hmw, Object_keys_remove_key. now apply missing_params_remove. }
  rewrite Hinit. f_equal. apply foldM_ext. intros st w' _.
  unfold check_location. rewrite Hmap.
  destruct (location_eqb w' w) eqn:E; [|reflexivity].
  apply location_eqb_eq in E. subst w'.
  rewrite Hmw, Object_keys_remove_key.
  apply foldM_filter.
  - intros s x Hx. apply negb_false_iff, String.eqb_eq in Hx. subst x.
    unfold check_name. destruct s as [[mi un] ma].
    pose proof (found_none this parent w key Hnone) as F. unfold found in F.
    rewrite Hs in F. now rewrite F.
  - intros s x Hx. apply negb_true_iff, String.eqb_neq in Hx.
    unfold check_name. rewrite get_prop_remove_other; [reflexivity|].
    intros ->. contradiction.
Qed.

(** A boolean field whose value is not canonical is pushed on [malformed],
    unless its name is flagged missing. *)
Lemma boolean_malformed (this : ParamsSanitizer) (req : Request)
    (parent : option Parent) (r : CheckResult) (w : location) (key : string)
    (def : ParamsDefinition) (c : option checker) (raw : value) :
  check host this req parent = Ok r ->
  In key (input_keys req w) ->
  found host this parent w key = Some (def, c) ->
  type def = TBoolean ->
  get_prop (input_mapping req w) key = Ok raw ->
  includes canonical_booleans raw = false ->
  flagged_missing (missing r) w (prefix parent ++ key) = false ->
  In (prefix parent ++ key)%string (params_at (malformed r) w).
Proof.
  intros H Hk Hf Ht Hraw Hcanon Hflag.
  destruct (check_visits _ _ _ _ _ _ H Hk)
    as (st1 & st2 & st & C1 & Hstep & G2 & Hfl & C2 & ->).
  rewrite check_result_malformed. apply (grow_malformed_mono _ _ st2 _ _ _ G2 C2).
  rewrite check_result_missing in Hflag.
  unfold check_name in Hstep. destruct st1 as [[mi un] ma].
  rewrite Hf in Hstep.
  destruct (flagged_missing mi w (prefix parent ++ key)) eqn:F.
  { apply Hfl in F. congruence. }
  rewrite Hraw in Hstep. cbn [bind] in Hstep. rewrite Ht in Hstep.
  unfold canonical_booleans in Hcanon. rewrite Hcanon in Hstep.
  cbn [negb] in Hstep. inversion Hstep; subst. cbn [malformed_of fst snd].
  destruct C1 as (_ & _ & Ha).
  rewrite params_at_push_at, location_eqb_refl by assumption.
  apply in_or_app. right. now left.
Qed.

(** The invariant behind the tie-break of lines 95 to 97. *)
Lemma check_own_disjoint (this : ParamsSanitizer) (req : Request)
    (parent : option Parent) (r : CheckResult) (w : location) (x : string) :
  check host this req parent = Ok r ->
  In x (params_at (missing r) w) -> ~ In x (params_at (malformed r) w).
Proof.
  intros H. apply check_ok in H as (st & -> & G & _).
  rewrite check_result_missing, check_result_malformed.
  apply (grow_own_disjoint _ _ _ _ G (covers3_initial _ _ _)).
  intros w' y _. now destruct w'.
Qed.

(** C3.  Whenever [check] returns, [status] is true exactly when every
    [params] list of [missing], [unknown] and [malformed] in the result is
    empty, the entries merged from nested calls included. *)
Theorem status_true_iff_all_params_empty (this : ParamsSanitizer)
    (req : Request) (parent : option Parent) (r : CheckResult) :
  check host this req parent = Ok r ->
  (status r = true <->
   forall e, In e (missing r ++ unknown r ++ malformed r) -> params_ e = []).
Proof. apply check_status_iff. Qed.

(** C4, amended.  In the entries a call of [check] creates itself, one per
    location, no name stands both in [missing] and in [malformed] for the
    same location.  (Entries merged from nested calls are not covered: two
    nested fields can be reported under one qualified name.) *)
Theorem own_missing_never_own_malformed (this : ParamsSanitizer)
    (req : Request) (parent : option Parent) (r : CheckResult) (w : location)
    (x : string) :
  check host this req parent = Ok r ->
  In x (params_at (missing r) w) -> ~ In x (params_at (malformed r) w).
Proof. apply check_own_disjoint. Qed.

(** C5, amended.  A key of a mapping that no definition in scope matches by
    name and location: in strict mode its qualified name is in [unknown]
    for that location; without strict mode the key is ignored: the call
    records it in none of its own entries for that location, and [check]
    behaves exactly as on the request without that key. *)
Theorem key_without_definition (this : ParamsSanitizer) (req : Request)
    (parent : option Parent) (w : location) (key : string) :
  In key (input_keys req w) ->
  (forall d, In d (scope this parent) -> ~ (in_ d = w /\ name d = key)) ->
  (strict (options this) = Some true ->
   forall r,
     check host this req parent = Ok r ->
     In (prefix parent ++ key)%string (params_at (unknown r) w))
  /\ (is_true (strict (options this)) = false ->
      (forall r,
          check host this req parent = Ok r ->
          ~ In (prefix parent ++ key)%string (params_at (missing r) w)
          /\ ~ In (prefix parent ++ key)%string (params_at (unknown r) w)
          /\ ~ In (prefix parent ++ key)%string (params_at (malformed r) w))
      /\ (is_object (mapping req w) = true ->
          check host this
            (with_mapping req w (remove_key key (mapping req w))) parent
          = check host this req parent)).
Proof.
  intros Hk Hnone. split.
  - intros Hs r H. now apply (unknown_key_strict this req parent).
  - intros Hs. split.
    + intros r H. now apply (unknown_key_not_recorded this req parent).
    + intros Ho. now apply unknown_key_ignored.
Qed.

(** C6.  A definition in scope with [required = true] whose name is no key
    of the mapping of its location (an absent mapping having no key) has
    its qualified name in [missing] for that location, whatever the schema
    and the input. *)
Theorem required_absent_is_missing (this : ParamsSanitizer) (req : Request)
    (parent : option Parent) (r : CheckResult) (def : ParamsDefinition) :
  check host this req parent = Ok r ->
  In def (scope this parent) ->
  required def = Some true ->
  ~ In (name def) (input_keys req (in_ def)) ->
  In (prefix parent ++ name def)%string (params_at (missing r) (in_ def)).
Proof. apply required_missing_at. Qed.

(** The nested validation of an object field reports a required property
    declared in another location than the field, and the report reaches the
    result of the call that descended into the field. *)
Lemma nested_missing_surfaces (this : ParamsSanitizer) (req : Request)
    (outer : option Parent) (r : CheckResult) (w : location) (key : string)
    (pdef : ParamsDefinition) (c : option checker)
    (ps : list ParamsDefinition) (raw payload : value)
    (def : ParamsDefinition) :
  check host this req outer = Ok r ->
  In key (input_keys req w) ->
  found host this outer w key = Some (pdef, c) ->
  type pdef = TObject ->
  properties pdef = Some ps ->
  get_prop (input_mapping req w) key = Ok raw ->
  JSON_parse host raw = Ok payload ->
  flagged_missing (missing r) w (prefix outer ++ key) = false ->
  In def ps ->
  in_ def <> w ->
  required def = Some true ->
  recorded (missing r) (in_ def) ((key ++ ".") ++ name def)%string
  /\ status r = false.
Proof.
  intros H Hk Hf Ht Hps Hraw Hp Hflag Hd Hw Hr.
  assert (Hrec : recorded (missing r) (in_ def) ((key ++ ".") ++ name def)%string).
  { destruct (check_visits _ _ _ _ _ _ H Hk)
      as (st1 & st2 & st & C1 & Hstep & G2 & Hfl & C2 & ->).
    rewrite check_result_missing in Hflag.
    unfold check_name in Hstep. destruct st1 as [[mi un] ma].
    rewrite Hf in Hstep.
    destruct (flagged_missing mi w (prefix outer ++ key)) eqn:F.
    { apply Hfl in F. congruence. }
    rewrite Hraw in Hstep. cbn [bind] in Hstep. rewrite Ht in Hstep.
    pose proof (find_with_some _ _ _ _ _ Hf) as (_ & Hmatch & Hc).
    apply matches_spec in Hmatch as [Hin _].
    rewrite check_properties_is_check, Hps in Hc. cbn [option_map] in Hc. subst c.
    rewrite Hp in Hstep. cbn [bind] in Hstep.
    destruct (check host this (fake_request (in_ pdef) payload)
                (Some {| parent_name := key; parent_def := ps |}))
      as [nested|e] eqn:En; cbn [bind] in Hstep; [|discriminate].
    assert (Hmiss : In ((key ++ ".") ++ name def)%string
                      (params_at (missing nested) (in_ def))).
    { apply (required_missing_at this _ _ nested def En); auto.
      assert (Hkeys : input_keys (fake_request (in_ pdef) payload) (in_ def) = []).
      { unfold input_keys, input_mapping. rewrite Hin.
        destruct w, (in_ def); try reflexivity; contradiction. }
      rewrite Hkeys. intros []. }
    apply params_at_recorded in Hmiss.
    assert (Hst : status nested = false).
    { apply (recorded_status_false this _ _ nested (in_ def)
               ((key ++ ".") ++ name def)%string En). now left. }
    rewrite Hst in Hstep. cbn [negb] in Hstep. inversion Hstep; subst st2.
    rewrite check_result_missing.
    destruct (grow_recorded _ _ _ _ (in_ def) ((key ++ ".") ++ name def)%string G2)
      as (A1 & _).
    cbn [missing_of merge fst snd] in A1. apply A1, recorded_app. now right. }
  split; [exact Hrec|].
  apply (recorded_status_false this req outer r (in_ def)
           ((key ++ ".") ++ name def)%string H). now left.
Qed.

(** C10.  The synthetic request of the nested validation of an object field
    declared in [w] holds the payload as its member [w] and nothing else
    (lines 128 and 129), so that [check] reads the payload as the mapping of
    [w], unless [w] is the path, and no other mapping.  A nested definition
    declared in another location therefore looks into the empty object that
    stands for an absent mapping, no payload key is matched to it, and when
    it is required it is reported missing and the nested result fails,
    whatever the payload; the call that descended into the field records
    the name and fails likewise. *)
Theorem nested_other_location_is_missing (this : ParamsSanitizer)
    (pname : string) (props' : list ParamsDefinition) (w : location)
    (payload : value) (def : ParamsDefinition) :
  let fakeReq := fake_request w payload in
  let parent := Some {| parent_name := pname; parent_def := props' |} in
  In def props' ->
  in_ def <> w ->
  (member fakeReq w = payload
   /\ (forall w', w' <> w -> member fakeReq w' = VUndefined)
   /\ mapping fakeReq w = match w with Path => VUndefined | _ => payload end
   /\ forall w', w' <> w -> mapping fakeReq w' = VUndefined)
  /\ mapping fakeReq (in_ def) = VUndefined
  /\ input_mapping fakeReq (in_ def) = empty_object
  /\ input_keys fakeReq (in_ def) = []
  /\ (forall key x c, found host this parent w key = Some (x, c) -> x <> def)
  /\ (forall w' key x c,
         In key (input_keys fakeReq w') ->
         found host this parent w' key = Some (x, c) -> x <> def)
  /\ (required def = Some true ->
      forall r,
        check host this fakeReq parent = Ok r ->
        In ((pname ++ ".") ++ name def)%string (params_at (missing r) (in_ def))
        /\ status r = false)
  /\ (required def = Some true ->
      forall req outer r pdef c raw,
        check host this req outer = Ok r ->
        In pname (input_keys req w) ->
        found host this outer w pname = Some (pdef, c) ->
        type pdef = TObject ->
        properties pdef = Some props' ->
        get_prop (input_mapping req w) pname = Ok raw ->
        JSON_parse host raw = Ok payload ->
        flagged_missing (missing r) w (prefix outer ++ pname) = false ->
        recorded (missing r) (in_ def) ((pname ++ ".") ++ name def)%string
        /\ status r = false).
Proof.
  intros fakeReq parent Hd Hw.
  assert (Hother : forall w', w' <> w -> mapping fakeReq w' = VUndefined).
  { intros w' Hw'. subst fakeReq. destruct w, w'; try reflexivity; contradiction. }
  assert (Hm : mapping fakeReq (in_ def) = VUndefined) by now apply Hother.
  assert (Hk : input_keys fakeReq (in_ def) = []).
  { unfold input_keys, input_mapping. now rewrite Hm. }
  assert (Hi : input_mapping fakeReq (in_ def) = empty_object).
  { unfold input_mapping. now rewrite Hm. }
  split; [|split; [exact Hm|split; [exact Hi|split; [exact Hk|]]]];
    [|split; [|split; [|split]]].
  - subst fakeReq. repeat split.
    + now destruct w.
    + intros w' Hw'. destruct w, w'; try reflexivity; contradiction.
    + now destruct w.
    + exact Hother.
  - intros key x c Hf Hx. subst x.
    apply find_with_some in Hf as (_ & Hmatch & _).
    apply matches_spec in Hmatch as [Hl _]. contradiction.
  - intros w' key x c Hkey Hf Hx. subst x.
    apply find_with_some in Hf as (_ & Hmatch & _).
    apply matches_spec in Hmatch as [Hl _]. subst w'.
    rewrite Hk in Hkey. contradiction.
  - intros Hr r H. split.
    + apply (required_missing_at this fakeReq parent r def); auto.
      rewrite Hk. intros [].
    + apply (recorded_status_false this fakeReq parent r (in_ def)
               ((pname ++ ".") ++ name def)%string); [assumption|].
      left. apply params_at_recorded.
      apply (required_missing_at this fakeReq parent r def); auto.
      rewrite Hk. intros [].
  - intros Hr req outer r pdef c raw H Hkey Hf Ht Hps Hraw Hp Hflag.
    now apply (nested_missing_surfaces this req outer r w pname pdef c props'
                 raw payload def).
Qed.

End CheckProperties.

(** ** Properties of [parseValue] and [values] *)

Section ValuesProperties.

Variable host : Host.

(** Lines 174 to 176: an absent value resolves to the default, as it is. *)
Lemma parseValue_nullish (v : value) (def : ParamsDefinition) :
  nullish v = true -> parseValue host v def = (v, Ok (default_of def)).
Proof. intros H. destruct def. simpl. now rewrite H. Qed.

Lemma for_each_primitive (ps : list ParamsDefinition) (o : value) :
  is_object o = false -> nullish o = false -> is_string o = false ->
  fst (for_each (parse_property host (parseValue host)) ps o) = o.
Proof.
  intros Ho Hn Hs. destruct ps as [|d ps]; [reflexivity|].
  destruct o; try discriminate; simpl;
    unfold parse_property; simpl; rewrite parseValue_nullish by reflexivity;
    reflexivity.
Qed.

(** [parseValue] changes the value it is given only when the definition is
    object-typed and the value a structured one. *)
Lemma parseValue_state (v : value) (def : ParamsDefinition) :
  is_object v = false \/ type def <> TObject ->
  fst (parseValue host v def) = v.
Proof.
  intros H. destruct (nullish v) eqn:Hn.
  { now rewrite parseValue_nullish. }
  destruct def as [n t a e d r i ps]. simpl in *. rewrite Hn.
  destruct t; try (destruct (is_true a); reflexivity); try reflexivity.
  destruct H as [H|H]; [|congruence].
  destruct (is_string v) eqn:Hs.
  - destruct (JSON_parse host v); [|reflexivity].
    destruct ps as [ps|]; [|reflexivity].
    now destruct (for_each _ ps a0).
  - destruct ps as [ps|]; [|reflexivity].
    pose proof (for_each_primitive ps v H Hn Hs) as F.
    destruct (for_each _ ps v). exact F.
Qed.

Lemma get_prop_object_lookup (c : oclass) (kvs : props) (k : string)
    (raw : value) :
  get_prop (VObj c kvs) k = Ok raw -> is_object raw = true ->
  lookup k kvs = Some raw.
Proof.
  simpl. intros H Ho.
  destruct c, (String.eqb k "length"); try (inversion H; subst; discriminate);
    destruct (lookup k kvs); inversion H; subst; try reflexivity; discriminate.
Qed.

Lemma assoc_replace_same (k : string) (v : value) (kvs : props) :
  lookup k kvs = Some v -> assoc_replace k v kvs = kvs.
Proof.
  induction kvs as [|[k' v'] kvs IH]; simpl; [reflexivity|].
  destruct (String.eqb k k') eqn:E.
  - apply String.eqb_eq in E. intros H. inversion H. now subst.
  - intros H. now rewrite IH.
Qed.

Lemma write_back_same (p : value) (k : string) (raw : value) :
  get_prop p k = Ok raw -> write_back p k raw raw = p.
Proof.
  destruct p as [| | | | |c kvs]; try reflexivity.
  intros H. unfold write_back. destruct (is_object raw) eqn:Ho; [|reflexivity].
  now rewrite (assoc_replace_same _ _ _ (get_prop_object_lookup _ _ _ _ H Ho)).
Qed.

Lemma with_mapping_same (req : Request) (w : location) :
  with_mapping req w (mapping req w) = req.
Proof. now destruct req, w. Qed.






(** What one definition does in [values]. *)
Lemma values_def_ok (def : ParamsDefinition) (req : Request)
    (obj : ValueResult) (req1 : Request) (obj1 : ValueResult) :
  values_def host def (req, obj) = (req1, Ok obj1) ->
  exists raw v,
    get_prop (mapping req (in_ def)) (name def) = Ok raw
    /\ snd (parseValue host raw def) = Ok v
    /\ obj1 = (if nullish v then obj else set_value obj (in_ def) (name def) v)
    /\ req1 = with_mapping req (in_ def)
                (write_back (mapping req (in_ def)) (name def) raw
                   (fst (parseValue host raw def))).
Proof.
  unfold values_def.
  destruct (get_prop (mapping req (in_ def)) (name def)) as [raw|e];
    [|intros H; inversion H].
  destruct (parseValue host raw def) as [raw' [v|e]] eqn:E; intros H;
    inversion H.
  exists raw, v. rewrite E. simpl. repeat split. now destruct (nullish v).
Qed.


Lemma values_loop_frame (defs : list ParamsDefinition) (req : Request) :
  (forall def raw,
      In def defs -> type def = TObject ->
      get_prop (mapping req (in_ def)) (name def) = Ok raw ->
      is_object raw = false) ->
  forall obj, fst (values_loop host defs (req, obj)) = req.
Proof.
  induction defs as [|d ds IH]; intros Hraw obj; [reflexivity|].
  cbn [values_loop]. unfold values_def.
  destruct (get_prop (mapping req (in_ d)) (name d)) as [raw|e] eqn:Eraw;
    [|reflexivity].
  assert (Hst : fst (parseValue host raw d) = raw).
  { apply parseValue_state. destruct (type d) eqn:Et; try (right; discriminate).
    left. apply (Hraw d raw); auto. now left. }
  destruct (parseValue host raw d) as [raw' r]. simpl in Hst. subst raw'.
  rewrite (write_back_same _ _ _ Eraw), with_mapping_same.
  destruct r as [v|e]; [|reflexivity].
  apply IH. intros def raw0 Hin. apply Hraw. now right.
Qed.

(** C2, amended.  [values] leaves the request as it found it whenever no
    object-typed definition finds a structured (non-text) value under its
    name; [check] has no assignment into the request at all. *)
Theorem values_changes_only_structured_objects (this : ParamsSanitizer)
    (req : Request) :
  (forall def raw,
      In def (definitions this) -> type def = TObject ->
      get_prop (mapping req (in_ def)) (name def) = Ok raw ->
      is_object raw = false) ->
  fst (values host this req) = req.
Proof. intros H. unfold values. now apply values_loop_frame. Qed.



(** A boolean that is no array: lines 192 and 193. *)
Lemma parseValue_boolean (raw : value) (def : ParamsDefinition) :
  type def = TBoolean -> is_true (isArray def) = false -> nullish raw = false ->
  parseValue host raw def =
  (raw, Ok (VBool (includes [VBool true; VStr "true"; VNum (Finite 1 0); VStr "1"]
                            raw))).
Proof.
  intros Ht Ha Hn. destruct def. cbn [type isArray] in *. subst.
  cbn [parseValue type isArray]. now rewrite Hn, Ha.
Qed.

Lemma not_canonical_is_false (raw : value) :
  includes canonical_booleans raw = false ->
  includes [VBool true; VStr "true"; VNum (Finite 1 0); VStr "1"] raw = false.
Proof.
  unfold includes, canonical_booleans. cbn [existsb].
  rewrite !orb_false_iff. intuition.
Qed.

(** C8, amended.  For a boolean field that is no array: the text ["1"] is
    coerced to [true]; a value outside the canonical set is coerced to
    [false] by [parseValue], which neither throws nor touches the value,
    and [check] reports the field in [malformed] for its location unless
    its qualified name is flagged missing (line 95). *)
Theorem boolean_field_coercion_and_check (this : ParamsSanitizer)
    (req : Request) (parent : option Parent) (r : CheckResult) (w : location)
    (key : string) (def : ParamsDefinition) (c : option checker) (raw : value) :
  type def = TBoolean ->
  is_true (isArray def) = false ->
  nullish raw = false ->
  includes canonical_booleans raw = false ->
  parseValue host (VStr "1") def = (VStr "1", Ok (VBool true))
  /\ parseValue host raw def = (raw, Ok (VBool false))
  /\ (check host this req parent = Ok r ->
      In key (input_keys req w) ->
      found host this parent w key = Some (def, c) ->
      get_prop (input_mapping req w) key = Ok raw ->
      flagged_missing (missing r) w (prefix parent ++ key) = false ->
      In (prefix parent ++ key)%string (params_at (malformed r) w)).
Proof.
  intros Ht Ha Hn Hc. split; [|split].
  - now rewrite parseValue_boolean.
  - rewrite parseValue_boolean by assumption.
    now rewrite not_canonical_is_false.
  - intros H Hk Hf Hraw Hflag.
    now apply (boolean_malformed host this req parent r w key def c raw).
Qed.

End ValuesProperties.

(** ** When the sanitizer aborts *)

(** The induction that follows the tree of definitions. *)
Lemma ParamsDefinition_tree_ind (P : ParamsDefinition -> Prop) :
  (forall d, (forall ps x, properties d = Some ps -> In x ps -> P x) -> P d) ->
  forall d, P d.
Proof.
  intros step. fix IH 1. intros d. apply step.
  destruct d as [n t a e df r i [l|]]; cbn [properties]; intros ps x E;
    [|discriminate].
  inversion E; subst ps; clear E. revert x.
  refine ((fix all (l0 : list ParamsDefinition) : forall x, In x l0 -> P x :=
             match l0 with
             | [] => fun x H => match H with end
             | y :: l' => fun x H =>
                 match H with
                 | or_introl e => eq_ind y P (IH y) x e
                 | or_intror h => all l' x h
                 end
             end) l).
Qed.





Section Aborts.

Variable host : Host.

Lemma check_properties_none (strict' : bool) (def : ParamsDefinition) :
  properties def = None -> check_properties host strict' def = None.
Proof. destruct def. simpl. now intros ->. Qed.


















End Aborts.

(** ** The claims on examples *)

(** C1.  A required [child] nested in [parent] nested in [grandparent], and
    absent from the payload of [parent], is reported as [parent.child]: the
    recursive call of line 131 passes the bare [name], so only the last
    enclosing field prefixes the name, not the path from the root. *)
Theorem deep_nesting_reports_last_parent_only :
  exists r,
    check utc_host deep_sanitizer deep_request None = Ok r
    /\ named_entries (missing r) =
       [{| where_ := Query; params_ := ["parent.child"] |}]
    /\ named_entries (unknown r) = []
    /\ named_entries (malformed r) = [].
Proof. eexists. split; [vm_compute; reflexivity|]. repeat split. Qed.

(** C2, the claim refuted: [values] on a body sent as parsed JSON rewrites
    the property [a] of the caller's object [o] from the text ["1"] to the
    number [1]. *)
Lemma values_overwrites_the_callers_object :
  values utc_host body_sanitizer body_request =
  (request [] [] [("o", VObj CObject [("a", VNum (Finite 1 0))])],
   Ok {| query_values := []; path_values := [];
         body_values := [("o", VObj CObject [("a", VNum (Finite 1 0))])] |})
  /\ fst (values utc_host body_sanitizer body_request) <> body_request.
Proof. split; [vm_compute; reflexivity|]. vm_compute. discriminate. Qed.

Lemma values_changes_only_structured_objects_witness :
  fst (values utc_host body_sanitizer
         (request [] [] [("o", VStr (json_pair "a" "1"))])) =
  request [] [] [("o", VStr (json_pair "a" "1"))].
Proof.
  apply (values_changes_only_structured_objects utc_host).
  intros def raw [<-|[]] _ H. vm_compute in H. inversion H. reflexivity.
Defined.

Lemma status_true_iff_all_params_empty_witness :
  exists r,
    check utc_host (readme_sanitizer strict_options)
      (request [("p1", VStr "x"); ("p3", VStr "y")] [] []) None = Ok r
    /\ (status r = true <->
        forall e, In e (missing r ++ unknown r ++ malformed r) -> params_ e = []).
Proof.
  eexists. split; [vm_compute; reflexivity|].
  apply (status_true_iff_all_params_empty utc_host
           (readme_sanitizer strict_options)
           (request [("p1", VStr "x"); ("p3", VStr "y")] [] []) None).
  vm_compute. reflexivity.
Defined.

(** C4, the claim refuted: [o.c] of the query is malformed, [o.c] of the
    body is looked up in the query and missing, and the result reports the
    name [o.c] both missing and malformed for the query. *)
Lemma missing_and_malformed_share_a_name :
  exists r,
    check utc_host twin_sanitizer twin_request None = Ok r
    /\ named_entries (missing r) = [{| where_ := Query; params_ := ["o.c"] |}]
    /\ named_entries (malformed r) = [{| where_ := Query; params_ := ["o.c"] |}].
Proof. eexists. split; [vm_compute; reflexivity|]. split; reflexivity. Qed.

Lemma own_missing_never_own_malformed_witness :
  exists r,
    check utc_host (readme_sanitizer strict_options)
      (request [("p3", VStr "y")] [] []) None = Ok r
    /\ In "p1" (params_at (missing r) Query)
    /\ ~ In "p1" (params_at (malformed r) Query).
Proof.
  eexists. split; [vm_compute; reflexivity|].
  split; [vm_compute; auto|].
  apply (own_missing_never_own_malformed utc_host
           (readme_sanitizer strict_options)
           (request [("p3", VStr "y")] [] []) None).
  - vm_compute. reflexivity.
  - vm_compute. auto.
Defined.

(** C5, the claim refuted: without strict mode, the key [o.c] has no
    definition, and yet the text [o.c] stands in [missing] for the query:
    it names the property [c] that the payload of [o] lacks. *)
Lemma ignored_key_can_spell_a_reported_name :
  In "o.c" (input_keys dotted_request Query)
  /\ Forall (fun d => name d <> "o.c") (definitions dotted_sanitizer)
  /\ strict (options dotted_sanitizer) = Some false
  /\ exists r,
       check utc_host dotted_sanitizer dotted_request None = Ok r
       /\ named_entries (missing r) = [{| where_ := Query; params_ := ["o.c"] |}].
Proof.
  split; [vm_compute; auto|]. split; [repeat constructor; discriminate|].
  split; [reflexivity|]. eexists. split; [vm_compute; reflexivity|reflexivity].
Qed.

Lemma key_without_definition_witness :
  exists r,
    check utc_host (readme_sanitizer strict_options)
      (request [("p1", VStr "x"); ("p3", VStr "y")] [] []) None = Ok r
    /\ In "p3" (params_at (unknown r) Query).
Proof.
  eexists. split; [vm_compute; reflexivity|].
  refine (proj1 (key_without_definition utc_host
                   (readme_sanitizer strict_options)
                   (request [("p1", VStr "x"); ("p3", VStr "y")] [] []) None
                   Query "p3" _ _) eq_refl _ _).
  - vm_compute. auto.
  - intros d [<-|[<-|[]]] [_ E]; discriminate E.
  - vm_compute. reflexivity.
Defined.

Lemma required_absent_is_missing_witness :
  exists r,
    check utc_host (readme_sanitizer strict_options)
      (request [("p3", VStr "y")] [] []) None = Ok r
    /\ In "p1" (params_at (missing r) Query).
Proof.
  eexists. split; [vm_compute; reflexivity|].
  match goal with
  | |- In _ (params_at (missing ?r) _) =>
      apply (required_absent_is_missing utc_host
               (readme_sanitizer strict_options)
               (request [("p3", VStr "y")] [] []) None r
               (with_defaults (required_param "p1" TString Query)))
  end.
  - vm_compute. reflexivity.
  - left. reflexivity.
  - reflexivity.
  - vm_compute. intros [E|[]]. discriminate E.
Defined.


(** C8, the claim refuted: the boolean field [o.c] holds ["maybe"], and
    [check] does not report it malformed: the payload of [o] lacks its
    required [c], which is reported missing under the name [o.c] before the
    key [o.c] gets its turn, and line 95 then skips the key. *)
Lemma malformed_boolean_skipped_when_flagged_missing :
  found utc_host dotted_boolean_sanitizer None Query "o.c" =
  Some (with_defaults (param "o.c" TBoolean Query), None)
  /\ get_prop (input_mapping dotted_boolean_request Query) "o.c" = Ok (VStr "maybe")
  /\ includes canonical_booleans (VStr "maybe") = false
  /\ exists r,
       check utc_host dotted_boolean_sanitizer dotted_boolean_request None = Ok r
       /\ named_entries (malformed r) = []
       /\ named_entries (missing r) = [{| where_ := Query; params_ := ["o.c"] |}].
Proof.
  split; [vm_compute; reflexivity|]. split; [reflexivity|].
  split; [reflexivity|]. eexists. split; [vm_compute; reflexivity|].
  split; reflexivity.
Qed.

Lemma boolean_field_coercion_and_check_witness :
  exists r,
    check utc_host flag_sanitizer (request [("x", VStr "maybe")] [] []) None = Ok r
    /\ parseValue utc_host (VStr "1") (with_defaults (param "x" TBoolean Query))
       = (VStr "1", Ok (VBool true))
    /\ parseValue utc_host (VStr "maybe") (with_defaults (param "x" TBoolean Query))
       = (VStr "maybe", Ok (VBool false))
    /\ In "x" (params_at (malformed r) Query).
Proof.
  eexists. split; [vm_compute; reflexivity|].
  match goal with
  | |- _ /\ _ /\ In _ (params_at (malformed ?r) _) =>
      destruct (boolean_field_coercion_and_check utc_host flag_sanitizer
                  (request [("x", VStr "maybe")] [] []) None r Query "x"
                  (with_defaults (param "x" TBoolean Query)) None (VStr "maybe")
                  eq_refl eq_refl eq_refl eq_refl) as (H1 & H2 & H3)
  end.
  split; [exact H1|]. split; [exact H2|].
  apply H3.
  - vm_compute. reflexivity.
  - vm_compute. auto.
  - vm_compute. reflexivity.
  - reflexivity.
  - vm_compute. reflexivity.
Defined.


(** [values] reads [req.body] where [check] reads [req.body || {}]: on a
    request without body the one throws and the other returns. *)
Lemma values_throws_without_a_body :
  values utc_host body_flag_sanitizer bodyless_request =
  (bodyless_request, Throw (TypeError_nullish "flag"))
  /\ is_ok (check utc_host body_flag_sanitizer bodyless_request None) = true.
Proof. split; vm_compute; reflexivity. Qed.

(** A property declared twice is converted twice: the second turn of the
    loop of line 197 finds the array the first one stored, which has no
    [split]. *)
Lemma values_throws_on_a_repeated_property :
  snd (values utc_host repeated_sanitizer repeated_request) =
  Throw (TypeError_not_a_function "split").
Proof. vm_compute. reflexivity. Qed.


Lemma nested_other_location_is_missing_witness :
  member (fake_request Body (VObj CObject [("c", VStr "1")])) Body =
  VObj CObject [("c", VStr "1")]
  /\ (exists r,
        check utc_host twin_sanitizer
          (fake_request Body (VObj CObject [("c", VStr "1")]))
          (Some {| parent_name := "o";
                   parent_def := [required_param "c" TNumber Query] |}) = Ok r
        /\ In "o.c" (params_at (missing r) Query)
        /\ status r = false)
  /\ (exists r,
        check utc_host twin_sanitizer twin_request None = Ok r
        /\ recorded (missing r) Query "o.c"
        /\ status r = false).
Proof.
  pose proof (nested_other_location_is_missing utc_host twin_sanitizer "o"
                [required_param "c" TNumber Query] Body
                (VObj CObject [("c", VStr "1")])
                (required_param "c" TNumber Query)
                (or_introl eq_refl) ltac:(discriminate))
    as ((Hmember & _) & _ & _ & _ & _ & _ & Hnested & Houter).
  split; [exact Hmember|]. split.
  - eexists. split; [vm_compute; reflexivity|].
    apply (Hnested eq_refl). vm_compute. reflexivity.
  - eexists. split; [vm_compute; reflexivity|].
    apply (Houter eq_refl twin_request None _
             (with_defaults
                (object_param "o" Body [required_param "c" TNumber Query]))
             (Some (fun name fakeReq =>
                      check utc_host twin_sanitizer fakeReq
                        (Some {| parent_name := name;
                                 parent_def :=
                                   [required_param "c" TNumber Query] |})))
             (VStr (json_pair "c" "1"))).
    + vm_compute. reflexivity.
    + vm_compute. auto.
    + reflexivity.
    + reflexivity.
    + reflexivity.
    + reflexivity.
    + vm_compute. reflexivity.
    + vm_compute. reflexivity.
Defined.

(** * Further properties of the sanitizer *)

(** ** The callback of lines 85 to 140, case by case *)

Lemma all_numbers_fold (host : Host) (values : list string) (b : bool) :
  fold_left (fun acc v => acc && negb (isNaN (ToNumber host (VStr v)))) values b =
  b && forallb (fun v => negb (isNaN (ToNumber host (VStr v)))) values.
Proof.
  revert b. induction values as [|v vs IH]; intros b; simpl.
  - now rewrite andb_true_r.
  - rewrite IH. now rewrite andb_assoc.
Qed.

Lemma all_numbers_false (host : Host) (values : list string) :
  all_numbers host values = false <->
  exists v, In v values /\ isNaN (ToNumber host (VStr v)) = true.
Proof.
  unfold all_numbers. rewrite all_numbers_fold. cbn [andb]. split.
  - intros H. induction values as [|v vs IH]; simpl in H; [discriminate|].
    apply andb_false_iff in H as [H|H].
    + exists v. split; [now left|]. now apply negb_false_iff.
    + destruct (IH H) as (x & Hx & Hn). exists x. split; [now right|assumption].
  - intros (v & Hv & Hn). destruct (forallb _ values) eqn:E; [|reflexivity].
    rewrite forallb_forall in E. specialize (E v Hv). now rewrite Hn in E.
Qed.

Section CheckCases.

Variable host : Host.
Variable strict' : bool.
Variable path : string.
Variable req : Request.
Variable find_def :
  location -> string -> option (ParamsDefinition * option checker).

(** What the callback does to the lists when it returns: nothing, a push
    on [unknown], a push on [malformed], or the merge of a nested result
    that failed. *)
Lemma check_name_cases (w : location) (params : value) (mi un ma : list entry)
    (key : string) (st' : lists) :
  check_name host strict' path w params (find_def w) (mi, un, ma) key = Ok st' ->
  st' = (mi, un, ma)
  \/ (strict' = true /\ find_def w key = None
      /\ st' = (mi, push_at w (path ++ key) un, ma))
  \/ (exists def c raw,
         find_def w key = Some (def, c)
         /\ flagged_missing mi w (path ++ key) = false
         /\ get_prop params key = Ok raw
         /\ ill_formed host def raw
         /\ st' = (mi, un, push_at w (path ++ key) ma))
  \/ (exists def c raw payload nested,
         find_def w key = Some (def, Some c)
         /\ type def = TObject
         /\ flagged_missing mi w (path ++ key) = false
         /\ get_prop params key = Ok raw
         /\ JSON_parse host raw = Ok payload
         /\ c key (fake_request (in_ def) payload) = Ok nested
         /\ status nested = false
         /\ st' = merge (mi, un, ma) nested).
Proof.
  unfold check_name.
  destruct (find_def w key) as [[def nested]|] eqn:F; intros H.
  - destruct (flagged_missing mi w (path ++ key)) eqn:Fl;
      [inversion H; now left|].
    destruct (get_prop params key) as [raw|] eqn:Hraw; cbn [bind] in H; [|discriminate].
    assert (Push : ill_formed host def raw ->
                   Ok (mi, un, push_at w (path ++ key) ma) = Ok st' ->
                   exists def0 c raw0,
                     Some (def, nested) = Some (def0, c)
                     /\ false = false
                     /\ Ok raw = Ok raw0
                     /\ ill_formed host def0 raw0
                     /\ st' = (mi, un, push_at w (path ++ key) ma)).
    { intros Hill E. inversion E. exists def, nested, raw. auto. }
    destruct (type def) eqn:Et.
    + inversion H. now left.
    + destruct (is_true (isArray def)) eqn:Ea.
      * destruct (call_split raw (elementsDivider def)) as [values|] eqn:Es;
          cbn [bind] in H; [|discriminate].
        destruct (all_numbers host values) eqn:En;
          unfold all_numbers in En; rewrite En in H; cbn [negb] in H;
          [inversion H; now left|].
        right. right. left. apply Push; [|assumption].
        unfold ill_formed. rewrite Et, Ea. exists values. auto.
      * destruct (isNaN (ToNumber host raw)) eqn:En; [|inversion H; now left].
        right. right. left. apply Push; [|assumption].
        unfold ill_formed. now rewrite Et, Ea.
    + destruct nested as [check_nested|]; [|inversion H; now left].
      destruct (JSON_parse host raw) as [payload|] eqn:Ej; cbn [bind] in H;
        [|discriminate].
      destruct (check_nested key (fake_request (in_ def) payload)) as [r|] eqn:Ec;
        cbn [bind] in H; [|discriminate].
      destruct (status r) eqn:Est; cbn [bind] in H; inversion H; [now left|].
      right. right. right. exists def, check_nested, raw, payload, r.
      repeat split; auto.
    + destruct (isNaN (Date_value host raw)) eqn:En; [|inversion H; now left].
      right. right. left. apply Push; [|assumption].
      unfold ill_formed. now rewrite Et.
    + destruct (includes canonical_booleans raw) eqn:En;
        unfold canonical_booleans in En; rewrite En in H; cbn [negb] in H;
        [inversion H; now left|].
      right. right. left. apply Push; [|assumption].
      unfold ill_formed. now rewrite Et.
  - destruct strict' eqn:Es; inversion H; [|now left].
    right. left. auto.
Qed.

Local Abbreviation pushed_unknown := (unknown_push strict' path req find_def).
Local Abbreviation pushed_ill_formed := (ill_formed_push host path req find_def).

Lemma check_name_grow_ill_formed (w : location) (st st' : lists) (key : string) :
  In key (input_keys req w) ->
  check_name host strict' path w (input_mapping req w) (find_def w) st key = Ok st' ->
  grow pushed_unknown pushed_ill_formed st st'.
Proof.
  intros Hk H. destruct st as [[mi un] ma].
  apply check_name_cases in H
    as [->|[(Hs & F & ->)|[(def & c & raw & F & Fl & Hraw & Hill & ->)
                          |(def & c & raw & payload & nested
                            & _ & _ & _ & _ & _ & _ & _ & ->)]]].
  - apply grow_refl.
  - apply grow_unknown. split; [assumption|]. exists key. auto.
  - apply grow_malformed; [|assumption]. exists key, def, c, raw. auto.
  - apply (grow_merge _ _ (mi, un, ma)).
Qed.

Lemma check_body_grow_ill_formed (defs : list ParamsDefinition) (r : CheckResult) :
  check_body host strict' defs path req find_def = Ok r ->
  exists st,
    r = check_result st
    /\ grow pushed_unknown pushed_ill_formed (initial_lists defs path req) st.
Proof.
  intros H. apply check_body_ok in H as (st & H & -> & _). exists st.
  split; [reflexivity|]. revert H. apply foldM_rel.
  - apply grow_refl.
  - apply grow_trans.
  - intros s w s' _. unfold check_location. apply foldM_rel.
    + apply grow_refl.
    + apply grow_trans.
    + intros s0 key s0' Hk. now apply check_name_grow_ill_formed.
Qed.

End CheckCases.

(** ** Induction on the tree of definitions *)

Lemma find_with_none_inv {A B : Type} (p : A -> bool) (f : A -> B) (l : list A) :
  find_with p f l = None -> forall a, In a l -> p a = false.
Proof.
  induction l as [|x l IH]; simpl; [intros _ a []|].
  destruct (p x) eqn:E; [discriminate|].
  intros H a [<-|Ha]; auto.
Qed.

(** ** Invariants of the lists, at every depth *)

Section CheckInvariants.

Variable host : Host.

(** An invariant of the callback is an invariant of the lists. *)
Lemma check_body_inv (strict' : bool) (defs : list ParamsDefinition)
    (path : string) (req : Request)
    (find_def : location -> string -> option (ParamsDefinition * option checker))
    (I : lists -> Prop) (r : CheckResult) :
  I (initial_lists defs path req) ->
  (forall w key st st',
      In key (input_keys req w) -> I st ->
      check_name host strict' path w (input_mapping req w) (find_def w) st key
      = Ok st' ->
      I st') ->
  check_body host strict' defs path req find_def = Ok r ->
  exists st, r = check_result st /\ I st.
Proof.
  intros Hinit Hstep H. apply check_body_ok in H as (st & H & -> & _).
  exists st. split; [reflexivity|]. revert H. apply foldM_inv; [|assumption].
  intros s w s' _ Hs. unfold check_location. apply foldM_inv; [|assumption].
  intros s0 key s0' Hk. now apply Hstep.
Qed.

(** A property every call establishes from the results of the calls it
    makes holds of the result of every call, at any depth. *)
Lemma check_properties_good (strict' : bool) (Good : CheckResult -> Prop) :
  (forall defs path req find_def r,
      (forall w key def c n rq r',
          find_def w key = Some (def, Some c) -> c n rq = Ok r' -> Good r') ->
      check_body host strict' defs path req find_def = Ok r -> Good r) ->
  forall def c n rq r,
    check_properties host strict' def = Some c -> c n rq = Ok r -> Good r.
Proof.
  intros step def. induction def as [def IH] using ParamsDefinition_tree_ind.
  intros c n rq r Hc Hr.
  destruct def as [nm t a e df rq' i [ps|]];
    cbn [check_properties properties] in Hc; [|discriminate].
  inversion Hc; subst c; clear Hc. revert Hr. apply step.
  intros w key def c n' rq0 r' Hf. apply find_with_some in Hf as (Hin & _ & Hc).
  apply (IH ps def eq_refl Hin). now symmetry.
Qed.

Lemma check_good (Good : CheckResult -> Prop) (this : ParamsSanitizer)
    (req : Request) (parent : option Parent) (r : CheckResult) :
  (forall defs path req find_def r,
      (forall w key def c n rq r',
          find_def w key = Some (def, Some c) -> c n rq = Ok r' -> Good r') ->
      check_body host (is_true (strict (options this))) defs path req find_def
      = Ok r ->
      Good r) ->
  check host this req parent = Ok r -> Good r.
Proof.
  intros step. unfold check, check_with. apply step.
  intros w key def c n rq r' Hf. apply find_with_some in Hf as (_ & _ & Hc).
  apply (check_properties_good _ Good step def). now symmetry.
Qed.

(** *** Shape of the lists *)

Lemma map_where_push_at (w : location) (q : string) (l : list entry) :
  map where_ (push_at w q l) = map where_ l.
Proof.
  induction l as [|u l IH]; simpl; [reflexivity|].
  destruct (location_eqb (where_ u) w); simpl; [reflexivity|now rewrite IH].
Qed.

Lemma triples_add (n m : nat) : triples n ++ triples m = triples (n + m).
Proof.
  induction n as [|n IH]; [reflexivity|].
  cbn [triples Nat.add]. now rewrite <- app_assoc, IH.
Qed.

Lemma check_shape (this : ParamsSanitizer) (req : Request)
    (parent : option Parent) (r : CheckResult) :
  check host this req parent = Ok r ->
  exists n,
    map where_ (missing r) = triples (S n)
    /\ map where_ (unknown r) = triples (S n)
    /\ map where_ (malformed r) = triples (S n).
Proof.
  apply (check_good
           (fun r => exists n,
                map where_ (missing r) = triples (S n)
                /\ map where_ (unknown r) = triples (S n)
                /\ map where_ (malformed r) = triples (S n))).
  clear. intros defs path req find_def r Hnested H.
  apply (check_body_inv _ _ _ _ _
           (fun st => exists n,
                map where_ (missing_of st) = triples (S n)
                /\ map where_ (unknown_of st) = triples (S n)
                /\ map where_ (malformed_of st) = triples (S n))) in H.
  - destruct H as (st & -> & n & H).
    exists n. now rewrite check_result_missing, check_result_unknown,
                check_result_malformed.
  - exists 0. repeat split.
  - intros w key [[mi un] ma] st' Hk (n & Hmi & Hun & Hma) Hstep.
    cbn [missing_of unknown_of malformed_of fst snd] in *.
    apply check_name_cases in Hstep
      as [->|[(_ & _ & ->)|[(def & c & raw & _ & _ & _ & _ & ->)
                          |(def & c & raw & payload & nested
                            & F & _ & _ & _ & _ & Hc & _ & ->)]]];
      cbn [missing_of unknown_of malformed_of merge fst snd];
      rewrite ?map_where_push_at; eauto.
    destruct (Hnested _ _ _ _ _ _ _ F Hc) as (m & Nmi & Nun & Nma).
    exists (n + S m). rewrite !map_app, Hmi, Hun, Hma, Nmi, Nun, Nma.
    change (S (n + S m)) with (S n + S m). now rewrite !triples_add.
Qed.

(** *** Without strict mode *)

Lemma check_unknown_empty (this : ParamsSanitizer) (req : Request)
    (parent : option Parent) (r : CheckResult) :
  is_true (strict (options this)) = false ->
  check host this req parent = Ok r ->
  forall e, In e (unknown r) -> params_ e = [].
Proof.
  intros Hs.
  apply (check_good (fun r => forall e, In e (unknown r) -> params_ e = [])).
  rewrite Hs. clear. intros defs path req find_def r Hnested H.
  apply (check_body_inv _ _ _ _ _
           (fun st => forall e, In e (unknown_of st) -> params_ e = [])) in H.
  - destruct H as (st & -> & H). now rewrite check_result_unknown.
  - cbn. intros e [<-|[<-|[<-|[]]]]; reflexivity.
  - intros w key [[mi un] ma] st' Hk Hun Hstep.
    cbn [unknown_of fst snd] in *.
    apply check_name_cases in Hstep
      as [->|[(Hst & _)|[(def & c & raw & _ & _ & _ & _ & ->)
                          |(def & c & raw & payload & nested
                            & F & _ & _ & _ & _ & Hc & _ & ->)]]];
      cbn [unknown_of merge fst snd]; auto; [discriminate|].
    intros e He. apply in_app_or in He as [He|He]; [now apply Hun|].
    now apply (Hnested _ _ _ _ _ _ _ F Hc).
Qed.

(** *** A result that passes *)

Lemma any_params_some_name (l : list entry) :
  (0 <? List.length (any_params l))%nat = true -> some_name l.
Proof.
  intros H. destruct (any_params l) as [|n ns] eqn:E; [discriminate|].
  clear H. unfold any_params in E.
  assert (Hin : In n (filter (fun m => 0 <? m)%nat
                        (map (fun m => List.length (params_ m)) l))).
  { rewrite E. now left. }
  apply filter_In in Hin as [Hin Hpos].
  apply in_map_iff in Hin as (e & <- & He).
  exists e. split; [assumption|]. intros Hnil. now rewrite Hnil in Hpos.
Qed.

Lemma check_result_failed (st : lists) :
  status (check_result st) = false -> some_name3 st.
Proof.
  destruct st as [[mi un] ma]. unfold some_name3.
  cbn [check_result status missing_of unknown_of malformed_of fst snd].
  intros H. apply negb_false_iff in H.
  apply orb_prop in H as [H|H]; [apply orb_prop in H as [H|H]|];
    auto using any_params_some_name.
Qed.

Lemma some_name_push_at (w : location) (q : string) (l : list entry) :
  some_name l -> some_name (push_at w q l).
Proof.
  intros (e & He & Hn). induction l as [|u l IH]; [contradiction|].
  simpl. destruct (location_eqb (where_ u) w) eqn:E.
  - destruct He as [<-|He].
    + eexists. split; [now left|]. simpl. now destruct (params_ u).
    + exists e. split; [now right|assumption].
  - destruct He as [<-|He].
    + exists u. split; [now left|assumption].
    + destruct (IH He) as (e' & He' & Hn'). exists e'. split; [now right|assumption].
Qed.

Lemma some_name_app (l t : list entry) :
  some_name l \/ some_name t -> some_name (l ++ t).
Proof.
  intros [(e & He & Hn)|(e & He & Hn)]; exists e; auto using in_or_app.
Qed.

Lemma no_names_shape (l : list entry) :
  map where_ l = locations -> (forall e, In e l -> params_ e = []) -> l = no_names.
Proof.
  intros Hw Hp.
  destruct l as [|[w1 p1] [|[w2 p2] [|[w3 p3] [|]]]]; try discriminate.
  cbn in Hw. inversion Hw; subst.
  pose proof (Hp _ (or_introl eq_refl)) as H1.
  pose proof (Hp _ (or_intror (or_introl eq_refl))) as H2.
  pose proof (Hp _ (or_intror (or_intror (or_introl eq_refl)))) as H3.
  cbn in H1, H2, H3. now subst.
Qed.

(** Every call leaves its lists either with a name somewhere or as it
    created them, nothing merged; and a result that fails holds a name. *)
Lemma check_named_or_as_created (this : ParamsSanitizer) (req : Request)
    (parent : option Parent) (r : CheckResult) :
  check host this req parent = Ok r ->
  (status r = false -> some_name3 (missing r, unknown r, malformed r))
  /\ (some_name3 (missing r, unknown r, malformed r)
      \/ as_created (missing r, unknown r, malformed r)).
Proof.
  apply (check_good
           (fun r0 =>
              (status r0 = false ->
               some_name3 (missing r0, unknown r0, malformed r0))
              /\ (some_name3 (missing r0, unknown r0, malformed r0)
                  \/ as_created (missing r0, unknown r0, malformed r0)))).
  clear. intros defs path req find_def r Hnested H. split.
  - apply check_body_ok in H as (st & _ & -> & _).
    rewrite check_result_missing, check_result_unknown, check_result_malformed.
    apply check_result_failed.
  - apply (check_body_inv _ _ _ _ _ (fun st => some_name3 st \/ as_created st)) in H.
    + destruct H as (st & -> & H).
      now rewrite check_result_missing, check_result_unknown,
        check_result_malformed.
    + right. repeat split.
    + intros w key [[mi un] ma] st' Hk Hinv Hstep.
      unfold some_name3, as_created in *.
      cbn [missing_of unknown_of malformed_of fst snd] in *.
      apply check_name_cases in Hstep
        as [->|[(_ & _ & ->)|[(def & c & raw & _ & _ & _ & _ & ->)
                            |(def & c & raw & payload & nested
                              & F & _ & _ & _ & _ & Hc & Hf & ->)]]];
        cbn [missing_of unknown_of malformed_of merge fst snd].
      * assumption.
      * destruct Hinv as [[Hn|[Hn|Hn]]|(H1 & H2 & H3)];
          [auto|left; right; left; now apply some_name_push_at|auto|].
        right. now rewrite map_where_push_at.
      * destruct Hinv as [[Hn|[Hn|Hn]]|(H1 & H2 & H3)];
          [auto|auto|left; right; right; now apply some_name_push_at|].
        right. now rewrite map_where_push_at.
      * left. destruct (proj1 (Hnested _ _ _ _ _ _ _ F Hc) Hf) as [Hn|[Hn|Hn]];
          cbn [missing_of unknown_of malformed_of fst snd] in Hn;
          [left|right; left|right; right]; apply some_name_app; now right.
Qed.

Lemma check_passes_pristine (this : ParamsSanitizer) (req : Request)
    (parent : option Parent) (r : CheckResult) :
  check host this req parent = Ok r ->
  status r = true ->
  missing r = no_names /\ unknown r = no_names /\ malformed r = no_names.
Proof.
  intros H Hst.
  pose proof (proj1 (check_status_iff host _ _ _ _ H) Hst) as Hall.
  destruct (check_named_or_as_created _ _ _ _ H) as [_ [Hsome|(H1 & H2 & H3)]].
  - exfalso.
    assert (F : forall l, some_name l ->
                          (forall e, In e l -> params_ e = []) -> False).
    { intros l (e & He & Hn) Hl. now apply Hn, Hl. }
    destruct Hsome as [Hn|[Hn|Hn]]; apply (F _ Hn); intros e He; apply Hall;
      auto using in_or_app.
  - repeat split; apply no_names_shape; try assumption; intros e He; apply Hall;
      auto using in_or_app.
Qed.

End CheckInvariants.

(** ** The rules of the types *)

Section TypeRules.

Variable host : Host.

(** Every name of the call's own entry of [malformed] is a qualified key
    whose value fails the rule of its type. *)
Lemma check_ill_formed_at (this : ParamsSanitizer) (req : Request)
    (parent : option Parent) (r : CheckResult) (w : location) (x : string) :
  check host this req parent = Ok r ->
  In x (params_at (malformed r) w) ->
  ill_formed_push host (prefix parent) req (found host this parent) w x.
Proof.
  intros H Hx. apply check_body_grow_ill_formed in H as (st & -> & G).
  rewrite check_result_malformed in Hx.
  destruct (grow_malformed_names _ _ _ _ w x G (covers3_initial _ _ _) Hx)
    as [Hi|Hp]; [|assumption].
  rewrite malformed_initial in Hi. contradiction.
Qed.

Lemma malformed_is_ill_formed (this : ParamsSanitizer) (req : Request)
    (parent : option Parent) (r : CheckResult) (w : location) (key : string)
    (def : ParamsDefinition) (c : option checker) (raw : value) :
  check host this req parent = Ok r ->
  found host this parent w key = Some (def, c) ->
  get_prop (input_mapping req w) key = Ok raw ->
  In (prefix parent ++ key)%string (params_at (malformed r) w) ->
  ill_formed host def raw.
Proof.
  intros H Hf Hraw Hin.
  apply (check_ill_formed_at _ _ _ _ _ _ H) in Hin
    as (key' & def' & c' & raw' & _ & Hf' & E & Hraw' & Hill).
  apply append_cancel in E. subst key'.
  rewrite Hf in Hf'. rewrite Hraw in Hraw'.
  inversion Hf'; inversion Hraw'; now subst.
Qed.

(** A value that fails the rule of its type is pushed on [malformed],
    unless the name of its key is flagged missing. *)
Lemma ill_formed_is_malformed (this : ParamsSanitizer) (req : Request)
    (parent : option Parent) (r : CheckResult) (w : location) (key : string)
    (def : ParamsDefinition) (c : option checker) (raw : value) :
  check host this req parent = Ok r ->
  In key (input_keys req w) ->
  found host this parent w key = Some (def, c) ->
  get_prop (input_mapping req w) key = Ok raw ->
  ill_formed host def raw ->
  flagged_missing (missing r) w (prefix parent ++ key) = false ->
  In (prefix parent ++ key)%string (params_at (malformed r) w).
Proof.
  intros H Hk Hf Hraw Hill Hflag.
  destruct (check_visits _ _ _ _ _ _ _ H Hk)
    as (st1 & st2 & st & C1 & Hstep & G2 & Hfl & C2 & ->).
  rewrite check_result_malformed. apply (grow_malformed_mono _ _ st2 _ _ _ G2 C2).
  rewrite check_result_missing in Hflag.
  unfold check_name in Hstep. destruct st1 as [[mi un] ma].
  rewrite Hf in Hstep.
  destruct (flagged_missing mi w (prefix parent ++ key)) eqn:F.
  { apply Hfl in F. congruence. }
  rewrite Hraw in Hstep. cbn [bind] in Hstep.
  assert (Hpush : st2 = (mi, un, push_at w (prefix parent ++ key) ma)).
  { unfold ill_formed in Hill. destruct (type def); try contradiction.
    - destruct (is_true (isArray def)).
      + destruct Hill as (values & Es & En). rewrite Es in Hstep.
        cbn [bind] in Hstep. unfold all_numbers in En. rewrite En in Hstep.
        cbn [negb] in Hstep. now inversion Hstep.
      + rewrite Hill in Hstep. now inversion Hstep.
    - rewrite Hill in Hstep. now inversion Hstep.
    - unfold canonical_booleans in Hill. rewrite Hill in Hstep.
      cbn [negb] in Hstep. now inversion Hstep. }
  subst st2. cbn [malformed_of fst snd]. destruct C1 as (_ & _ & Ha).
  rewrite params_at_push_at, location_eqb_refl by assumption.
  apply in_or_app. right. now left.
Qed.

(** X1.  Lines 106 to 110.  A number that is no list: the call reports its
    key malformed only when the value converts to NaN, and does report it
    then, unless the name of the key is flagged missing (line 95). *)
Theorem number_field_malformed_iff_not_a_number (this : ParamsSanitizer)
    (req : Request) (parent : option Parent) (r : CheckResult) (w : location)
    (key : string) (def : ParamsDefinition) (c : option checker) (raw : value) :
  check host this req parent = Ok r ->
  found host this parent w key = Some (def, c) ->
  type def = TNumber ->
  is_true (isArray def) = false ->
  get_prop (input_mapping req w) key = Ok raw ->
  (In (prefix parent ++ key)%string (params_at (malformed r) w) ->
   isNaN (ToNumber host raw) = true)
  /\ (In key (input_keys req w) ->
      isNaN (ToNumber host raw) = true ->
      flagged_missing (missing r) w (prefix parent ++ key) = false ->
      In (prefix parent ++ key)%string (params_at (malformed r) w)).
Proof.
  intros H Hf Ht Ha Hraw. split.
  - intros Hin.
    pose proof (malformed_is_ill_formed _ _ _ _ _ _ _ _ _ H Hf Hraw Hin) as Hill.
    unfold ill_formed in Hill. now rewrite Ht, Ha in Hill.
  - intros Hk Hn. apply (ill_formed_is_malformed this req parent r w key def c raw);
      auto.
    unfold ill_formed. now rewrite Ht, Ha.
Qed.

(** X2.  Lines 100 to 105.  A list of numbers given as text: the call
    reports its key malformed only when one of the pieces of the text, cut
    at [elementsDivider], converts to NaN, and does report it then, unless
    the name of the key is flagged missing. *)
Theorem number_array_malformed_iff_some_piece_not_a_number
    (this : ParamsSanitizer) (req : Request) (parent : option Parent)
    (r : CheckResult) (w : location) (key : string) (def : ParamsDefinition)
    (c : option checker) (s : string) :
  check host this req parent = Ok r ->
  found host this parent w key = Some (def, c) ->
  type def = TNumber ->
  is_true (isArray def) = true ->
  get_prop (input_mapping req w) key = Ok (VStr s) ->
  (In (prefix parent ++ key)%string (params_at (malformed r) w) ->
   exists v, In v (split s (elementsDivider def))
             /\ isNaN (ToNumber host (VStr v)) = true)
  /\ (In key (input_keys req w) ->
      (exists v, In v (split s (elementsDivider def))
                 /\ isNaN (ToNumber host (VStr v)) = true) ->
      flagged_missing (missing r) w (prefix parent ++ key) = false ->
      In (prefix parent ++ key)%string (params_at (malformed r) w)).
Proof.
  intros H Hf Ht Ha Hraw. split.
  - intros Hin.
    pose proof (malformed_is_ill_formed _ _ _ _ _ _ _ _ _ H Hf Hraw Hin) as Hill.
    unfold ill_formed in Hill. rewrite Ht, Ha in Hill.
    destruct Hill as (values & Es & En). cbn [call_split] in Es.
    inversion Es; subst values. now apply all_numbers_false.
  - intros Hk Hn.
    apply (ill_formed_is_malformed this req parent r w key def c (VStr s)); auto.
    unfold ill_formed. rewrite Ht, Ha. exists (split s (elementsDivider def)).
    split; [reflexivity|]. now apply all_numbers_false.
Qed.

(** X3.  Lines 113 to 119.  A date: the call reports its key malformed
    only when [new Date] of the value has no time value, and does report
    it then, unless the name of the key is flagged missing. *)
Theorem date_field_malformed_iff_invalid_date (this : ParamsSanitizer)
    (req : Request) (parent : option Parent) (r : CheckResult) (w : location)
    (key : string) (def : ParamsDefinition) (c : option checker) (raw : value) :
  check host this req parent = Ok r ->
  found host this parent w key = Some (def, c) ->
  type def = TDate ->
  get_prop (input_mapping req w) key = Ok raw ->
  (In (prefix parent ++ key)%string (params_at (malformed r) w) ->
   isNaN (Date_value host raw) = true)
  /\ (In key (input_keys req w) ->
      isNaN (Date_value host raw) = true ->
      flagged_missing (missing r) w (prefix parent ++ key) = false ->
      In (prefix parent ++ key)%string (params_at (malformed r) w)).
Proof.
  intros H Hf Ht Hraw. split.
  - intros Hin.
    pose proof (malformed_is_ill_formed _ _ _ _ _ _ _ _ _ H Hf Hraw Hin) as Hill.
    unfold ill_formed in Hill. now rewrite Ht in Hill.
  - intros Hk Hn. apply (ill_formed_is_malformed this req parent r w key def c raw);
      auto.
    unfold ill_formed. now rewrite Ht.
Qed.

(** X4.  Lines 120 to 125.  The rule of a boolean looks at the whole value
    and not at [isArray]: the call reports the key of a boolean, list or
    not, malformed only when the whole value is none of the eight canonical
    representations, and does report it then, unless the name of the key
    is flagged missing.  A list of booleans such as [true,false] is
    therefore malformed. *)
Theorem boolean_rule_ignores_isArray (this : ParamsSanitizer)
    (req : Request) (parent : option Parent) (r : CheckResult) (w : location)
    (key : string) (def : ParamsDefinition) (c : option checker) (raw : value) :
  check host this req parent = Ok r ->
  found host this parent w key = Some (def, c) ->
  type def = TBoolean ->
  get_prop (input_mapping req w) key = Ok raw ->
  (In (prefix parent ++ key)%string (params_at (malformed r) w) ->
   includes canonical_booleans raw = false)
  /\ (In key (input_keys req w) ->
      includes canonical_booleans raw = false ->
      flagged_missing (missing r) w (prefix parent ++ key) = false ->
      In (prefix parent ++ key)%string (params_at (malformed r) w)).
Proof.
  intros H Hf Ht Hraw. split.
  - intros Hin.
    pose proof (malformed_is_ill_formed _ _ _ _ _ _ _ _ _ H Hf Hraw Hin) as Hill.
    unfold ill_formed in Hill. now rewrite Ht in Hill.
  - intros Hk Hn. apply (ill_formed_is_malformed this req parent r w key def c raw);
      auto.
    unfold ill_formed. now rewrite Ht.
Qed.

(** X5.  Text and objects have no rule: the call never pushes the key of a
    string-typed or object-typed definition on [malformed], whatever its
    value. *)
Theorem string_and_object_fields_never_malformed (this : ParamsSanitizer)
    (req : Request) (parent : option Parent) (r : CheckResult) (w : location)
    (key : string) (def : ParamsDefinition) (c : option checker) :
  check host this req parent = Ok r ->
  found host this parent w key = Some (def, c) ->
  type def = TString \/ type def = TObject ->
  ~ In (prefix parent ++ key)%string (params_at (malformed r) w).
Proof.
  intros H Hf Ht Hin.
  apply (check_ill_formed_at _ _ _ _ _ _ H) in Hin
    as (key' & def' & c' & raw' & _ & Hf' & E & _ & Hill).
  apply append_cancel in E. subst key'.
  rewrite Hf in Hf'. inversion Hf'; subst def' c'.
  unfold ill_formed in Hill. destruct Ht as [Ht|Ht]; now rewrite Ht in Hill.
Qed.

End TypeRules.

(** ** What [check] reads, and what it reports *)

Lemma is_true_Some (o : option bool) : is_true o = true <-> o = Some true.
Proof. destruct o as [[|]|]; simpl; split; congruence. Qed.

Lemma filter_all {A : Type} (p : A -> bool) (l : list A) :
  (forall a, In a l -> p a = true) -> filter p l = l.
Proof.
  induction l as [|a l IH]; simpl; intros H; [reflexivity|].
  rewrite (H a (or_introl eq_refl)). f_equal. apply IH. intros b Hb. apply H. now right.
Qed.

Lemma filter_none {A : Type} (p : A -> bool) (l : list A) :
  (forall a, In a l -> p a = false) -> filter p l = [].
Proof.
  induction l as [|a l IH]; simpl; intros H; [reflexivity|].
  rewrite (H a (or_introl eq_refl)). apply IH. intros b Hb. apply H. now right.
Qed.


Section CheckReports.

Variable host : Host.

(** [check] looks at the request through [req.query || {}], [req.params ||
    {}] and [req.body || {}] only. *)
Lemma check_ext (this : ParamsSanitizer) (req req' : Request)
    (parent : option Parent) :
  (forall w, input_mapping req w = input_mapping req' w) ->
  check host this req parent = check host this req' parent.
Proof.
  intros Hm. unfold check, check_with, check_body.
  assert (Hinit : initial_lists (scope this parent) (prefix parent) req =
                  initial_lists (scope this parent) (prefix parent) req').
  { unfold initial_lists, input_keys. f_equal. f_equal. apply map_ext.
    intros w. now rewrite Hm. }
  rewrite Hinit. f_equal. apply foldM_ext. intros st w _.
  unfold check_location. now rewrite Hm.
Qed.

Lemma check_no_keys (this : ParamsSanitizer) (req : Request)
    (parent : option Parent) :
  (forall w, input_keys req w = []) ->
  check host this req parent =
  Ok (check_result (initial_lists (scope this parent) (prefix parent) req)).
Proof.
  intros Hk. unfold check, check_with, check_body.
  assert (Hloc : forall find_def st w,
             check_location host (is_true (strict (options this))) (prefix parent)
               req find_def st w = Ok st).
  { intros find_def st w. unfold check_location.
    change (Object_keys (input_mapping req w)) with (input_keys req w).
    now rewrite Hk. }
  cbn [locations foldM]. repeat (rewrite Hloc; cbn [bind]). reflexivity.
Qed.

Lemma missing_params_no_keys (defs : list ParamsDefinition) (path : string)
    (w : location) :
  missing_params defs path w [] =
  map (fun d => (path ++ name d)%string)
      (filter (fun d => is_true (required d))
         (filter (fun d => location_eqb (in_ d) w) defs)).
Proof.
  unfold missing_params. rewrite filter_all by reflexivity. now rewrite map_map.
Qed.

Lemma check_no_keys_result (this : ParamsSanitizer)
    (req : Request) (parent : option Parent) :
  (forall w, input_keys req w = []) ->
  exists r,
    check host this req parent = Ok r
    /\ map where_ (missing r) = locations
    /\ (forall w,
           params_at (missing r) w =
           map (fun d => (prefix parent ++ name d)%string)
               (filter (fun d => is_true (required d))
                  (filter (fun d => location_eqb (in_ d) w) (scope this parent))))
    /\ unknown r = no_names
    /\ malformed r = no_names
    /\ (status r = true <->
        forall d, In d (scope this parent) -> is_true (required d) = false).
Proof.
  intros Hk. eexists. split; [now apply check_no_keys|].
  rewrite check_result_missing.
  assert (Hmi : forall w,
             params_at (missing_of (initial_lists (scope this parent)
                                      (prefix parent) req)) w =
             map (fun d => (prefix parent ++ name d)%string)
               (filter (fun d => is_true (required d))
                  (filter (fun d => location_eqb (in_ d) w) (scope this parent)))).
  { intros w. rewrite missing_initial, Hk. apply missing_params_no_keys. }
  split; [reflexivity|]. split; [exact Hmi|].
  split; [reflexivity|]. split; [reflexivity|].
  rewrite check_result_status. split.
  - intros Hall d Hd. destruct (is_true (required d)) eqn:Er; [|reflexivity].
    exfalso.
    assert (Hin : In (prefix parent ++ name d)%string
                     (params_at (missing_of (initial_lists (scope this parent)
                                               (prefix parent) req)) (in_ d))).
    { rewrite Hmi. apply in_map_iff. exists d. split; [reflexivity|].
      apply filter_In. split; [|assumption].
      apply filter_In. split; [assumption|apply location_eqb_refl]. }
    apply params_at_recorded in Hin as (e & He & _ & Hin).
    rewrite (Hall e) in Hin; [contradiction|]. now apply in_or_app; left.
  - intros Hnone e He.
    assert (Hempty : forall w,
               missing_params (scope this parent) (prefix parent) w
                 (input_keys req w) = []).
    { intros w. rewrite Hk, missing_params_no_keys.
      rewrite filter_none; [reflexivity|].
      intros d Hd. apply filter_In in Hd as [Hd _]. now apply Hnone. }
    cbn in He. rewrite !Hempty in He.
    repeat (destruct He as [<-|He]; [reflexivity|]). contradiction.
Qed.

(** X6.  A request without keys, its mappings absent or empty: [check]
    returns; [missing] has three entries, which list for each location the
    required definitions in scope, in the order of the schema; [unknown]
    and [malformed] hold no name; and the result passes exactly when no
    definition in scope is required. *)
Theorem check_of_a_request_without_keys (this : ParamsSanitizer)
    (req : Request) (parent : option Parent) :
  (forall w, input_keys req w = []) ->
  exists r,
    check host this req parent = Ok r
    /\ map where_ (missing r) = locations
    /\ (forall w,
           params_at (missing r) w =
           map (fun d => (prefix parent ++ name d)%string)
               (filter (fun d => is_true (required d))
                  (filter (fun d => location_eqb (in_ d) w) (scope this parent))))
    /\ unknown r = no_names
    /\ malformed r = no_names
    /\ (status r = true <->
        forall d, In d (scope this parent) -> is_true (required d) = false).
Proof. apply check_no_keys_result. Qed.

(** X7.  Lines 69 to 71 and 82: a mapping that is absent, or falsy in any
    other way, is validated as the empty object. *)
Theorem check_reads_a_falsy_mapping_as_empty (this : ParamsSanitizer)
    (req : Request) (parent : option Parent) (w : location) :
  truthy (mapping req w) = false ->
  check host this req parent =
  check host this (with_mapping req w empty_object) parent.
Proof.
  intros Hf. apply check_ext. intros w'. unfold input_mapping.
  rewrite mapping_with_mapping.
  destruct (location_eqb w' w) eqn:E; [|reflexivity].
  apply location_eqb_eq in E. subst w'. unfold or_else. now rewrite Hf.
Qed.

(** X8.  Line 130 writes the payload of an object field declared in
    ['path'] at [fakeReq.path], and [check] reads [req.params]: the nested
    validation of such a field runs as on an empty request whatever the
    payload holds.  It returns, no key of the payload is looked at, and
    every required property is reported missing. *)
Theorem path_object_payload_is_never_read (this : ParamsSanitizer)
    (parent : option Parent) (payload : value) :
  check host this (fake_request Path payload) parent =
  check host this empty_request parent
  /\ exists r,
       check host this (fake_request Path payload) parent = Ok r
       /\ unknown r = no_names
       /\ malformed r = no_names
       /\ forall d,
            In d (scope this parent) -> required d = Some true ->
            In (prefix parent ++ name d)%string (params_at (missing r) (in_ d)).
Proof.
  assert (E : check host this (fake_request Path payload) parent =
              check host this empty_request parent).
  { apply check_ext. now intros []. }
  split; [exact E|]. rewrite E.
  destruct (check_no_keys_result this empty_request parent)
    as (r & H & _ & Hmi & Hu & Ha & _); [now intros []|].
  exists r. split; [exact H|]. split; [exact Hu|]. split; [exact Ha|].
  intros d Hd Hr. rewrite Hmi. apply in_map_iff. exists d. split; [reflexivity|].
  apply filter_In. split; [|now rewrite Hr].
  apply filter_In. split; [assumption|apply location_eqb_refl].
Qed.

End CheckReports.

(** ** The three lists of a result *)

Section CheckLists.

Variable host : Host.

(** X9.  Lines 73 to 78: the call's own entry of [missing] for a location
    holds the qualified names of the required definitions of that location
    whose name is no key of its mapping, and nothing else.  A key that is
    present is never in it, whatever its value: the guard of line 95 can
    only be triggered by a name merged from a nested result. *)
Theorem missing_names_are_required_and_absent (this : ParamsSanitizer)
    (req : Request) (parent : option Parent) (r : CheckResult) (w : location) :
  check host this req parent = Ok r ->
  (forall x,
      In x (params_at (missing r) w) <->
      exists def,
        In def (scope this parent) /\ in_ def = w /\ required def = Some true
        /\ ~ In (name def) (input_keys req w)
        /\ x = (prefix parent ++ name def)%string)
  /\ (forall key,
         In key (input_keys req w) ->
         ~ In (prefix parent ++ key)%string (params_at (missing r) w)).
Proof.
  intros H. rewrite (check_missing_at _ _ _ _ _ w H). split.
  - intros x. rewrite missing_params_In.
    split; intros (def & Hd & Hw & Hr & Hk & Hx); exists def;
      repeat split; auto; now apply is_true_Some.
  - intros key Hk Hin. apply missing_params_In in Hin
      as (def & _ & _ & _ & Hnot & E).
    apply append_cancel in E. now subst key.
Qed.

(** X10.  Lines 88 to 93: the call's own entry of [unknown] for a location
    holds, in strict mode, the qualified keys of its mapping that no
    definition in scope matches by name and location, and nothing else;
    without strict mode it holds nothing. *)
Theorem unknown_names_are_keys_without_definition (this : ParamsSanitizer)
    (req : Request) (parent : option Parent) (r : CheckResult) (w : location)
    (x : string) :
  check host this req parent = Ok r ->
  (In x (params_at (unknown r) w) <->
   strict (options this) = Some true
   /\ exists key,
        In key (input_keys req w)
        /\ (forall d, In d (scope this parent) -> ~ (in_ d = w /\ name d = key))
        /\ x = (prefix parent ++ key)%string).
Proof.
  intros H. split.
  - intros Hx. apply (check_unknown_at _ _ _ _ _ _ _ H) in Hx
      as (Hs & key & Hk & Hf & ->).
    split; [now apply is_true_Some|]. exists key. repeat split; auto.
    intros d Hd Hm. apply matches_spec in Hm.
    unfold found in Hf. rewrite (find_with_none_inv _ _ _ Hf d Hd) in Hm.
    discriminate.
  - intros (Hs & key & Hk & Hnone & ->).
    now apply (unknown_key_strict host this req parent).
Qed.

(** X11.  Without strict mode no entry of [unknown] holds a name, the
    entries merged from nested validations, at any depth, included. *)
Theorem unknown_is_empty_without_strict_mode (this : ParamsSanitizer)
    (req : Request) (parent : option Parent) (r : CheckResult) :
  is_true (strict (options this)) = false ->
  check host this req parent = Ok r ->
  forall e, In e (unknown r) -> params_ e = [].
Proof. exact (check_unknown_empty host this req parent r). Qed.

(** X12.  Lines 132 to 137 merge a nested result only when it failed: a
    result passes exactly when each of its three lists is the three entries
    of lines 80 and 81, none holding a name and none merged. *)
Theorem passing_result_is_three_empty_entries (this : ParamsSanitizer)
    (req : Request) (parent : option Parent) (r : CheckResult) :
  check host this req parent = Ok r ->
  (status r = true <->
   missing r = no_names /\ unknown r = no_names /\ malformed r = no_names).
Proof.
  intros H. split; [now apply (check_passes_pristine host this req parent)|].
  intros (Hm & Hu & Ha). apply (proj2 (check_status_iff host _ _ _ _ H)).
  rewrite Hm, Hu, Ha. intros e He.
  apply in_app_or in He as [He|He]; [|apply in_app_or in He as [He|He]];
    cbn in He; repeat (destruct He as [<-|He]; [reflexivity|]); contradiction.
Qed.

(** X13.  The three lists of a result have the same length, and their
    entries name the locations in the order query, path, body, once for
    the call itself and once more for every nested result merged (lines
    77, 80, 81 and 133 to 135). *)
Theorem lists_are_runs_of_query_path_body (this : ParamsSanitizer)
    (req : Request) (parent : option Parent) (r : CheckResult) :
  check host this req parent = Ok r ->
  exists n,
    map where_ (missing r) = triples (S n)
    /\ map where_ (unknown r) = triples (S n)
    /\ map where_ (malformed r) = triples (S n).
Proof. apply check_shape. Qed.

(** Line 130 hands the value of an object field with properties to
    [JSON.parse], which converts it to text first. *)
Lemma check_returns_after_parse (this : ParamsSanitizer) (req : Request)
    (parent : option Parent) (r : CheckResult) (w : location) (key : string)
    (def : ParamsDefinition) (c : checker) (raw : value) :
  check host this req parent = Ok r ->
  In key (input_keys req w) ->
  found host this parent w key = Some (def, Some c) ->
  type def = TObject ->
  get_prop (input_mapping req w) key = Ok raw ->
  flagged_missing (missing r) w (prefix parent ++ key) = false ->
  exists payload, JSON_parse host raw = Ok payload.
Proof.
  intros H Hk Hf Ht Hraw Hflag.
  destruct (check_visits host _ _ _ _ _ _ H Hk)
    as (st1 & st2 & st & C1 & Hstep & G2 & Hfl & C2 & ->).
  rewrite check_result_missing in Hflag.
  unfold check_name in Hstep. destruct st1 as [[mi un] ma].
  rewrite Hf in Hstep.
  destruct (flagged_missing mi w (prefix parent ++ key)) eqn:F.
  { apply Hfl in F. congruence. }
  rewrite Hraw in Hstep. cbn [bind] in Hstep. rewrite Ht in Hstep.
  destruct (JSON_parse host raw) as [payload|]; [eauto|discriminate].
Qed.

(** X14.  An object field with properties whose value arrives already
    structured, as a body parsed by a JSON middleware holds it, makes
    [check] throw: the text of a plain object is [[object Object]], which
    is not JSON.  [check] returns only when the key is skipped because its
    name is flagged missing. *)
Theorem check_returns_on_a_structured_value_only_if_skipped
    (this : ParamsSanitizer) (req : Request) (parent : option Parent)
    (r : CheckResult) (w : location) (key : string) (def : ParamsDefinition)
    (c : checker) (kvs : props) :
  check host this req parent = Ok r ->
  In key (input_keys req w) ->
  found host this parent w key = Some (def, Some c) ->
  type def = TObject ->
  get_prop (input_mapping req w) key = Ok (VObj CObject kvs) ->
  flagged_missing (missing r) w (prefix parent ++ key) = true.
Proof.
  intros H Hk Hf Ht Hraw.
  destruct (flagged_missing (missing r) w (prefix parent ++ key)) eqn:F;
    [reflexivity|].
  destruct (check_returns_after_parse _ _ _ _ _ _ _ _ _ H Hk Hf Ht Hraw F)
    as [payload Hp].
  vm_compute in Hp. discriminate.
Qed.

End CheckLists.

(** ** What [values] returns *)

Lemma assoc_set_In (k k0 : string) (v v0 : value) (kvs : props) :
  In (k, v) (assoc_set k0 v0 kvs) -> (k, v) = (k0, v0) \/ In (k, v) kvs.
Proof.
  induction kvs as [|[k' v'] kvs IH]; simpl.
  - intros [H|[]]. left. now symmetry.
  - destruct (String.eqb k0 k'); simpl.
    + intros [H|H]; [left; now symmetry|right; now right].
    + intros [H|H]; [right; now left|].
      destruct (IH H); [now left|right; now right].
Qed.

Lemma assoc_set_keys (k0 : string) (v0 : value) (kvs : props) (k : string) :
  In k (map fst (assoc_set k0 v0 kvs)) -> k = k0 \/ In k (map fst kvs).
Proof.
  intros H. apply in_map_iff in H as ([k' v'] & <- & H).
  apply assoc_set_In in H as [H|H].
  - inversion H. now left.
  - right. apply in_map_iff. now exists (k', v').
Qed.

Lemma assoc_set_NoDup (k0 : string) (v0 : value) (kvs : props) :
  NoDup (map fst kvs) -> NoDup (map fst (assoc_set k0 v0 kvs)).
Proof.
  induction kvs as [|[k' v'] kvs IH]; simpl; intros H.
  - constructor; [intros []|constructor].
  - inversion H as [|? ? Hnot Hnd]; subst.
    destruct (String.eqb k0 k') eqn:E; simpl.
    + apply String.eqb_eq in E. subst k'. now constructor.
    + constructor; [|now apply IH].
      intros Hin. apply assoc_set_keys in Hin as [->|Hin]; [|contradiction].
      now rewrite String.eqb_refl in E.
Qed.

Lemma values_in_set_value_eq (obj : ValueResult) (w : location) (k : string)
    (v : value) (w' : location) :
  values_in (set_value obj w k v) w' =
  if location_eqb w' w then assoc_set k v (values_in obj w') else values_in obj w'.
Proof. now destruct w, w'. Qed.

Section ValuesReturns.

Variable host : Host.

Lemma values_loop_fields (defs : list ParamsDefinition) :
  forall req0 obj0 req' out,
    values_loop host defs (req0, obj0) = (req', Ok out) ->
    (forall w k v,
        In (k, v) (values_in out w) ->
        In (k, v) (values_in obj0 w)
        \/ (nullish v = false
            /\ exists def, In def defs /\ in_ def = w /\ name def = k))
    /\ ((forall w, NoDup (map fst (values_in obj0 w))) ->
        forall w, NoDup (map fst (values_in out w))).
Proof.
  induction defs as [|d ds IH]; intros req0 obj0 req' out H.
  - simpl in H. inversion H; subst. split; auto.
  - cbn [values_loop] in H.
    destruct (values_def host d (req0, obj0)) as [req1 [obj1|e]] eqn:Ed;
      [|inversion H].
    apply values_def_ok in Ed as (raw0 & v0 & _ & _ & Hobj1 & _).
    destruct (IH req1 obj1 req' out H) as [IH1 IH2]. split.
    + intros w k v Hin. destruct (IH1 w k v Hin) as [Hin1|(Hn & def & Hd & Hw & Hk)].
      * rewrite Hobj1 in Hin1. destruct (nullish v0) eqn:Hn0; [now left|].
        rewrite values_in_set_value_eq in Hin1.
        destruct (location_eqb w (in_ d)) eqn:E; [|now left].
        apply location_eqb_eq in E.
        apply assoc_set_In in Hin1 as [Hin1|Hin1]; [|now left].
        inversion Hin1; subst. right. split; [assumption|].
        exists d. repeat split; auto. now left.
      * right. split; [assumption|]. exists def. repeat split; auto. now right.
    + intros Hnd. apply IH2. intros w. rewrite Hobj1.
      destruct (nullish v0); [apply Hnd|].
      rewrite values_in_set_value_eq.
      destruct (location_eqb w (in_ d)); [|apply Hnd].
      apply assoc_set_NoDup, Hnd.
Qed.

(** X15.  Lines 151 to 169: the mappings [values] returns hold declared
    fields only.  Every key is the name of a top-level definition of that
    location, it stands once, and its value is neither null nor undefined;
    a key of the request without a definition never gets through. *)
Theorem values_returns_declared_fields_only (this : ParamsSanitizer)
    (req req' : Request) (out : ValueResult) :
  values host this req = (req', Ok out) ->
  forall w,
    NoDup (map fst (values_in out w))
    /\ forall k v,
         In (k, v) (values_in out w) ->
         nullish v = false
         /\ exists def, In def (definitions this) /\ in_ def = w /\ name def = k.
Proof.
  intros H w. unfold values in H.
  destruct (values_loop_fields _ _ _ _ _ H) as [H1 H2]. split.
  - apply H2. intros []; constructor.
  - intros k v Hin. destruct (H1 w k v Hin) as [Hin0|Hdef]; [|assumption].
    destruct w; contradiction.
Qed.

Lemma values_loop_absent (defs : list ParamsDefinition) (def : ParamsDefinition) :
  In def defs ->
  forall req obj,
    nullish (mapping req (in_ def)) = true ->
    exists req' e, values_loop host defs (req, obj) = (req', Throw e).
Proof.
  induction defs as [|d ds IH]; intros Hin req obj Hn; [contradiction|].
  cbn [values_loop]. unfold values_def.
  destruct (get_prop (mapping req (in_ d)) (name d)) as [raw|e] eqn:Eraw; [|eauto].
  destruct (parseValue host raw d) as [raw' [v|e]]; [|eauto].
  assert (Hd : in_ def <> in_ d).
  { intros E. rewrite E in Hn.
    destruct (mapping req (in_ d)); discriminate. }
  destruct Hin as [->|Hin]; [contradiction|].
  apply (IH Hin). rewrite mapping_with_mapping.
  destruct (location_eqb (in_ def) (in_ d)) eqn:E; [|assumption].
  apply location_eqb_eq in E. contradiction.
Qed.

(** X16.  Lines 158 to 163: [values] reads [req.query], [req.params] and
    [req.body] as they are, without the [|| {}] of [check]: when the
    mapping of the location of some definition is null or undefined,
    [values] throws. *)
Theorem values_throws_when_a_mapping_is_absent (this : ParamsSanitizer)
    (req : Request) (def : ParamsDefinition) :
  In def (definitions this) ->
  nullish (mapping req (in_ def)) = true ->
  exists req' e, values host this req = (req', Throw e).
Proof. intros Hin Hn. unfold values. now apply (values_loop_absent _ def). Qed.

End ValuesReturns.

(** ** [values] after a [check] that passes *)


Section AfterCheck.

Variable host : Host.



Lemma parseValue_number (raw : value) (def : ParamsDefinition) :
  type def = TNumber -> is_true (isArray def) = false -> nullish raw = false ->
  parseValue host raw def = (raw, Ok (VNum (ToNumber host raw))).
Proof.
  intros Ht Ha Hn. destruct def as [n t a e df rq i ps]. cbn [type isArray] in *. subst.
  cbn [parseValue type isArray]. now rewrite Hn, Ha.
Qed.







(** X21.  An empty or blank text converts to zero: [check] does not report
    a number field that holds it malformed, and [parseValue] makes it the
    number 0. *)
Theorem blank_text_is_the_number_zero (this : ParamsSanitizer)
    (req : Request) (parent : option Parent) (r : CheckResult) (w : location)
    (key : string) (def : ParamsDefinition) (c : option checker) (s : string) :
  check host this req parent = Ok r ->
  found host this parent w key = Some (def, c) ->
  type def = TNumber ->
  is_true (isArray def) = false ->
  get_prop (input_mapping req w) key = Ok (VStr s) ->
  trim (chars s) = [] ->
  ~ In (prefix parent ++ key)%string (params_at (malformed r) w)
  /\ parseValue host (VStr s) def = (VStr s, Ok (VNum (Finite 0 0))).
Proof.
  intros H Hf Ht Ha Hraw Hs.
  assert (Hz : ToNumber host (VStr s) = Finite 0 0).
  { cbn [ToNumber]. unfold StringToNumber. now rewrite Hs. }
  split.
  - intros Hin.
    pose proof (malformed_is_ill_formed host _ _ _ _ _ _ _ _ _ H Hf Hraw Hin) as Hill.
    unfold ill_formed in Hill. rewrite Ht, Ha, Hz in Hill. discriminate.
  - rewrite parseValue_number by auto. now rewrite Hz.
Qed.

End AfterCheck.

(** ** Lists given as text *)










Section Lists.

Variable host : Host.



End Lists.

(** X24.  Building a sanitizer from the definitions and options a sanitizer
    stores gives that sanitizer back: defaults merged twice are defaults
    merged once. *)
Theorem constructor_is_idempotent (data : list ParamsDefinition)
    (opts : ParamsSanitizerOptions) :
  let this := new_ParamsSanitizer data opts in
  new_ParamsSanitizer (definitions this) (options this) = this.
Proof.
  cbn. unfold new_ParamsSanitizer. f_equal.
  - rewrite map_map. apply map_ext. intros [n t [a|] [e|] [df|] [rq|] i ps];
      reflexivity.
  - now destruct (strict opts).
Qed.

(** ** Object fields *)

Section Objects.

Variable host : Host.




End Objects.

(** ** Nested results *)

Lemma some_name_recorded (l : list entry) :
  some_name l -> exists w x, recorded l w x.
Proof.
  intros (e & He & Hn). destruct (params_ e) as [|x xs] eqn:E; [congruence|].
  exists (where_ e), x, e. rewrite E. repeat split; auto. now left.
Qed.

Section NestedResults.

Variable host : Host.

(** X26.  Lines 127 to 139: when [check] returns, the nested validation of
    an object field with properties it descended into has returned; and
    when that nested result failed, the result fails and records every
    name the nested result records, in the same list and for the same
    location. *)
Theorem nested_failures_surface (this : ParamsSanitizer) (req : Request)
    (parent : option Parent) (r : CheckResult) (w : location) (key : string)
    (def : ParamsDefinition) (c : option checker)
    (ps : list ParamsDefinition) (raw payload : value) :
  check host this req parent = Ok r ->
  In key (input_keys req w) ->
  found host this parent w key = Some (def, c) ->
  type def = TObject ->
  properties def = Some ps ->
  get_prop (input_mapping req w) key = Ok raw ->
  JSON_parse host raw = Ok payload ->
  flagged_missing (missing r) w (prefix parent ++ key) = false ->
  exists nested,
    check host this (fake_request (in_ def) payload)
      (Some {| parent_name := key; parent_def := ps |}) = Ok nested
    /\ (status nested = false ->
        status r = false
        /\ forall w' x,
             (recorded (missing nested) w' x -> recorded (missing r) w' x)
             /\ (recorded (unknown nested) w' x -> recorded (unknown r) w' x)
             /\ (recorded (malformed nested) w' x -> recorded (malformed r) w' x)).
Proof.
  intros H Hk Hf Ht Hps Hraw Hp Hflag.
  destruct (check_visits host _ _ _ _ _ _ H Hk)
    as (st1 & st2 & st & C1 & Hstep & G2 & Hfl & C2 & ->).
  rewrite check_result_missing in Hflag.
  unfold check_name in Hstep. destruct st1 as [[mi un] ma].
  rewrite Hf in Hstep.
  destruct (flagged_missing mi w (prefix parent ++ key)) eqn:F.
  { apply Hfl in F. congruence. }
  rewrite Hraw in Hstep. cbn [bind] in Hstep. rewrite Ht in Hstep.
  pose proof (find_with_some _ _ _ _ _ Hf) as (_ & _ & Hc).
  rewrite check_properties_is_check, Hps in Hc. cbn [option_map] in Hc. subst c.
  rewrite Hp in Hstep. cbn [bind] in Hstep.
  destruct (check host this (fake_request (in_ def) payload)
              (Some {| parent_name := key; parent_def := ps |}))
    as [nested|e] eqn:En; cbn [bind] in Hstep; [|discriminate].
  exists nested. split; [reflexivity|]. intros Hst.
  rewrite Hst in Hstep. cbn [negb] in Hstep. inversion Hstep; subst st2.
  assert (Hsurface : forall w' x,
             (recorded (missing nested) w' x ->
              recorded (missing (check_result st)) w' x)
             /\ (recorded (unknown nested) w' x ->
                 recorded (unknown (check_result st)) w' x)
             /\ (recorded (malformed nested) w' x ->
                 recorded (malformed (check_result st)) w' x)).
  { intros w' x.
    rewrite check_result_missing, check_result_unknown, check_result_malformed.
    destruct (grow_recorded _ _ _ _ w' x G2) as (A1 & A2 & A3).
    cbn [missing_of unknown_of malformed_of merge fst snd] in A1, A2, A3.
    repeat split; intros Hr; [apply A1|apply A2|apply A3];
      apply recorded_app; now right. }
  split; [|exact Hsurface].
  apply check_ok in En as (stn & -> & _).
  apply check_result_failed in Hst. unfold some_name3 in Hst.
  rewrite <- check_result_missing, <- check_result_unknown,
    <- check_result_malformed in Hst.
  destruct Hst as [Hn|[Hn|Hn]]; apply some_name_recorded in Hn as (w' & x & Hr);
    apply (recorded_status_false host this req parent _ w' x H);
    destruct (Hsurface w' x) as (A1 & A2 & A3); auto.
Qed.

(** X27.  A field declared as a list ([isArray]) of numbers, booleans or
    strings is cut with [split], which text only has: when its value
    arrives as anything else, as the array of a JSON body does,
    [parseValue] throws a TypeError, and [check] on a list of numbers
    returns only when it skips the key. *)
Theorem list_field_that_is_no_text_throws (this : ParamsSanitizer)
    (req : Request) (parent : option Parent) (w : location) (key : string)
    (def : ParamsDefinition) (c : option checker) (raw : value) :
  is_true (isArray def) = true ->
  type def = TNumber \/ type def = TBoolean \/ type def = TString ->
  nullish raw = false ->
  is_string raw = false ->
  parseValue host raw def = (raw, Throw (TypeError_not_a_function "split"))
  /\ (type def = TNumber ->
      In key (input_keys req w) ->
      found host this parent w key = Some (def, c) ->
      get_prop (input_mapping req w) key = Ok raw ->
      forall r,
        check host this req parent = Ok r ->
        flagged_missing (missing r) w (prefix parent ++ key) = true).
Proof.
  intros Ha Ht Hn Hs.
  assert (Hsplit : call_split raw (elementsDivider def) =
                   Throw (TypeError_not_a_function "split")).
  { destruct raw; try discriminate; reflexivity. }
  split.
  - destruct def as [n t a e df rq i ps]. cbn [type isArray elementsDivider] in *.
    cbn [parseValue type isArray elementsDivider]. rewrite Hn.
    destruct Ht as [Ht|[Ht|Ht]]; subst t; rewrite Ha, Hsplit; reflexivity.
  - intros Hnum Hk Hf Hraw r H.
    destruct (flagged_missing (missing r) w (prefix parent ++ key)) eqn:Hflag;
      [reflexivity|exfalso].
    destruct (check_visits host _ _ _ _ _ _ H Hk)
      as (st1 & st2 & st & C1 & Hstep & G2 & Hfl & C2 & ->).
    rewrite check_result_missing in Hflag.
    unfold check_name in Hstep. destruct st1 as [[mi un] ma].
    rewrite Hf in Hstep.
    destruct (flagged_missing mi w (prefix parent ++ key)) eqn:F.
    { apply Hfl in F. congruence. }
    rewrite Hraw in Hstep. cbn [bind] in Hstep.
    rewrite Hnum, Ha, Hsplit in Hstep. discriminate.
Qed.

End NestedResults.

(** ** What a result that passes guarantees *)

Lemma find_with_matches {B : Type} (f : ParamsDefinition -> B)
    (defs : list ParamsDefinition) (w : location) (key : string) :
  find_with (matches w key) f defs = None \/
  exists d, In d defs /\ in_ d = w /\ name d = key
            /\ find_with (matches w key) f defs = Some (d, f d).
Proof.
  destruct (find_with (matches w key) f defs) as [[d b]|] eqn:E; [|now left].
  right. apply find_with_some in E as (Hd & Hm & ->).
  apply matches_spec in Hm as [Hw Hn]. exists d. auto.
Qed.

Section Guarantees.

Variable host : Host.

(** X28.  A result that passes guarantees that the key of every required
    definition in scope is present in the mapping of its location and, in
    strict mode, that every key of the three mappings has a definition in
    scope, of that location. *)
Theorem passing_check_has_the_required_and_the_declared
    (this : ParamsSanitizer) (req : Request) (parent : option Parent)
    (r : CheckResult) :
  check host this req parent = Ok r ->
  status r = true ->
  (forall def,
      In def (scope this parent) -> required def = Some true ->
      In (name def) (input_keys req (in_ def)))
  /\ (strict (options this) = Some true ->
      forall w key,
        In key (input_keys req w) ->
        exists def, In def (scope this parent) /\ in_ def = w /\ name def = key).
Proof.
  intros H Hst. split.
  - intros def Hd Hr.
    destruct (in_dec string_dec (name def) (input_keys req (in_ def)))
      as [Hin|Hnot]; [assumption|exfalso].
    pose proof (required_missing_at host _ _ _ _ _ H Hd Hr Hnot) as Hm.
    apply params_at_recorded in Hm.
    rewrite (recorded_status_false host _ _ _ _ _ _ H (or_introl Hm)) in Hst.
    discriminate.
  - intros Hs w key Hk.
    destruct (find_with_matches
                (check_properties host (is_true (strict (options this))))
                (scope this parent) w key) as [Hnone|(d & Hd & Hw & Hn & _)];
      [exfalso|eauto].
    assert (Hu : In (prefix parent ++ key)%string (params_at (unknown r) w)).
    { apply (unknown_key_strict host this req parent r w key Hs H Hk).
      intros d Hd Hm. apply matches_spec in Hm.
      now rewrite (find_with_none_inv _ _ _ Hnone d Hd) in Hm. }
    apply params_at_recorded in Hu.
    rewrite (recorded_status_false host _ _ _ _ _ _ H
               (or_intror (or_introl Hu))) in Hst.
    discriminate.
Qed.

(** X29.  A schema without nested properties gives lists of exactly three
    entries, for query, path and body in that order: nothing is ever
    merged, whether the result passes or not. *)
Theorem flat_schema_gives_three_entries (this : ParamsSanitizer)
    (req : Request) (parent : option Parent) (r : CheckResult) :
  (forall d, In d (scope this parent) -> properties d = None) ->
  check host this req parent = Ok r ->
  map where_ (missing r) = locations
  /\ map where_ (unknown r) = locations
  /\ map where_ (malformed r) = locations.
Proof.
  intros Hflat H.
  apply (check_body_inv host _ _ _ _ (found host this parent) as_created) in H.
  - destruct H as (st & -> & H).
    now rewrite check_result_missing, check_result_unknown, check_result_malformed.
  - repeat split.
  - intros w key [[mi un] ma] st' Hk Hinv Hstep. unfold as_created in *.
    cbn [missing_of unknown_of malformed_of fst snd] in *.
    apply check_name_cases in Hstep
      as [->|[(_ & _ & ->)|[(def & c & raw & _ & _ & _ & _ & ->)
                          |(def & c & raw & payload & nested
                            & F & _)]]];
      cbn [missing_of unknown_of malformed_of fst snd];
      rewrite ?map_where_push_at; auto.
    apply find_with_some in F as (Hd & _ & Hc).
    rewrite (check_properties_none host _ _ (Hflat def Hd)) in Hc. discriminate.
Qed.

End Guarantees.

(** ** The further properties on examples *)

Lemma check_of_a_request_without_keys_witness :
  exists r,
    check utc_host (readme_sanitizer strict_options) empty_request None = Ok r
    /\ params_at (missing r) Query = ["p1"]
    /\ unknown r = no_names
    /\ malformed r = no_names.
Proof.
  destruct (check_of_a_request_without_keys utc_host
              (readme_sanitizer strict_options) empty_request None)
    as (r & H & _ & Hmi & Hu & Ha & _); [now intros []|].
  exists r. split; [exact H|]. split; [|split; assumption].
  rewrite Hmi. reflexivity.
Defined.

Lemma check_reads_a_falsy_mapping_as_empty_witness :
  check utc_host body_flag_sanitizer bodyless_request None =
  check utc_host body_flag_sanitizer
    (with_mapping bodyless_request Body empty_object) None.
Proof.
  apply (check_reads_a_falsy_mapping_as_empty utc_host body_flag_sanitizer
           bodyless_request None Body).
  reflexivity.
Defined.

Lemma missing_names_are_required_and_absent_witness :
  exists r,
    check utc_host (readme_sanitizer strict_options)
      (request [("p3", VStr "y")] [] []) None = Ok r
    /\ (forall x,
           In x (params_at (missing r) Query) <->
           exists def,
             In def (definitions (readme_sanitizer strict_options))
             /\ in_ def = Query /\ required def = Some true
             /\ ~ In (name def) ["p3"]
             /\ x = name def)
    /\ (forall key, In key ["p3"] -> ~ In key (params_at (missing r) Query)).
Proof.
  eexists. split; [vm_compute; reflexivity|].
  apply (missing_names_are_required_and_absent utc_host
           (readme_sanitizer strict_options)
           (request [("p3", VStr "y")] [] []) None _ Query).
  vm_compute. reflexivity.
Defined.

Lemma unknown_names_are_keys_without_definition_witness :
  exists r,
    check utc_host (readme_sanitizer strict_options)
      (request [("p1", VStr "x"); ("p3", VStr "y")] [] []) None = Ok r
    /\ (In "p3" (params_at (unknown r) Query) <->
        strict (options (readme_sanitizer strict_options)) = Some true
        /\ exists key,
             In key ["p1"; "p3"]
             /\ (forall d,
                    In d (definitions (readme_sanitizer strict_options)) ->
                    ~ (in_ d = Query /\ name d = key))
             /\ "p3" = key).
Proof.
  eexists. split; [vm_compute; reflexivity|].
  apply (unknown_names_are_keys_without_definition utc_host
           (readme_sanitizer strict_options)
           (request [("p1", VStr "x"); ("p3", VStr "y")] [] []) None _ Query "p3").
  vm_compute. reflexivity.
Defined.

Lemma unknown_is_empty_without_strict_mode_witness :
  exists r,
    check utc_host dotted_sanitizer dotted_request None = Ok r
    /\ forall e, In e (unknown r) -> params_ e = [].
Proof.
  eexists. split; [vm_compute; reflexivity|].
  apply (unknown_is_empty_without_strict_mode utc_host dotted_sanitizer
           dotted_request None).
  - reflexivity.
  - vm_compute. reflexivity.
Defined.

Lemma number_field_malformed_iff_not_a_number_witness :
  exists r,
    check utc_host typed_sanitizer untyped_request None = Ok r
    /\ In "n" (params_at (malformed r) Query).
Proof.
  eexists. split; [vm_compute; reflexivity|].
  match goal with
  | |- In _ (params_at (malformed ?r) _) =>
      apply (proj2 (number_field_malformed_iff_not_a_number utc_host
                      typed_sanitizer untyped_request None r Query "n"
                      (with_defaults (param "n" TNumber Query)) None (VStr "abc")
                      eq_refl eq_refl eq_refl eq_refl eq_refl))
  end.
  - vm_compute. auto.
  - reflexivity.
  - vm_compute. reflexivity.
Defined.

Lemma number_array_malformed_iff_some_piece_not_a_number_witness :
  exists r,
    check utc_host typed_sanitizer untyped_request None = Ok r
    /\ In "ids" (params_at (malformed r) Query).
Proof.
  eexists. split; [vm_compute; reflexivity|].
  match goal with
  | |- In _ (params_at (malformed ?r) _) =>
      apply (proj2 (number_array_malformed_iff_some_piece_not_a_number utc_host
                      typed_sanitizer untyped_request None r Query "ids"
                      (with_defaults (list_param "ids" TNumber Query (Some "|")))
                      None "1|2|x" eq_refl eq_refl eq_refl eq_refl eq_refl))
  end.
  - vm_compute. auto.
  - exists "x". split; [vm_compute; auto|reflexivity].
  - vm_compute. reflexivity.
Defined.

Lemma date_field_malformed_iff_invalid_date_witness :
  exists r,
    check utc_host typed_sanitizer untyped_request None = Ok r
    /\ In "when" (params_at (malformed r) Query).
Proof.
  eexists. split; [vm_compute; reflexivity|].
  match goal with
  | |- In _ (params_at (malformed ?r) _) =>
      apply (proj2 (date_field_malformed_iff_invalid_date utc_host
                      typed_sanitizer untyped_request None r Query "when"
                      (with_defaults (param "when" TDate Query)) None (VStr "never")
                      eq_refl eq_refl eq_refl eq_refl))
  end.
  - vm_compute. auto.
  - vm_compute. reflexivity.
  - vm_compute. reflexivity.
Defined.

Lemma boolean_rule_ignores_isArray_witness :
  exists r,
    check utc_host
      (new_ParamsSanitizer [list_param "flags" TBoolean Query (Some ",")] no_options)
      (request [("flags", VStr "true,false")] [] []) None = Ok r
    /\ In "flags" (params_at (malformed r) Query).
Proof.
  eexists. split; [vm_compute; reflexivity|].
  match goal with
  | |- In _ (params_at (malformed ?r) _) =>
      apply (proj2 (boolean_rule_ignores_isArray utc_host
                      (new_ParamsSanitizer
                         [list_param "flags" TBoolean Query (Some ",")] no_options)
                      (request [("flags", VStr "true,false")] [] []) None r
                      Query "flags"
                      (with_defaults (list_param "flags" TBoolean Query (Some ",")))
                      None (VStr "true,false") eq_refl eq_refl eq_refl eq_refl))
  end.
  - vm_compute. auto.
  - reflexivity.
  - vm_compute. reflexivity.
Defined.

Lemma string_and_object_fields_never_malformed_witness :
  exists r,
    check utc_host typed_sanitizer untyped_request None = Ok r
    /\ ~ In "tags" (params_at (malformed r) Query).
Proof.
  eexists. split; [vm_compute; reflexivity|].
  match goal with
  | |- ~ In _ (params_at (malformed ?r) _) =>
      apply (string_and_object_fields_never_malformed utc_host
               typed_sanitizer untyped_request None r Query "tags"
               (with_defaults (list_param "tags" TString Query None)) None)
  end.
  - vm_compute. reflexivity.
  - vm_compute. reflexivity.
  - left. reflexivity.
Defined.

Lemma blank_text_is_the_number_zero_witness :
  exists r,
    check utc_host typed_sanitizer (request [("n", VStr "")] [] []) None = Ok r
    /\ ~ In "n" (params_at (malformed r) Query)
    /\ parseValue utc_host (VStr "") (with_defaults (param "n" TNumber Query)) =
       (VStr "", Ok (VNum (Finite 0 0))).
Proof.
  eexists. split; [vm_compute; reflexivity|].
  match goal with
  | |- ~ In _ (params_at (malformed ?r) _) /\ _ =>
      apply (blank_text_is_the_number_zero utc_host typed_sanitizer
               (request [("n", VStr "")] [] []) None r Query "n"
               (with_defaults (param "n" TNumber Query)) None "")
  end; reflexivity.
Defined.

Lemma passing_result_is_three_empty_entries_witness :
  exists r,
    check utc_host typed_sanitizer typed_request None = Ok r
    /\ (status r = true <->
        missing r = no_names /\ unknown r = no_names /\ malformed r = no_names).
Proof.
  eexists. split; [vm_compute; reflexivity|].
  apply (passing_result_is_three_empty_entries utc_host typed_sanitizer
           typed_request None).
  vm_compute. reflexivity.
Defined.

Lemma lists_are_runs_of_query_path_body_witness :
  exists r,
    check utc_host dotted_sanitizer dotted_request None = Ok r
    /\ exists n,
         map where_ (missing r) = triples (S n)
         /\ map where_ (unknown r) = triples (S n)
         /\ map where_ (malformed r) = triples (S n).
Proof.
  eexists. split; [vm_compute; reflexivity|].
  apply (lists_are_runs_of_query_path_body utc_host dotted_sanitizer
           dotted_request None).
  vm_compute. reflexivity.
Defined.

Lemma check_returns_on_a_structured_value_only_if_skipped_witness :
  exists r,
    check utc_host skipped_sanitizer skipped_request None = Ok r
    /\ flagged_missing (missing r) Query "o.c" = true.
Proof.
  eexists. split; [vm_compute; reflexivity|].
  match goal with
  | |- flagged_missing (missing ?r) _ _ = true =>
      apply (check_returns_on_a_structured_value_only_if_skipped utc_host
               skipped_sanitizer skipped_request None r Query "o.c"
               (with_defaults (object_param "o.c" Query [param "x" TString Query]))
               (fun name fakeReq =>
                  check utc_host skipped_sanitizer fakeReq
                    (Some {| parent_name := name;
                             parent_def := [param "x" TString Query] |}))
               [])
  end.
  - vm_compute. reflexivity.
  - vm_compute. auto.
  - reflexivity.
  - reflexivity.
  - reflexivity.
Defined.

Lemma nested_failures_surface_witness :
  exists r nested,
    check utc_host dotted_sanitizer dotted_request None = Ok r
    /\ check utc_host dotted_sanitizer (fake_request Query (VObj CObject []))
         (Some {| parent_name := "o";
                  parent_def := [required_param "c" TString Query] |}) = Ok nested
    /\ (status nested = false ->
        status r = false
        /\ forall w' x,
             (recorded (missing nested) w' x -> recorded (missing r) w' x)
             /\ (recorded (unknown nested) w' x -> recorded (unknown r) w' x)
             /\ (recorded (malformed nested) w' x -> recorded (malformed r) w' x)).
Proof.
  eexists.
  match goal with
  | |- exists nested, check _ _ _ _ = Ok ?r /\ _ =>
      destruct (nested_failures_surface utc_host dotted_sanitizer dotted_request
                  None r Query "o"
                  (with_defaults
                     (object_param "o" Query [required_param "c" TString Query]))
                  (Some (fun name fakeReq =>
                           check utc_host dotted_sanitizer fakeReq
                             (Some {| parent_name := name;
                                      parent_def :=
                                        [required_param "c" TString Query] |})))
                  [required_param "c" TString Query]
                  (VStr "{}") (VObj CObject []))
        as (nested & Hn & Hs)
  end.
  - vm_compute. reflexivity.
  - vm_compute. auto.
  - reflexivity.
  - reflexivity.
  - reflexivity.
  - reflexivity.
  - reflexivity.
  - vm_compute. reflexivity.
  - exists nested. split; [reflexivity|]. split; assumption.
Defined.

Lemma values_returns_declared_fields_only_witness :
  exists req' out,
    values utc_host typed_sanitizer typed_request = (req', Ok out)
    /\ NoDup (map fst (values_in out Query))
    /\ forall k v,
         In (k, v) (values_in out Query) ->
         nullish v = false
         /\ exists def,
              In def (definitions typed_sanitizer) /\ in_ def = Query
              /\ name def = k.
Proof.
  eexists. eexists. split; [vm_compute; reflexivity|].
  apply (values_returns_declared_fields_only utc_host typed_sanitizer
           typed_request typed_request).
  vm_compute. reflexivity.
Defined.

Lemma values_throws_when_a_mapping_is_absent_witness :
  exists req' e,
    values utc_host body_flag_sanitizer bodyless_request = (req', Throw e).
Proof.
  apply (values_throws_when_a_mapping_is_absent utc_host body_flag_sanitizer
           bodyless_request (with_defaults (param "flag" TBoolean Body))).
  - left. reflexivity.
  - reflexivity.
Defined.









Lemma list_field_that_is_no_text_throws_witness :
  parseValue utc_host (mk_array [VNum (Finite 1 0)])
    (with_defaults (list_param "o.c" TNumber Query None)) =
  (mk_array [VNum (Finite 1 0)], Throw (TypeError_not_a_function "split"))
  /\ exists r,
       check utc_host skipped_list_sanitizer skipped_list_request None = Ok r
       /\ flagged_missing (missing r) Query "o.c" = true.
Proof.
  destruct (list_field_that_is_no_text_throws utc_host skipped_list_sanitizer
              skipped_list_request None Query "o.c"
              (with_defaults (list_param "o.c" TNumber Query None)) None
              (mk_array [VNum (Finite 1 0)]) eq_refl (or_introl eq_refl)
              eq_refl eq_refl) as [H1 H2].
  split; [exact H1|]. eexists. split; [vm_compute; reflexivity|].
  apply H2.
  - reflexivity.
  - vm_compute. auto.
  - vm_compute. reflexivity.
  - reflexivity.
  - vm_compute. reflexivity.
Defined.
Lemma passing_check_has_the_required_and_the_declared_witness :
  exists r,
    check utc_host (readme_sanitizer strict_options)
      (request [("p1", VStr "x"); ("p2", VStr "4")] [] []) None = Ok r
    /\ (forall def,
           In def (definitions (readme_sanitizer strict_options)) ->
           required def = Some true ->
           In (name def)
              (input_keys (request [("p1", VStr "x"); ("p2", VStr "4")] [] [])
                 (in_ def)))
    /\ (strict (options (readme_sanitizer strict_options)) = Some true ->
        forall w key,
          In key (input_keys (request [("p1", VStr "x"); ("p2", VStr "4")] [] []) w) ->
          exists def,
            In def (definitions (readme_sanitizer strict_options))
            /\ in_ def = w /\ name def = key).
Proof.
  eexists. split; [vm_compute; reflexivity|].
  eapply (passing_check_has_the_required_and_the_declared utc_host
           (readme_sanitizer strict_options)
           (request [("p1", VStr "x"); ("p2", VStr "4")] [] []) None).
  - vm_compute. reflexivity.
  - reflexivity.
Defined.

Lemma flat_schema_gives_three_entries_witness :
  exists r,
    check utc_host typed_sanitizer untyped_request None = Ok r
    /\ map where_ (missing r) = locations
    /\ map where_ (unknown r) = locations
    /\ map where_ (malformed r) = locations.
Proof.
  eexists. split; [vm_compute; reflexivity|].
  apply (flat_schema_gives_three_entries utc_host typed_sanitizer
           untyped_request None).
  - intros d Hd. repeat (destruct Hd as [<-|Hd]; [reflexivity|]). contradiction.
  - vm_compute. reflexivity.
Defined.
